(** * Dialogue typing and layout engine: a shallow embedding

  The development follows the TypeScript sources of the "Magic Words"
  dialogue engine:

  - [utils/dialogueParser.ts]            : [Parser]
  - [magic-words/ScrollManager.ts]       : [Scroll]
  - [magic-words/EmojiManager.ts]        : [EmojiManager]
  - [magic-words/AvatarManager.ts]       : [AvatarManager]
  - [magic-words/DialogueLineManager.ts] : [DialogueLineManager], and
    the word wrap of its second copy     : [HardBreak]
  - [magic-words/DialogueManager.ts]     : [DialogueManager]
  - [utils/ObjectPool.ts]                : [ObjectPool]
  - [scenes/MagicWordsScene.ts]          : [MagicWordsScene]

  The numbers of the typing clock (the typing speed, the frame delta
  and the accumulated time) are IEEE 754 doubles, as in JavaScript:
  module [Double].  Pixel quantities are modelled as exact rationals
  ([Q]); indices and character codes are natural numbers.  JavaScript
  strings are sequences of UTF-16 code units.  Of the PixiJS library
  (version 7.4.3, in which [Text] is a subclass of [Sprite]) the
  development keeps what the engine reads and writes. *)

From Stdlib Require Import String Ascii.
From Stdlib Require Import List ZArith NArith QArith Qminmax Qround Qabs.
From Stdlib Require Import Bool Lia Lqa.
From Stdlib Require Import SpecFloat Zpower.
From Equations Require Import Equations.
Import ListNotations.

Set Implicit Arguments.

(* ===================================================================== *)
(** ** JavaScript strings *)
(* ===================================================================== *)

Module JS.

(** A string is the list of its UTF-16 code units ([charCodeAt]). *)
Definition jsstring := list N.

Definition of_string (s : string) : jsstring :=
  List.map N_of_ascii (list_ascii_of_string s).

Definition eqb (a b : jsstring) : bool :=
  if list_eq_dec N.eq_dec a b then true else false.

Lemma eqb_eq a b : eqb a b = true <-> a = b.
Proof. unfold eqb. destruct (list_eq_dec N.eq_dec a b); split; congruence. Qed.

(** [s.substring(0, n)] for [0 <= n]. *)
Definition substring0 (n : nat) (s : jsstring) : jsstring := firstn n s.

(** JavaScript truthiness of a string: only the empty string is falsy. *)
Definition truthy (s : jsstring) : bool :=
  match s with [] => false | _ :: _ => true end.

(** [a || b] on strings that may be [undefined]. *)
Definition or_default (a : option jsstring) (b : jsstring) : jsstring :=
  match a with
  | Some s => if truthy s then s else b
  | None => b
  end.

(** [s.split(" ")]: never empty, an empty piece for every extra blank. *)
Fixpoint split_on (sep : N) (s : jsstring) : list jsstring :=
  match s with
  | [] => [[]]
  | c :: r =>
      if N.eqb c sep then [] :: split_on sep r
      else match split_on sep r with
           | w :: ws => (c :: w) :: ws
           | [] => [[c]]
           end
  end.

End JS.

Import JS.

(* ===================================================================== *)
(** ** JavaScript numbers of the typing clock *)
(* ===================================================================== *)

(** A JavaScript number is an IEEE 754 binary64 value.  The operations
    are those of the Standard Library's specification of floating-point
    arithmetic, which is the specification of Rocq's primitive floats:
    round to nearest, ties to even, with signed zeros, infinities and
    NaN. *)
Module Double.

Definition number := spec_float.

Definition prec : Z := 53.
Definition emax : Z := 1024.

(** [a + b], [a - b], [a / b]. *)
Definition add : number -> number -> number := SFadd prec emax.
Definition sub : number -> number -> number := SFsub prec emax.
Definition div : number -> number -> number := SFdiv prec emax.

(** [a >= b], [a <= b] and [a < b]; each is false when a side is NaN. *)
Definition geb (a b : number) : bool := SFleb b a.
Definition leb (a b : number) : bool := SFleb a b.
Definition ltb (a b : number) : bool := SFltb a b.

Definition zero : number := S754_zero false.
Definition negZero : number := S754_zero true.
Definition infinity : number := S754_infinity false.

(** The double of an integer literal, and of a decimal literal given as
    the quotient of two integers that doubles hold exactly. *)
Definition ofZ (z : Z) : number := binary_normalize prec emax z 0 false.

Definition ofQ (q : Q) : number := div (ofZ (Qnum q)) (ofZ (Zpos (Qden q))).

End Double.

(** Remembers the equation of a scrutinee across a [with] clause. *)
Definition inspect {A} (a : A) : {b | a = b} := exist _ a eq_refl.

(* ===================================================================== *)
(** ** utils/dialogueParser.ts *)
(* ===================================================================== *)

Module Parser.

Inductive PartType := text | emoji | avatar | missing_emoji.

Record DialoguePart := mkPart { type : PartType; content : jsstring }.

Definition PartType_eqb (a b : PartType) : bool :=
  match a, b with
  | text, text | emoji, emoji | avatar, avatar
  | missing_emoji, missing_emoji => true
  | _, _ => false
  end.

(** Code units of the five delimiter characters. *)
Definition LBRACE : N := 123.
Definition RBRACE : N := 125.
Definition COLON : N := 58.
Definition LBRACKET : N := 91.
Definition RBRACKET : N := 93.

(** The greedy class [[^c]+] stops at the first [c]: any shorter run is
    followed by a unit that is not [c], so backtracking never helps. *)
Fixpoint run_until (close : N) (s : jsstring) : jsstring * jsstring :=
  match s with
  | [] => ([], [])
  | c :: r =>
      if N.eqb c close then ([], s)
      else let (name, rest) := run_until close r in (c :: name, rest)
  end.

(** [([^c]+)c] at the head of [s]: the captured name and what follows. *)
Definition group (close : N) (s : jsstring) : option (jsstring * jsstring) :=
  match run_until close s with
  | ((_ :: _) as name, _ :: rest) => Some (name, rest)
  | _ => None
  end.

(** The pattern
    [/(?:\{([^}]+)\})|(?:\:([^:]+)\:)|(?:\[([^\]]+)\])/] anchored at the
    head of [s].  The three alternatives start with different
    characters, so at most one can apply; the captured group is never
    empty, hence [match[1] || match[2] || match[3]] is that group. *)
Definition match_at (s : jsstring) : option (jsstring * jsstring) :=
  match s with
  | [] => None
  | c :: r =>
      if N.eqb c LBRACE then group RBRACE r
      else if N.eqb c COLON then group COLON r
      else if N.eqb c LBRACKET then group RBRACKET r
      else None
  end.

(** [pattern.exec(text)] with the [g] flag, on [s = text.substring(lastIndex)]:
    the leftmost position at which the pattern matches.  The result is
    [(text.substring(lastIndex, match.index), emojiName,
      text.substring(pattern.lastIndex))]. *)
Fixpoint exec (s : jsstring) : option (jsstring * jsstring * jsstring) :=
  match match_at s with
  | Some (name, rest) => Some ([], name, rest)
  | None =>
      match s with
      | [] => None
      | c :: r =>
          match exec r with
          | Some (pre, name, rest) => Some (c :: pre, name, rest)
          | None => None
          end
      end
  end.

Lemma run_until_length close s :
  (length (snd (run_until close s)) <= length s)%nat.
Proof.
  induction s as [|c r IH]; simpl; [lia|].
  destruct (N.eqb c close); simpl; [lia|].
  destruct (run_until close r); simpl in *; lia.
Qed.

Lemma group_length close s name rest :
  group close s = Some (name, rest) -> (length rest < length s)%nat.
Proof.
  unfold group. pose proof (run_until_length close s) as H.
  destruct (run_until close s) as [[|a n] [|b r]]; try discriminate.
  intros E; inversion E; subst. simpl in H. lia.
Qed.

Lemma match_at_length s name rest :
  match_at s = Some (name, rest) -> (length rest < length s)%nat.
Proof.
  destruct s as [|c r]; simpl; [discriminate|].
  destruct (N.eqb c LBRACE); [intros H; apply group_length in H; lia|].
  destruct (N.eqb c COLON); [intros H; apply group_length in H; lia|].
  destruct (N.eqb c LBRACKET); [intros H; apply group_length in H; lia|].
  discriminate.
Qed.

Lemma exec_length s pre name rest :
  exec s = Some (pre, name, rest) -> (length rest < length s)%nat.
Proof.
  revert pre name rest. induction s as [|c r IH]; intros pre name rest.
  - simpl. discriminate.
  - cbn [exec]. destruct (match_at (c :: r)) as [[n0 r0]|] eqn:M.
    + intros E; inversion E; subst. eapply match_at_length; eauto.
    + destruct (exec r) as [[[p1 n1] r1]|] eqn:X; [|discriminate].
      intros E; inversion E; subst.
      specialize (IH _ _ _ eq_refl). simpl. lia.
Qed.

(** [parts.push({type: "text", content: ...})] guarded by
    [match.index > lastIndex]. *)
Definition push_preceding (pre : jsstring) (parts : list DialoguePart) :=
  match pre with
  | [] => parts
  | _ :: _ => parts ++ [mkPart text pre]
  end.

(** The [while ((match = pattern.exec(text)) !== null)] loop followed by
    the trailing-text push; [s] is the text from [lastIndex] on. *)
Equations? parse_loop (s : jsstring) (parts : list DialoguePart)
  : list DialoguePart by wf (length s) lt :=
  parse_loop s parts with inspect (exec s) := {
    | exist _ (Some (pre, name, rest)) H =>
        parse_loop rest (push_preceding pre parts ++ [mkPart emoji name]);
    | exist _ None H => push_preceding s parts }.
Proof. eapply exec_length; eauto. Qed.

Definition parseLine (t : jsstring) : list DialoguePart :=
  if truthy t then
    match parse_loop t [] with
    | [] => [mkPart text []]
    | parts => parts
    end
  else [mkPart text []].

End Parser.

(* ===================================================================== *)
(** ** Numbers *)
(* ===================================================================== *)

Definition Qleb (a b : Q) : bool := Qle_bool a b.
Definition Qltb (a b : Q) : bool := negb (Qle_bool b a).

Definition Qmax3 (a b c : Q) : Q := Qmax (Qmax a b) c.

(* ===================================================================== *)
(** ** magic-words/ScrollManager.ts *)
(* ===================================================================== *)

Module Scroll.

(** The fields of the class.  The mask is a [Graphics] shared with the
    dialogue manager, which redraws it on resize: its height is passed
    to every method that reads [dialogueMask.height] instead of being
    stored here.  [scrollPauseTimeout] records whether a resume
    callback is pending. *)
Record ScrollManager := mkScroll {
  currentScrollY : Q;
  targetScrollY : Q;
  dialogueContentHeight : Q;
  isPointerDown : bool;
  lastPointerY : Q;
  isScrollingPaused : bool;
  scrollPauseTimeout : bool
}.

Definition minScrollY : Q := 0.
Definition SCROLL_SMOOTHING : Q := 1 # 10.
Definition SCROLL_PAUSE_DURATION : Q := 2000.

Definition create : ScrollManager :=
  mkScroll 0 0 0 false 0 false false.

Definition set_target (t : Q) (s : ScrollManager) : ScrollManager :=
  mkScroll (currentScrollY s) t (dialogueContentHeight s) (isPointerDown s)
           (lastPointerY s) (isScrollingPaused s) (scrollPauseTimeout s).

Definition set_paused (b : bool) (s : ScrollManager) : ScrollManager :=
  mkScroll (currentScrollY s) (targetScrollY s) (dialogueContentHeight s)
           (isPointerDown s) (lastPointerY s) b (scrollPauseTimeout s).

Definition set_timeout (b : bool) (s : ScrollManager) : ScrollManager :=
  mkScroll (currentScrollY s) (targetScrollY s) (dialogueContentHeight s)
           (isPointerDown s) (lastPointerY s) (isScrollingPaused s) b.

Definition getMaxScroll (maskHeight : Q) (s : ScrollManager) : Q :=
  Qmax 0 (dialogueContentHeight s - maskHeight).

(** [Math.max(Math.min(t, this.minScrollY), -this.getMaxScroll())]. *)
Definition clamp (maskHeight : Q) (s : ScrollManager) (t : Q) : Q :=
  Qmax (Qmin t minScrollY) (- getMaxScroll maskHeight s).

Definition pauseAutoScroll (s : ScrollManager) : ScrollManager :=
  set_timeout false (set_paused true s).

Definition resumeAutoScrollAfterDelay (s : ScrollManager) : ScrollManager :=
  set_timeout true s.

(** The callback given to [setTimeout]; it runs only while pending. *)
Definition timeoutFired (s : ScrollManager) : ScrollManager :=
  if scrollPauseTimeout s then set_timeout false (set_paused false s) else s.

Definition onPointerDown (globalY : Q) (s : ScrollManager) : ScrollManager :=
  pauseAutoScroll
    (mkScroll (currentScrollY s) (targetScrollY s) (dialogueContentHeight s)
              true globalY (isScrollingPaused s) (scrollPauseTimeout s)).

Definition onPointerMove (maskHeight globalY : Q) (s : ScrollManager)
  : ScrollManager :=
  if isPointerDown s then
    let deltaY := globalY - lastPointerY s in
    let s1 := set_target (targetScrollY s + deltaY) s in
    let s2 := set_target (clamp maskHeight s1 (targetScrollY s1)) s1 in
    mkScroll (currentScrollY s2) (targetScrollY s2) (dialogueContentHeight s2)
             (isPointerDown s2) globalY (isScrollingPaused s2)
             (scrollPauseTimeout s2)
  else s.

Definition onPointerUp (s : ScrollManager) : ScrollManager :=
  if isPointerDown s then
    resumeAutoScrollAfterDelay
      (mkScroll (currentScrollY s) (targetScrollY s) (dialogueContentHeight s)
                false (lastPointerY s) (isScrollingPaused s)
                (scrollPauseTimeout s))
  else s.

Definition updateScroll {A : Type} (_deltaMS : A) (s : ScrollManager)
  : ScrollManager :=
  let scrollDiff := targetScrollY s - currentScrollY s in
  let cur := currentScrollY s + scrollDiff * SCROLL_SMOOTHING in
  let cur' := if Qltb (Qabs scrollDiff) (1 # 10) then targetScrollY s else cur in
  mkScroll cur' (targetScrollY s) (dialogueContentHeight s) (isPointerDown s)
           (lastPointerY s) (isScrollingPaused s) (scrollPauseTimeout s).

Definition scrollToBottom (maskHeight : Q) (s : ScrollManager) : ScrollManager :=
  if isScrollingPaused s then s
  else set_target (- getMaxScroll maskHeight s) s.

Definition updateContentHeight (maskHeight height : Q) (s : ScrollManager)
  : ScrollManager :=
  let s1 := mkScroll (currentScrollY s) (targetScrollY s) height
                     (isPointerDown s) (lastPointerY s)
                     (isScrollingPaused s) (scrollPauseTimeout s) in
  let s2 := set_target (clamp maskHeight s1 (targetScrollY s1)) s1 in
  if negb (isScrollingPaused s2) then scrollToBottom maskHeight s2 else s2.

Definition scrollToPosition (maskHeight position : Q) (s : ScrollManager)
  : ScrollManager :=
  let targetY := - position + maskHeight / 3 in
  let targetY := clamp maskHeight s targetY in
  resumeAutoScrollAfterDelay (pauseAutoScroll (set_target targetY s)).

(** [DialogueManager.forceScrollToBottom] reaches into the private flag:
    save, clear, scroll, restore. *)
Definition forceScrollToBottom (maskHeight : Q) (s : ScrollManager)
  : ScrollManager :=
  let wasPaused := isScrollingPaused s in
  let s1 := set_paused false s in
  let s2 := scrollToBottom maskHeight s1 in
  set_paused wasPaused s2.

(** The scroll controller together with the mask it reads. *)
Record View := mkView { maskHeight : Q; manager : ScrollManager }.

(** What can happen to a view: pointer events, the timer, the calls the
    dialogue manager makes, and a relayout, in which the manager redraws
    the mask and then reports the new content height. *)
Inductive Event :=
| PointerDown (globalY : Q)
| PointerMove (globalY : Q)
| PointerUp
| TimeoutFired
| UpdateScroll (deltaMS : Q)
| ScrollToBottom
| ForceScrollToBottom
| UpdateContentHeight (height : Q)
| ScrollToPosition (position : Q)
| Relayout (newMaskHeight height : Q).

Definition step (e : Event) (v : View) : View :=
  let h := maskHeight v in
  let s := manager v in
  match e with
  | PointerDown y => mkView h (onPointerDown y s)
  | PointerMove y => mkView h (onPointerMove h y s)
  | PointerUp => mkView h (onPointerUp s)
  | TimeoutFired => mkView h (timeoutFired s)
  | UpdateScroll d => mkView h (updateScroll d s)
  | ScrollToBottom => mkView h (scrollToBottom h s)
  | ForceScrollToBottom => mkView h (forceScrollToBottom h s)
  | UpdateContentHeight c => mkView h (updateContentHeight h c s)
  | ScrollToPosition p => mkView h (scrollToPosition h p s)
  | Relayout h' c => mkView h' (updateContentHeight h' c s)
  end.

Inductive Reachable : View -> Prop :=
| reach_create : forall h, Reachable (mkView h create)
| reach_step : forall e v, Reachable v -> Reachable (step e v).

(** The operations that write [targetScrollY]. *)
Definition mutates_target (e : Event) : bool :=
  match e with
  | PointerMove _ | ScrollToBottom | ForceScrollToBottom
  | UpdateContentHeight _ | ScrollToPosition _ | Relayout _ _ => true
  | _ => false
  end.

Definition target_in_bounds (v : View) : Prop :=
  - Qmax 0 (dialogueContentHeight (manager v) - maskHeight v)
    <= targetScrollY (manager v)
  /\ targetScrollY (manager v) <= 0.

End Scroll.

(* ===================================================================== *)
(** ** The rendering platform *)
(* ===================================================================== *)

Module Pixi.

(** [Texture.EMPTY] against a texture that carries an image. *)
Inductive Texture := EMPTY | Loaded (id : N).

(** [Record<string, Texture>], read only. *)
Definition TextureMap := jsstring -> option Texture.

(** [!texture || texture === Texture.EMPTY]. *)
Definition unusable (t : option Texture) : bool :=
  match t with
  | Some (Loaded _) => false
  | _ => true
  end.

(** [a || b] on looked-up textures: every texture object is truthy. *)
Definition orElse (a b : option Texture) : option Texture :=
  match a with
  | Some t => Some t
  | None => b
  end.

Inductive FontWeight := normal | bold.

(** The style properties the engine reads or writes.  [isInstance] tells
    whether the configured value is a [TextStyle] object, which
    [new Text(s, style)] keeps by reference, or a plain record, which it
    copies. *)
Record TextStyle := mkStyle {
  fontSize : option Q;
  fill : N;
  fontWeight : FontWeight;
  fontFace : N;
  isInstance : bool
}.

Definition WHITE : N := 16777215.

Definition set_fill (c : N) (s : TextStyle) : TextStyle :=
  mkStyle (fontSize s) c (fontWeight s) (fontFace s) (isInstance s).

Definition set_fontWeight (w : FontWeight) (s : TextStyle) : TextStyle :=
  mkStyle (fontSize s) (fill s) w (fontFace s) (isInstance s).

Record Text := mkText {
  Text_text : jsstring;
  Text_style : TextStyle;
  Text_scale : Q;
  Text_visible : bool
}.

Record Sprite := mkSprite {
  Sprite_texture : Texture;
  Sprite_width : Q;
  Sprite_height : Q;
  Sprite_anchor : Q * Q;
  Sprite_visible : bool
}.

(** [new Text(s, style)] and [new Sprite(texture)] followed by the two
    size assignments. *)
Definition newText (s : jsstring) (st : TextStyle) : Text :=
  mkText s st 1 true.

Definition newSprite (t : Texture) (size : Q) : Sprite :=
  mkSprite t size size (0, 0) true.

(** What the browser supplies: text measurement at scale one, and the
    case mappings of [String.prototype]. *)
Class Platform := {
  textWidth : TextStyle -> jsstring -> Q;
  textHeight : TextStyle -> jsstring -> Q;
  toLowerCase : jsstring -> jsstring;
  toUpperCase : jsstring -> jsstring
}.

End Pixi.

Import Pixi.

(* ===================================================================== *)
(** ** magic-words/types.ts *)
(* ===================================================================== *)

Module Types.

Import Parser.

(** A payload entry; either field may be absent in a malformed payload. *)
Record DialogueLine := mkLine {
  line_name : option jsstring;
  line_text : option jsstring
}.

Inductive EmojiPosition := EmojiInline | EmojiLeft.

Record DialogueStyles := mkStyles {
  textStyle : TextStyle;
  charTextStyle : TextStyle;
  missingEmojiStyle : TextStyle;
  emojiSize : Q;
  avatarSize : Q;
  avatarPadding : Q;
  lineSpacing : Q;
  dialoguePadding : Q;
  typingSpeed : Double.number;
  emojiPosition : option EmojiPosition
}.

Inductive PartObject :=
| TextObject (t : Text)
| SpriteObject (s : Sprite).

(** A node placed in the content container of a bubble: a new [Text]
    made for a word, or the object of emoji part [index] itself, which
    is a sprite or, for an emoji without a texture, the fallback
    [Text]. *)
Inductive PlacedNode :=
| WordText (word : jsstring)
| EmojiSprite (index : nat).

Record Placed := mkPlaced {
  node : PlacedNode;
  node_x : Q;
  node_y : Q;
  node_width : Q
}.

(** What [updateLineLayout] draws and positions. *)
Record Geometry := mkGeometry {
  scaleFactor : Q;
  isRightAligned : bool;
  colorIndex : N;
  bubbleColor : N;
  placedNodes : list Placed;
  bubbleRect : Q * Q;
  bubbleRadius : Q;
  tail : list (Q * Q);
  bubbleContainerX : Q;
  contentPosition : Q * Q;
  avatarPosition : option (Q * Q * Q);
  leftEmojiColumn : option (Q * Q * list (Q * Q * Q))
}.

(** [container.y], [container.height] and the children laid out in it. *)
Record Container := mkContainer {
  container_y : Q;
  container_height : Q;
  layout : option Geometry
}.

Record LineRenderData := mkLineData {
  container : Container;
  parts : list DialoguePart;
  characterText : Text;
  partObjects : list PartObject;
  speakerName : option jsstring
}.

End Types.

Import Types.

(* ===================================================================== *)
(** ** magic-words/EmojiManager.ts *)
(* ===================================================================== *)

Module EmojiManager.

(** [emojiName.replace(/:/g, "")]. *)
Definition stripColons (s : jsstring) : jsstring :=
  filter (fun c => negb (N.eqb c Parser.COLON)) s.

Definition isSome {A} (o : option A) : bool :=
  match o with Some _ => true | None => false end.

Definition getSubstitutedEmojiName (emojiTextures : TextureMap)
  (emojiName : jsstring) : jsstring :=
  let baseName := stripColons emojiName in
  if (JS.eqb baseName (of_string "affirmative")
      || JS.eqb baseName (of_string "win"))
     && (isSome (emojiTextures (of_string "satisfied"))
         || isSome (emojiTextures (of_string ":satisfied:")))
  then of_string "satisfied"
  else baseName.

Definition bracketed (s : jsstring) : jsstring :=
  Parser.LBRACKET :: s ++ [Parser.RBRACKET].

(** The texture the lookup chain settles on. *)
Definition findTexture (emojiTextures : TextureMap) (emojiName : jsstring)
  : option Texture :=
  let texture := emojiTextures emojiName in
  if unusable texture then
    let baseEmojiName := stripColons emojiName in
    if truthy baseEmojiName then
      let substitutedBaseName :=
        getSubstitutedEmojiName emojiTextures baseEmojiName in
      let substitutedName :=
        Parser.COLON :: substitutedBaseName ++ [Parser.COLON] in
      let texture := emojiTextures substitutedName in
      if unusable texture then emojiTextures substitutedBaseName
      else texture
    else None
  else texture.

(** [createEmojiObject]: a sprite when a texture is found, otherwise the
    bracketed name in the missing-emoji style.  [new Sprite] does not
    throw on a loaded texture, so the [catch] arm is not taken. *)
Definition createEmojiObject (emojiTextures : TextureMap) (emojiSize : Q)
  (missingEmojiStyle : TextStyle) (emojiName : jsstring) : PartObject :=
  if truthy emojiName then
    match findTexture emojiTextures emojiName with
    | Some (Loaded i) =>
        let sprite := newSprite (Loaded i) emojiSize in
        SpriteObject
          (mkSprite (Sprite_texture sprite) (Sprite_width sprite)
                    (Sprite_height sprite) (0, 1 # 2) (Sprite_visible sprite))
    | _ => TextObject (newText (bracketed emojiName) missingEmojiStyle)
    end
  else TextObject (newText (of_string "[?]") missingEmojiStyle).

End EmojiManager.

(* ===================================================================== *)
(** ** magic-words/AvatarManager.ts *)
(* ===================================================================== *)

Module AvatarManager.

Section WithPlatform.
Context {pf : Platform}.

(** [name.charAt(0).toUpperCase() + name.slice(1).toLowerCase()]. *)
Definition capitalized (name : jsstring) : jsstring :=
  toUpperCase (firstn 1 name) ++ toLowerCase (skipn 1 name).

Definition getAvatar (avatarTextures : TextureMap) (avatarSize : Q)
  (name : jsstring) : option Sprite :=
  let texture := avatarTextures name in
  if unusable texture then
    let altTexture :=
      orElse (avatarTextures (toLowerCase name))
        (orElse (avatarTextures (toUpperCase name))
                (avatarTextures (capitalized name))) in
    match altTexture with
    | Some (Loaded i) => Some (newSprite (Loaded i) avatarSize)
    | _ => None
    end
  else
    match texture with
    | Some t => Some (newSprite t avatarSize)
    | None => None
    end.

End WithPlatform.

End AvatarManager.

(* ===================================================================== *)
(** ** magic-words/DialogueLineManager.ts *)
(* ===================================================================== *)

Module DialogueLineManager.

Import Parser.

(** How a JavaScript call ends. *)
Inductive Completion (A : Type) :=
| Normal (value : A)
| Throws (error : jsstring).
Arguments Normal {A} value.
Arguments Throws {A} error.

Definition set_textStyle (s : TextStyle) (st : DialogueStyles) :=
  mkStyles s (charTextStyle st) (missingEmojiStyle st) (emojiSize st)
           (avatarSize st) (avatarPadding st) (lineSpacing st)
           (dialoguePadding st) (typingSpeed st) (emojiPosition st).

Definition set_charTextStyle (s : TextStyle) (st : DialogueStyles) :=
  mkStyles (textStyle st) s (missingEmojiStyle st) (emojiSize st)
           (avatarSize st) (avatarPadding st) (lineSpacing st)
           (dialoguePadding st) (typingSpeed st) (emojiPosition st).

Definition set_missingEmojiStyle (s : TextStyle) (st : DialogueStyles) :=
  mkStyles (textStyle st) (charTextStyle st) s (emojiSize st)
           (avatarSize st) (avatarPadding st) (lineSpacing st)
           (dialoguePadding st) (typingSpeed st) (emojiPosition st).

(** A [Text] made from a [TextStyle] object keeps that object, so a write
    through [text.style] is seen by the configuration as well. *)
Definition writeBack (ty : PartType) (s : TextStyle) (st : DialogueStyles)
  : DialogueStyles :=
  if isInstance s then
    match ty with
    | text => set_textStyle s st
    | emoji => set_missingEmojiStyle s st
    | _ => st
    end
  else st.

Definition writeBackChar (s : TextStyle) (st : DialogueStyles)
  : DialogueStyles :=
  if isInstance s then set_charTextStyle s st else st.

Definition set_container (c : Container) (l : LineRenderData) :=
  mkLineData c (parts l) (characterText l) (partObjects l) (speakerName l).

Definition set_container_y (v : Q) (l : LineRenderData) :=
  set_container
    (mkContainer v (container_height (container l)) (layout (container l))) l.

Definition set_speakerName (n : option jsstring) (l : LineRenderData) :=
  mkLineData (container l) (parts l) (characterText l) (partObjects l) n.

Definition UNKNOWN : jsstring := of_string "Unknown".

(** The object made for one parsed part; a part of another type gets
    none. *)
Definition createPartObject (styles : DialogueStyles)
  (emojiTextures : TextureMap) (part : DialoguePart) : list PartObject :=
  match type part with
  | text => [TextObject (newText (content part) (textStyle styles))]
  | emoji =>
      [EmojiManager.createEmojiObject emojiTextures (emojiSize styles)
         (missingEmojiStyle styles) (content part)]
  | _ => []
  end.

(** [createLineObjects]: [line?.name || "Unknown"], [line?.text || ""]. *)
Definition createLineObjects (styles : DialogueStyles)
  (emojiTextures : TextureMap) (line : option DialogueLine)
  : LineRenderData :=
  let name := or_default (match line with
                          | Some l => line_name l
                          | None => None
                          end) UNKNOWN in
  let text := or_default (match line with
                          | Some l => line_text l
                          | None => None
                          end) [] in
  let characterText := newText (name ++ [COLON]) (charTextStyle styles) in
  let parts := parseLine text in
  let partObjects := flat_map (createPartObject styles emojiTextures) parts in
  mkLineData (mkContainer 0 0 None) parts characterText partObjects None.

Definition numberOr (d : Q) (v : option Q) : Q :=
  match v with Some n => n | None => d end.

Definition getLineHeight (styles : DialogueStyles) : Q :=
  let textFontSize := numberOr 16 (fontSize (textStyle styles)) in
  let charFontSize := numberOr 16 (fontSize (charTextStyle styles)) in
  Qmax3 textFontSize charFontSize (emojiSize styles).

Definition speakerColors : list N :=
  [3447003; 3066993; 15158332; 15965202; 10181046; 1752220]%N.

(** [nameHash += speakerName.charCodeAt(i)] over the whole name. *)
Definition nameHash (speakerName : jsstring) : N :=
  fold_left N.add speakerName 0%N.

Definition alignRight (speakerName : jsstring) : bool :=
  N.eqb (nameHash speakerName mod 2) 0.

Definition colorIndexOf (speakerName : jsstring) : N :=
  (nameHash speakerName mod N.of_nat (length speakerColors))%N.

(** The first loop over the parts: scale every object, whiten the text,
    collect the sprites for the left column. *)
Fixpoint scaleParts (sf : Q) (leftMode : bool) (styles : DialogueStyles)
  (ps : list DialoguePart) (objs : list PartObject)
  : list PartObject * DialogueStyles * list Sprite :=
  match ps, objs with
  | p :: ps', o :: objs' =>
      match o with
      | TextObject t =>
          let st := set_fill WHITE (Text_style t) in
          let t' := mkText (Text_text t) st sf (Text_visible t) in
          let '(os, styles', lefts) :=
            scaleParts sf leftMode (writeBack (type p) st styles) ps' objs' in
          (TextObject t' :: os, styles', lefts)
      | SpriteObject s =>
          let targetSize := emojiSize styles * sf in
          let s' := mkSprite (Sprite_texture s) targetSize targetSize
                             (0, 1 # 2) (Sprite_visible s) in
          let '(os, styles', lefts) :=
            scaleParts sf leftMode styles ps' objs' in
          (SpriteObject s' :: os, styles',
           if leftMode then s' :: lefts else lefts)
      end
  | _, _ => (objs, styles, [])
  end.

(** The running position of the word wrap. *)
Record Flow := mkFlow {
  currentX : Q;
  currentY : Q;
  lineWidth : Q;
  placed : list Placed
}.

Section WithPlatform.
Context {pf : Platform}.

(** One word of a text part. *)
Definition placeWord (sf maxContentWidth bubblePadding currentLineHeight : Q)
  (style : TextStyle) (f : Flow) (word : jsstring) : Flow :=
  let wordWidth := sf * textWidth style word in
  let f1 :=
    if Qltb maxContentWidth (currentX f + wordWidth)
       && Qltb bubblePadding (currentX f)
    then mkFlow bubblePadding (currentY f + (currentLineHeight + 2 * sf))
                (lineWidth f) (placed f)
    else f in
  let wordText := mkPlaced (WordText word) (currentX f1) (currentY f1)
                           wordWidth in
  let x' := currentX f1 + (wordWidth + 5 * sf) in
  mkFlow x' (currentY f1) (Qmax (lineWidth f1) x') (placed f1 ++ [wordText]).

(** [partObject.width]: the width last assigned to a sprite, the
    measured width of its text, scaled, for a [Text]. *)
Definition objectWidth (o : PartObject) : Q :=
  match o with
  | TextObject t => Text_scale t * textWidth (Text_style t) (Text_text t)
  | SpriteObject s => Sprite_width s
  end.

(** An emoji object of width [width] placed in line with the text. *)
Definition placeEmoji (sf maxContentWidth bubblePadding currentLineHeight : Q)
  (index : nat) (width : Q) (f : Flow) : Flow :=
  let f1 :=
    if Qltb maxContentWidth (currentX f + width)
       && Qltb bubblePadding (currentX f)
    then mkFlow bubblePadding (currentY f + (currentLineHeight + 2 * sf))
                (lineWidth f) (placed f)
    else f in
  let sprite := mkPlaced (EmojiSprite index) (currentX f1)
                         (currentY f1 + currentLineHeight / 2)
                         width in
  let x' := currentX f1 + (width + 5 * sf) in
  mkFlow x' (currentY f1) (Qmax (lineWidth f1) x') (placed f1 ++ [sprite]).

Definition SPACE : N := 32.

(** The second loop over the parts: word wrap inside the bubble.  The
    test [partObject instanceof Sprite] of the emoji branch holds for
    every part object, a [Text] being a [Sprite]: the fallback text of
    an emoji without a texture is placed in line like a sprite. *)
Fixpoint layoutParts (sf maxContentWidth bubblePadding currentLineHeight : Q)
  (leftMode : bool) (index : nat) (ps : list DialoguePart)
  (objs : list PartObject) (f : Flow) : Flow :=
  match ps, objs with
  | p :: ps', o :: objs' =>
      let f' :=
        match type p, o with
        | text, TextObject t =>
            fold_left
              (placeWord sf maxContentWidth bubblePadding currentLineHeight
                         (Text_style t))
              (split_on SPACE (content p)) f
        | emoji, _ =>
            if leftMode then f
            else placeEmoji sf maxContentWidth bubblePadding
                            currentLineHeight index (objectWidth o) f
        | _, _ => f
        end in
      layoutParts sf maxContentWidth bubblePadding currentLineHeight leftMode
                  (S index) ps' objs' f'
  | _, _ => f
  end.

(** The emoji column to the left of a left-aligned bubble. *)
Fixpoint stackEmojis (sf emojiY : Q) (leftEmojis : list Sprite)
  : list (Q * Q * Q) :=
  match leftEmojis with
  | [] => []
  | e :: es =>
      (emojiY, Sprite_width e, Sprite_height e)
        :: stackEmojis sf (emojiY + (Sprite_height e + 5 * sf)) es
  end.

Definition isLeft (p : option EmojiPosition) : bool :=
  match p with Some EmojiLeft => true | _ => false end.

Definition nonEmpty {A} (l : list A) : bool :=
  match l with [] => false | _ :: _ => true end.

(** [updateLineLayout]: the new line data, the configuration after the
    writes through shared styles, and the returned height. *)
Definition updateLineLayout (styles : DialogueStyles)
  (avatarTextures : TextureMap) (lineData : LineRenderData)
  (availableWidth : Q) : LineRenderData * DialogueStyles * Q :=
  let baseWidth := 800 in
  let scaleFactor := Qmin 1 (Qmax (8 # 10) (availableWidth / baseWidth)) in
  let shouldPositionEmojisLeft := isLeft (emojiPosition styles) in
  let bubbleWidth := Qmin (availableWidth * (8 # 10)) 500 in
  let bubblePadding := 15 * scaleFactor in
  let bubbleRadius := 10 * scaleFactor in
  let avatarSize := Types.avatarSize styles * scaleFactor in
  let speakerName := or_default (Types.speakerName lineData) UNKNOWN in
  let isRightAligned := alignRight speakerName in
  let colorIndex := colorIndexOf speakerName in
  let bubbleColor := nth (N.to_nat colorIndex) speakerColors 0%N in
  let avatar :=
    AvatarManager.getAvatar avatarTextures (Types.avatarSize styles)
                            speakerName in
  let charStyle :=
    set_fontWeight bold (set_fill WHITE (Text_style (characterText lineData))) in
  let characterText :=
    mkText (Text_text (characterText lineData)) charStyle scaleFactor
           (Text_visible (Types.characterText lineData)) in
  let styles1 := writeBackChar charStyle styles in
  let currentX := bubblePadding in
  let currentY :=
    scaleFactor * textHeight charStyle (Text_text characterText)
    + 5 * scaleFactor in
  let currentLineHeight := getLineHeight styles1 * scaleFactor in
  let '(partObjects, styles2, leftEmojis) :=
    scaleParts scaleFactor shouldPositionEmojisLeft styles1
               (parts lineData) (Types.partObjects lineData) in
  let maxContentWidth := bubbleWidth - bubblePadding * 2 in
  let flow :=
    layoutParts scaleFactor maxContentWidth bubblePadding currentLineHeight
                shouldPositionEmojisLeft 0 (parts lineData) partObjects
                (mkFlow currentX currentY 0 []) in
  let totalContentWidth := Qmin (lineWidth flow) maxContentWidth in
  let totalContentHeight :=
    DialogueLineManager.currentY flow + currentLineHeight + bubblePadding in
  let avatarOffset :=
    match avatar with
    | Some _ => avatarSize + 10 * scaleFactor
    | None => 0
    end in
  let emojiOffset :=
    if shouldPositionEmojisLeft && nonEmpty leftEmojis
    then emojiSize styles2 * scaleFactor + 10 else 0 in
  let rectWidth := totalContentWidth + bubblePadding * 2 in
  let avatarAt :=
    match avatar with
    | Some a => Some (5 * scaleFactor, totalContentHeight / 2 - avatarSize / 2,
                      Sprite_width a)
    | None => None
    end in
  let geometry :=
    if isRightAligned then
      mkGeometry scaleFactor true colorIndex bubbleColor (placed flow)
        (rectWidth, totalContentHeight) bubbleRadius
        [(rectWidth, totalContentHeight - 15 * scaleFactor);
         (rectWidth + 10 * scaleFactor, totalContentHeight);
         (rectWidth, totalContentHeight)]
        (availableWidth - (rectWidth + 15 * scaleFactor))
        (bubblePadding, bubblePadding) avatarAt None
    else
      mkGeometry scaleFactor false colorIndex bubbleColor (placed flow)
        (rectWidth, totalContentHeight) bubbleRadius
        [(0, totalContentHeight - 15 * scaleFactor);
         (- (10 * scaleFactor), totalContentHeight);
         (0, totalContentHeight)]
        (15 * scaleFactor + avatarOffset + emojiOffset)
        (bubblePadding, bubblePadding) avatarAt
        (if shouldPositionEmojisLeft && nonEmpty leftEmojis
         then Some (avatarOffset + 5 * scaleFactor, bubblePadding,
                    stackEmojis scaleFactor bubblePadding leftEmojis)
         else None) in
  let finalHeight := totalContentHeight + 15 * scaleFactor in
  (mkLineData
     (mkContainer (container_y (container lineData)) finalHeight
                  (Some geometry))
     (parts lineData) characterText partObjects (Types.speakerName lineData),
   styles2, finalHeight).

(** [createDialogueLine]: the objects, then [lineData.speakerName =
    line.name], which throws on a line that is [null] or [undefined],
    then the layout. *)
Definition createDialogueLine (styles : DialogueStyles)
  (emojiTextures avatarTextures : TextureMap) (line : option DialogueLine)
  (availableWidth : Q) : Completion (LineRenderData * DialogueStyles) :=
  let lineData := createLineObjects styles emojiTextures line in
  match line with
  | None =>
      Throws (of_string "TypeError: Cannot read properties of undefined")
  | Some l =>
      let lineData := set_speakerName (line_name l) lineData in
      let '(lineData, styles', _) :=
        updateLineLayout styles avatarTextures lineData availableWidth in
      Normal (lineData, styles')
  end.

End WithPlatform.

Definition setVisible (b : bool) (o : PartObject) : PartObject :=
  match o with
  | TextObject t =>
      TextObject (mkText (Text_text t) (Text_style t) (Text_scale t) b)
  | SpriteObject s =>
      SpriteObject (mkSprite (Sprite_texture s) (Sprite_width s)
                             (Sprite_height s) (Sprite_anchor s) b)
  end.

(** [if (object instanceof Text) object.text = s]. *)
Definition setTextIfText (s : jsstring) (o : PartObject) : PartObject :=
  match o with
  | TextObject t =>
      TextObject (mkText s (Text_style t) (Text_scale t) (Text_visible t))
  | SpriteObject _ => o
  end.

(** The body of the loop of [updateLineVisibility] for one part. *)
Definition revealPart (partIndex charIndex index : nat) (part : DialoguePart)
  (object : PartObject) : PartObject :=
  if Nat.ltb index partIndex then
    setTextIfText (content part) (setVisible true object)
  else if Nat.eqb index partIndex then
    match type part with
    | text =>
        setTextIfText (substring0 charIndex (content part))
                      (setVisible true object)
    | emoji => setVisible (Nat.ltb 0 charIndex) object
    | _ => setVisible false object
    end
  else setVisible false object.

Fixpoint revealParts (partIndex charIndex index : nat)
  (ps : list DialoguePart) (objs : list PartObject) : list PartObject :=
  match ps, objs with
  | p :: ps', o :: objs' =>
      revealPart partIndex charIndex index p o
        :: revealParts partIndex charIndex (S index) ps' objs'
  | _, _ => objs
  end.

Definition updateLineVisibility (lineData : LineRenderData)
  (partIndex charIndex : nat) : LineRenderData :=
  let ct := characterText lineData in
  mkLineData (container lineData) (parts lineData)
    (mkText (Text_text ct) (Text_style ct) (Text_scale ct) true)
    (revealParts partIndex charIndex 0 (parts lineData)
                 (partObjects lineData))
    (speakerName lineData).

End DialogueLineManager.

(* ===================================================================== *)
(** ** magic-words/DialogueManager.ts *)
(* ===================================================================== *)

Module DialogueManager.

Import Parser DialogueLineManager.

(** The fields of the class.  [appScreen] is [app.screen]; the mask is
    the rectangle last drawn into [dialogueMask]; [dialogue] is
    [dialogueData.dialogue]. *)
Record DialogueManager := mkManager {
  appScreen : Q * Q;
  dialogue : list DialogueLine;
  styles : DialogueStyles;
  emojiTextures : TextureMap;
  avatarTextures : TextureMap;
  dialogueMask : Q * Q * Q * Q;
  dialogueContainer : Q * Q;
  scrollManager : Scroll.ScrollManager;
  linesData : list LineRenderData;
  currentLineIndex : nat;
  currentPartIndex : nat;
  currentCharacterIndex : nat;
  lineRevealAccumulator : Double.number;
  isTypingComplete : bool
}.

(** [dialogueMask.height]: the height of the bounds of the graphics.  A
    rectangle drawn with a negative width or a negative height leaves
    the bounds empty, and the height of empty bounds is 0. *)
Definition maskHeight (m : DialogueManager) : Q :=
  let '(_, _, width, height) := dialogueMask m in
  if Qle_bool 0 width && Qle_bool 0 height then height else 0.

Definition set_scroll (s : Scroll.ScrollManager) (m : DialogueManager) :=
  mkManager (appScreen m) (dialogue m) (styles m) (emojiTextures m)
    (avatarTextures m) (dialogueMask m) (dialogueContainer m) s
    (linesData m) (currentLineIndex m) (currentPartIndex m)
    (currentCharacterIndex m) (lineRevealAccumulator m) (isTypingComplete m).

Definition set_container_pos (p : Q * Q) (m : DialogueManager) :=
  mkManager (appScreen m) (dialogue m) (styles m) (emojiTextures m)
    (avatarTextures m) (dialogueMask m) p (scrollManager m)
    (linesData m) (currentLineIndex m) (currentPartIndex m)
    (currentCharacterIndex m) (lineRevealAccumulator m) (isTypingComplete m).

Definition set_mask (r : Q * Q * Q * Q) (m : DialogueManager) :=
  mkManager (appScreen m) (dialogue m) (styles m) (emojiTextures m)
    (avatarTextures m) r (dialogueContainer m) (scrollManager m)
    (linesData m) (currentLineIndex m) (currentPartIndex m)
    (currentCharacterIndex m) (lineRevealAccumulator m) (isTypingComplete m).

Definition set_lines (st : DialogueStyles) (l : list LineRenderData)
  (m : DialogueManager) :=
  mkManager (appScreen m) (dialogue m) st (emojiTextures m)
    (avatarTextures m) (dialogueMask m) (dialogueContainer m)
    (scrollManager m) l (currentLineIndex m) (currentPartIndex m)
    (currentCharacterIndex m) (lineRevealAccumulator m) (isTypingComplete m).

Definition set_dialogue (d : list DialogueLine) (m : DialogueManager) :=
  mkManager (appScreen m) d (styles m) (emojiTextures m)
    (avatarTextures m) (dialogueMask m) (dialogueContainer m)
    (scrollManager m) (linesData m) (currentLineIndex m)
    (currentPartIndex m) (currentCharacterIndex m)
    (lineRevealAccumulator m) (isTypingComplete m).

Definition set_cursor (li pi ci : nat) (m : DialogueManager) :=
  mkManager (appScreen m) (dialogue m) (styles m) (emojiTextures m)
    (avatarTextures m) (dialogueMask m) (dialogueContainer m)
    (scrollManager m) (linesData m) li pi ci
    (lineRevealAccumulator m) (isTypingComplete m).

Definition set_accumulator (a : Double.number) (m : DialogueManager) :=
  mkManager (appScreen m) (dialogue m) (styles m) (emojiTextures m)
    (avatarTextures m) (dialogueMask m) (dialogueContainer m)
    (scrollManager m) (linesData m) (currentLineIndex m)
    (currentPartIndex m) (currentCharacterIndex m) a (isTypingComplete m).

Definition set_complete (b : bool) (m : DialogueManager) :=
  mkManager (appScreen m) (dialogue m) (styles m) (emojiTextures m)
    (avatarTextures m) (dialogueMask m) (dialogueContainer m)
    (scrollManager m) (linesData m) (currentLineIndex m)
    (currentPartIndex m) (currentCharacterIndex m)
    (lineRevealAccumulator m) b.

(** [list[idx] = v], for an index inside the list. *)
Fixpoint replaceAt {A} (idx : nat) (v : A) (l : list A) : list A :=
  match l, idx with
  | [], _ => []
  | _ :: r, O => v :: r
  | a :: r, S i => a :: replaceAt i v r
  end.

(** A line object is shared between [linesData] and the caller's
    variable; a visibility update through either is one in the list. *)
Definition showLine (idx partIndex charIndex : nat) (m : DialogueManager) :=
  match nth_error (linesData m) idx with
  | Some l =>
      set_lines (styles m)
        (replaceAt idx (updateLineVisibility l partIndex charIndex)
                   (linesData m)) m
  | None => m
  end.

Definition updateMask (width height : Q) (m : DialogueManager)
  : DialogueManager :=
  let padding := dialoguePadding (styles m) in
  let responsivePadding :=
    Qmax padding (Qmin (width * (8 # 100)) (height * (8 # 100))) in
  set_container_pos (responsivePadding, responsivePadding)
    (set_mask (responsivePadding, responsivePadding,
               width - responsivePadding * 2,
               height - responsivePadding * 2) m).

Definition advanceTyping (m : DialogueManager) : DialogueManager :=
  if isTypingComplete m then m
  else
    match nth_error (linesData m) (currentLineIndex m) with
    | None => set_complete true m
    | Some currentLine =>
        match nth_error (parts currentLine) (currentPartIndex m) with
        | None =>
            let m1 := set_cursor (S (currentLineIndex m)) 0 0 m in
            if Nat.leb (length (linesData m1)) (currentLineIndex m1)
            then set_complete true m1
            else showLine (currentLineIndex m1) (currentPartIndex m1)
                          (currentCharacterIndex m1) m1
        | Some currentPart =>
            let m1 :=
              match type currentPart with
              | text =>
                  let c := S (currentCharacterIndex m) in
                  if Nat.ltb (length (content currentPart)) c
                  then set_cursor (currentLineIndex m)
                                  (S (currentPartIndex m)) 0 m
                  else set_cursor (currentLineIndex m)
                                  (currentPartIndex m) c m
              | emoji =>
                  set_cursor (currentLineIndex m) (S (currentPartIndex m)) 1 m
              | _ => m
              end in
            let m2 := showLine (currentLineIndex m1) (currentPartIndex m1)
                               (currentCharacterIndex m1) m1 in
            if Nat.leb (length (parts currentLine)) (currentPartIndex m2)
            then
              let m3 := set_cursor (S (currentLineIndex m2)) 0 0 m2 in
              if Nat.leb (length (linesData m3)) (currentLineIndex m3)
              then set_complete true m3
              else m3
            else m2
        end
    end.

(** [1000 / this.styles.typingSpeed]. *)
Definition charRevealTime (m : DialogueManager) : Double.number :=
  Double.div (Double.ofZ 1000) (typingSpeed (styles m)).

(** [while (acc >= charRevealTime) { acc -= charRevealTime; advanceTyping() }].
    [None] when the given number of iterations does not finish the loop. *)
Fixpoint typingLoop (fuel : nat) (crt : Double.number) (m : DialogueManager)
  : option DialogueManager :=
  if Double.geb (lineRevealAccumulator m) crt then
    match fuel with
    | O => None
    | S fuel' =>
        typingLoop fuel' crt
          (advanceTyping
             (set_accumulator (Double.sub (lineRevealAccumulator m) crt) m))
    end
  else Some m.

(** [scrollManager.updateScroll], which also moves the container. *)
Definition tickScroll {A : Type} (deltaMS : A) (m : DialogueManager)
  : DialogueManager :=
  let s := Scroll.updateScroll deltaMS (scrollManager m) in
  set_container_pos (fst (dialogueContainer m), Scroll.currentScrollY s)
                    (set_scroll s m).

Definition update (fuel : nat) (deltaMS : Double.number) (m : DialogueManager)
  : option DialogueManager :=
  if isTypingComplete m then Some (tickScroll deltaMS m)
  else
    let m1 :=
      set_accumulator (Double.add (lineRevealAccumulator m) deltaMS) m in
    match typingLoop fuel (charRevealTime m1) m1 with
    | None => None
    | Some m2 =>
        let m3 := tickScroll deltaMS m2 in
        Some (if negb (isTypingComplete m3)
              then set_scroll
                     (Scroll.scrollToBottom (maskHeight m3) (scrollManager m3))
                     m3
              else m3)
    end.

Section WithPlatform.
Context {pf : Platform}.

(** The loop of [initializeDialogue]. *)
Fixpoint buildLines (emojiT avatarT : TextureMap) (availableWidth : Q)
  (lines : list DialogueLine) (st : DialogueStyles) (currentY : Q)
  (acc : list LineRenderData)
  : Completion (list LineRenderData * DialogueStyles * Q) :=
  match lines with
  | [] => Normal (acc, st, currentY)
  | line :: rest =>
      match createDialogueLine st emojiT avatarT (Some line) availableWidth with
      | Throws e => Throws e
      | Normal (lineData, st') =>
          let lineData := set_container_y currentY lineData in
          let currentY' :=
            currentY + (container_height (container lineData)
                        + lineSpacing st') in
          buildLines emojiT avatarT availableWidth rest st' currentY'
                     (acc ++ [updateLineVisibility lineData 0 0])
      end
  end.

Definition initializeDialogue (m : DialogueManager)
  : Completion DialogueManager :=
  match buildLines (emojiTextures m) (avatarTextures m)
          (fst (appScreen m) - dialoguePadding (styles m) * 2)
          (dialogue m) (styles m) 0 (linesData m) with
  | Throws e => Throws e
  | Normal (lines, st, currentY) =>
      let m1 := set_lines st lines m in
      Normal (set_scroll
                (Scroll.updateContentHeight (maskHeight m1) currentY
                                            (scrollManager m1)) m1)
  end.

(** The constructor. *)
Definition construct (appScreen : Q * Q) (dialogue : list DialogueLine)
  (emojiT avatarT : TextureMap) (st : DialogueStyles)
  : Completion DialogueManager :=
  let m := mkManager appScreen dialogue st emojiT avatarT (0, 0, 0, 0) (0, 0)
                     Scroll.create [] 0 0 0 Double.zero false in
  initializeDialogue (updateMask (fst appScreen) (snd appScreen) m).

(** The loop of [resize] over the indices of [linesData]. *)
Fixpoint relayoutLines (m : DialogueManager) (availableWidth spacing : Q)
  (idx : nat) (old : list LineRenderData) (st : DialogueStyles)
  (currentY : Q) (acc : list LineRenderData)
  : Completion (list LineRenderData * DialogueStyles * Q) :=
  match old with
  | [] => Normal (acc, st, currentY)
  | _ :: rest =>
      match createDialogueLine st (emojiTextures m) (avatarTextures m)
              (nth_error (dialogue m) idx) availableWidth with
      | Throws e => Throws e
      | Normal (newLineData, st') =>
          let newLineData := set_container_y currentY newLineData in
          let currentY' :=
            currentY + (container_height (container newLineData) + spacing) in
          let shown :=
            if Nat.ltb idx (currentLineIndex m) then
              updateLineVisibility newLineData
                (length (parts newLineData)) 0
            else if Nat.eqb idx (currentLineIndex m) then
              updateLineVisibility newLineData (currentPartIndex m)
                (currentCharacterIndex m)
            else updateLineVisibility newLineData 0 0 in
          relayoutLines m availableWidth spacing (S idx) rest st' currentY'
                        (acc ++ [shown])
      end
  end.

Definition resize (width height : Q) (m : DialogueManager)
  : Completion DialogueManager :=
  let m1 := updateMask width height m in
  let baseWidth := 800 in
  let scaleFactor := Qmin 1 (Qmax (8 # 10) (width / baseWidth)) in
  let responsiveLineSpacing := lineSpacing (styles m1) * scaleFactor in
  let availableWidth := width - dialoguePadding (styles m1) * 2 in
  match relayoutLines m1 availableWidth responsiveLineSpacing 0
          (linesData m1) (styles m1) 0 [] with
  | Throws e => Throws e
  | Normal (lines, st, currentY) =>
      let m2 := set_lines st lines m1 in
      let m3 := set_scroll
                  (Scroll.updateContentHeight (maskHeight m2) currentY
                                              (scrollManager m2)) m2 in
      Normal
        (if negb (isTypingComplete m3)
            && Nat.ltb (currentLineIndex m3) (length (linesData m3))
         then
           let currentLineY :=
             match nth_error (linesData m3) (currentLineIndex m3) with
             | Some l => container_y (container l)
             | None => 0
             end in
           set_scroll
             (Scroll.scrollToPosition (maskHeight m3) currentLineY
                                      (scrollManager m3)) m3
         else m3)
  end.

Definition forceScrollToBottom (m : DialogueManager) : DialogueManager :=
  set_scroll (Scroll.forceScrollToBottom (maskHeight m) (scrollManager m)) m.

(** [appendMessage(line)] for a line record; the initialisation guard at
    its head always passes on a constructed manager. *)
Definition appendMessage (line : DialogueLine) (m : DialogueManager)
  : Completion DialogueManager :=
  let currentY :=
    match last (map Some (linesData m)) None with
    | Some lastLine =>
        container_y (container lastLine)
        + container_height (container lastLine)
        + lineSpacing (styles m)
    | None => 0
    end in
  let availableWidth := fst (appScreen m) - dialoguePadding (styles m) * 2 in
  match createDialogueLine (styles m) (emojiTextures m) (avatarTextures m)
          (Some line) availableWidth with
  | Throws e => Throws e
  | Normal (newLineData, st) =>
      let newLineData := set_container_y currentY newLineData in
      let m1 := set_lines st (linesData m ++ [newLineData]) m in
      let m2 := set_dialogue (dialogue m1 ++ [line]) m1 in
      let m3 := showLine (length (linesData m2) - 1) 0 0 m2 in
      let totalHeight :=
        currentY + container_height (container newLineData) in
      let m4 := set_scroll
                  (Scroll.updateContentHeight (maskHeight m3) totalHeight
                                              (scrollManager m3)) m3 in
      let m5 :=
        if isTypingComplete m4
        then set_accumulator Double.zero (set_complete false m4)
        else m4 in
      let m6 := set_cursor (length (linesData m5) - 1) 0 0 m5 in
      Normal (forceScrollToBottom m6)
  end.

End WithPlatform.

End DialogueManager.

(* ===================================================================== *)
(** ** The second copy of DialogueLineManager.ts: hard breaks *)
(* ===================================================================== *)

(** The repository holds a second copy of the line manager whose word
    wrap breaks a word that is too wide for a line.  Its treatment of a
    text word is modelled here, next to [DialogueLineManager.placeWord]. *)
Module HardBreak.

Import Parser DialogueLineManager.

Definition SAFETY_MARGIN : Q := 2.

Section WithPlatform.
Context {pf : Platform}.

Definition bubbleWidth (availableWidth : Q) : Q :=
  Qmin (availableWidth * (75 # 100)) 450.

Definition maxContentWidth (availableWidth bubblePadding : Q) : Q :=
  Qmax (bubbleWidth availableWidth - bubblePadding * 2) 200.

(** [for (charsFit = 1; charsFit <= remainingWord.length; charsFit++)]
    with its [break]; [iterations] counts the rounds that are left. *)
Fixpoint findCharsFit (sf maxW : Q) (style : TextStyle)
  (remainingWord : jsstring) (charsFit iterations : nat) : nat :=
  match iterations with
  | O => charsFit
  | S n =>
      if Qltb maxW (sf * textWidth style (firstn charsFit remainingWord)
                    + SAFETY_MARGIN)
      then Nat.max 1 (charsFit - 1)
      else findCharsFit sf maxW style remainingWord (S charsFit) n
  end.

Lemma findCharsFit_pos sf maxW style w k n :
  (1 <= k)%nat -> (1 <= findCharsFit sf maxW style w k n)%nat.
Proof.
  revert k. induction n as [|n IH]; intros k Hk; cbn [findCharsFit];
    [exact Hk|].
  destruct (Qltb _ _); [apply Nat.le_max_l|]. apply IH. lia.
Qed.

(** One round of [while (remainingWord.length > 0)]. *)
Definition placeSegment (sf maxW bubblePadding currentLineHeight : Q)
  (style : TextStyle) (remainingWord : jsstring) (f : Flow)
  : jsstring * Flow :=
  let charsFit :=
    findCharsFit sf maxW style remainingWord 1 (length remainingWord) in
  let segment := firstn charsFit remainingWord in
  let segmentWidth := sf * textWidth style segment in
  let f1 :=
    if Qltb bubblePadding (currentX f)
       && Qltb maxW (currentX f + segmentWidth + SAFETY_MARGIN)
    then mkFlow bubblePadding (currentY f + (currentLineHeight + 2 * sf))
                (lineWidth f) (placed f)
    else f in
  let segmentText := mkPlaced (WordText segment) (currentX f1) (currentY f1)
                              segmentWidth in
  let rest := skipn charsFit remainingWord in
  let f2 :=
    if nonEmpty rest
    then mkFlow bubblePadding (currentY f1 + (currentLineHeight + 2 * sf))
                (lineWidth f1) (placed f1 ++ [segmentText])
    else mkFlow (currentX f1 + segmentWidth) (currentY f1)
                (lineWidth f1) (placed f1 ++ [segmentText]) in
  (rest,
   mkFlow (currentX f2) (currentY f2) (Qmax (lineWidth f2) (currentX f2))
          (placed f2)).

Equations? breakWord (sf maxW bubblePadding currentLineHeight : Q)
  (style : TextStyle) (remainingWord : jsstring) (f : Flow)
  : Flow by wf (length remainingWord) lt :=
  breakWord sf maxW bubblePadding currentLineHeight style [] f := f;
  breakWord sf maxW bubblePadding currentLineHeight style (c :: r) f :=
    breakWord sf maxW bubblePadding currentLineHeight style
      (fst (placeSegment sf maxW bubblePadding currentLineHeight style
                         (c :: r) f))
      (snd (placeSegment sf maxW bubblePadding currentLineHeight style
                         (c :: r) f)).
Proof.
  pose proof (@findCharsFit_pos sf maxW style (c :: r) 1 (S (length r))
                (le_n 1)) as H.
  cbn [placeSegment fst].
  rewrite length_skipn. cbn [length findCharsFit] in *.
  destruct (Qltb maxW _).
  - lia.
  - clear breakWord. lia.
Qed.

(** One word of a text part in the second copy. *)
Definition placeWord (sf maxW bubblePadding currentLineHeight : Q)
  (style : TextStyle) (f : Flow) (word : jsstring) : Flow :=
  let spaceWidth := 5 * sf in
  let wordWidth := sf * textWidth style word in
  if Qltb maxW (wordWidth + SAFETY_MARGIN) && Nat.ltb 10 (length word)
  then breakWord sf maxW bubblePadding currentLineHeight style word f
  else
    let f1 :=
      if Qltb bubblePadding (currentX f)
         && Qltb maxW (currentX f + wordWidth + SAFETY_MARGIN)
      then mkFlow bubblePadding (currentY f + (currentLineHeight + 2 * sf))
                  (lineWidth f) (placed f)
      else f in
    let wordText := mkPlaced (WordText word) (currentX f1) (currentY f1)
                             wordWidth in
    let x' := currentX f1 + (wordWidth + spaceWidth) in
    mkFlow x' (currentY f1) (Qmax (lineWidth f1) (x' - spaceWidth))
           (placed f1 ++ [wordText]).

End WithPlatform.

End HardBreak.

(* ===================================================================== *)
(** ** utils/ObjectPool.ts *)
(* ===================================================================== *)

Module ObjectPool.

Import DialogueLineManager.

Section Pool.

(** The objects of the pool, the state that the factory works on (the
    renderer, the texture cache), the factory and the reset function of
    the constructor.  Either function may throw. *)
Variable T : Type.
Variable World : Type.
Variable factory : World -> Completion (T * World).
Variable resetFn : T -> Completion T.

(** The array of inactive objects, in array order, and the size limit. *)
Record ObjectPool := mkPool {
  pool : list T;
  maximumSize : Q
}.

(** The pre-population loop of the constructor, which stops at the
    first factory call that throws. *)
Fixpoint populate (rounds : nat) (w : World) (acc : list T)
  : list T * World :=
  match rounds with
  | O => (acc, w)
  | S n =>
      match factory w with
      | Normal (obj, w') => populate n w' (acc ++ [obj])
      | Throws _ => (acc, w)
      end
  end.

(** [for (let i = 0; i < a; i++)] runs [ceil(a)] times for [a > 0] and
    not at all otherwise. *)
Definition roundsBelow (a : Q) : nat := Z.to_nat (Qceiling a).

Definition construct (initialSize maxSize : Q) (w : World)
  : ObjectPool * World :=
  let maximumSize := Qmax 0 maxSize in
  let actualInitialSize := Qmin initialSize maximumSize in
  let (objs, w') := populate (roundsBelow actualInitialSize) w [] in
  (mkPool objs maximumSize, w').

(** The defaults of the optional parameters. *)
Definition defaultInitialSize : Q := 0.
Definition defaultMaxSize : Q := 1000.

(** [get()]: the last object of the array, or a new one. *)
Definition get (p : ObjectPool) (w : World)
  : Completion (T * ObjectPool * World) :=
  match rev (pool p) with
  | obj :: rest => Normal (obj, mkPool (rev rest) (maximumSize p), w)
  | [] =>
      match factory w with
      | Normal (obj, w') => Normal (obj, p, w')
      | Throws e => Throws e
      end
  end.

(** [release(obj)]: reset and push, unless the pool is full or the reset
    throws. *)
Definition release (obj : T) (p : ObjectPool) : ObjectPool :=
  if Qltb (inject_Z (Z.of_nat (length (pool p)))) (maximumSize p) then
    match resetFn obj with
    | Normal obj' => mkPool (pool p ++ [obj']) (maximumSize p)
    | Throws _ => p
    end
  else p.

Definition releaseMany (objs : list T) (p : ObjectPool) : ObjectPool :=
  fold_left (fun p obj => release obj p) objs p.

Definition currentSize (p : ObjectPool) : nat := length (pool p).

Definition clear (p : ObjectPool) : ObjectPool := mkPool [] (maximumSize p).

(** What a client can do with a pool. *)
Inductive Call :=
| Get
| Release (obj : T)
| ReleaseMany (objs : list T)
| Clear.

Definition call (c : Call) (pw : ObjectPool * World) : ObjectPool * World :=
  match c with
  | Get =>
      match get (fst pw) (snd pw) with
      | Normal (_, p', w') => (p', w')
      | Throws _ => pw
      end
  | Release obj => (release obj (fst pw), snd pw)
  | ReleaseMany objs => (releaseMany objs (fst pw), snd pw)
  | Clear => (clear (fst pw), snd pw)
  end.

Inductive Reachable : ObjectPool * World -> Prop :=
| reach_construct : forall initialSize maxSize w,
    Reachable (construct initialSize maxSize w)
| reach_call : forall c pw, Reachable pw -> Reachable (call c pw).

End Pool.

End ObjectPool.

(* ===================================================================== *)
(** ** scenes/MagicWordsScene.ts: feeding the dialogue *)
(* ===================================================================== *)

(** The scene that hosts the engine hands it the payload one message at
    a time.  Of the scene, the fields and statements that deal with the
    dialogue are modelled: the payload, the engine, the index of the
    message on show; the button, the loading text and the asset checks
    do not touch them. *)
Module MagicWordsScene.

Import DialogueLineManager DialogueManager.

Record Scene := mkScene {
  dialogueData : list DialogueLine;
  dialogueManager : DialogueManager;
  currentMessageIndex : nat
}.

Section WithPlatform.
Context {pf : Platform}.

(** [init]: the engine is constructed on
    [dialogue.length > 0 ? [dialogue[0]] : []]. *)
Definition init (appScreen : Q * Q) (data : list DialogueLine)
  (emojiT avatarT : TextureMap) (st : DialogueStyles) : Completion Scene :=
  let initialDialogue :=
    match data with
    | first :: _ => [first]
    | [] => []
    end in
  match construct appScreen initialDialogue emojiT avatarT st with
  | Throws e => Throws e
  | Normal m => Normal (mkScene data m 0)
  end.

(** [update(deltaMS)]: tick the engine, then, when it has typed all it
    has and [currentMessageIndex < dialogue.length - 1], move to the
    next message and append it.  [None] when the typing loop of the
    engine does not finish within [fuel] rounds. *)
Definition update (fuel : nat) (deltaMS : Double.number) (s : Scene)
  : option (Completion Scene) :=
  match DialogueManager.update fuel deltaMS (dialogueManager s) with
  | None => None
  | Some m =>
      if isTypingComplete m
         && Z.ltb (Z.of_nat (currentMessageIndex s))
                  (Z.of_nat (length (dialogueData s)) - 1)
      then
        let index := S (currentMessageIndex s) in
        match nth_error (dialogueData s) index with
        | Some nextMessage =>
            match appendMessage nextMessage m with
            | Throws e => Some (Throws e)
            | Normal m' => Some (Normal (mkScene (dialogueData s) m' index))
            end
        | None => Some (Normal (mkScene (dialogueData s) m index))
        end
      else Some (Normal (mkScene (dialogueData s) m (currentMessageIndex s)))
  end.

(** [resize(screenWidth, screenHeight)], as far as the engine goes. *)
Definition resize (screenWidth screenHeight : Q) (s : Scene)
  : Completion Scene :=
  match DialogueManager.resize screenWidth screenHeight (dialogueManager s) with
  | Throws e => Throws e
  | Normal m => Normal (mkScene (dialogueData s) m (currentMessageIndex s))
  end.

(** The states of a scene: after [init], and after every [update] and
    [resize] that returns. *)
Inductive Running : Scene -> Prop :=
| running_init : forall appScreen data emojiT avatarT st s,
    init appScreen data emojiT avatarT st = Normal s -> Running s
| running_update : forall fuel deltaMS s s',
    Running s -> update fuel deltaMS s = Some (Normal s') -> Running s'
| running_resize : forall w h s s',
    Running s -> resize w h s = Normal s' -> Running s'.

End WithPlatform.

End MagicWordsScene.

(* ===================================================================== *)
(** ** A concrete platform and configuration for worked examples *)
(* ===================================================================== *)

Module Sample.

Import Parser DialogueLineManager DialogueManager.

(** A fixed-pitch font: every code unit is [pitch] wide. *)
Definition fixedPitch (pitch : Q) : Platform :=
  {| textWidth := fun _ s => pitch * inject_Z (Z.of_nat (length s));
     textHeight := fun st _ => numberOr 16 (fontSize st);
     toLowerCase := fun s => s;
     toUpperCase := fun s => s |}.

Definition plain (size : Q) (color : N) (w : FontWeight) : TextStyle :=
  mkStyle (Some size) color w 0 false.

Definition sampleStyles (speed : Q) : DialogueStyles :=
  mkStyles (plain 24 16777215 normal) (plain 26 16768409 bold)
           (plain 24 11184810 normal) 20 40 20 8 15 (Double.ofQ speed)
           (Some EmojiInline).

Definition noTextures : TextureMap := fun _ => None.

Definition smileOnly : TextureMap :=
  fun n => if JS.eqb n (of_string "smile") then Some (Loaded 1) else None.

Definition says (who what : string) : DialogueLine :=
  mkLine (Some (of_string who)) (Some (of_string what)).

(** Two lines of plain text, typed at ten characters a second in a
    fixed-pitch font. *)
Definition twoLines : list DialogueLine := [says "A" "ab"; says "B" "cd"].

Definition opening : Completion DialogueManager :=
  @construct (fixedPitch 10) (830, 600) twoLines noTextures noTextures
             (sampleStyles 10).

(** The scene on [twoLines], typed at ten characters a second. *)
Definition twoLineScene : Completion MagicWordsScene.Scene :=
  @MagicWordsScene.init (fixedPitch 10) (830, 600) twoLines noTextures
                        noTextures (sampleStyles 10).

(** A pool of numbered objects: the factory hands out the next number,
    the reset doubles its object. *)
Definition counter (w : nat) : Completion (nat * nat) := Normal (w, S w).
Definition doubling (o : nat) : Completion nat := Normal (2 * o)%nat.

End Sample.

(* ===================================================================== *)
(** ** Vocabulary of the specification *)
(* ===================================================================== *)

(** The token grammar of the payload, stated on its own: a text is a
    sequence of pieces, each a stretch of plain text or a token
    [{name}], [:name:] or [[name]]. *)
Module Tokens.

Import Parser.

Inductive Delimiter := Braces | Colons | Brackets.

Definition opening (d : Delimiter) : N :=
  match d with Braces => LBRACE | Colons => COLON | Brackets => LBRACKET end.

Definition closing (d : Delimiter) : N :=
  match d with Braces => RBRACE | Colons => COLON | Brackets => RBRACKET end.

Inductive Piece :=
| Plain (s : jsstring)
| Token (d : Delimiter) (name : jsstring).

(** The characters a piece occupies in the text. *)
Definition source (p : Piece) : jsstring :=
  match p with
  | Plain s => s
  | Token d n => opening d :: n ++ [closing d]
  end.

(** The characters of a piece that are not part of a token. *)
Definition outside (p : Piece) : jsstring :=
  match p with
  | Plain s => s
  | Token _ _ => []
  end.

Definition wellFormed (p : Piece) : Prop :=
  match p with
  | Plain s => s <> []
  | Token d n => n <> [] /\ ~ In (closing d) n
  end.

(** No token lies inside [s]. *)
Definition tokenFree (s : jsstring) : Prop :=
  forall a d n b, wellFormed (Token d n) -> s <> a ++ source (Token d n) ++ b.

Definition plainTokenFree (p : Piece) : Prop :=
  match p with
  | Plain s => tokenFree s
  | Token _ _ => True
  end.

(** A token starts at the head of [s]. *)
Definition tokenAt (s : jsstring) : Prop :=
  exists d n b, wellFormed (Token d n) /\ s = source (Token d n) ++ b.

(** No token starts at any position of the stretch [s] when [rest] is
    the text that follows it. *)
Definition noTokenInside (s rest : jsstring) : Prop :=
  forall a b, s = a ++ b -> b <> [] -> ~ tokenAt (b ++ rest).

(** The pieces of a text as it is read from left to right, a token being
    taken wherever one starts: a plain stretch is not empty, no token
    starts at any of its positions, and it runs up to the next token or
    to the end of the text; a token is well formed. *)
Fixpoint leftmost (ps : list Piece) : Prop :=
  match ps with
  | [] => True
  | Plain s :: rest =>
      s <> [] /\ noTokenInside s (flat_map source rest)
      /\ match rest with Plain _ :: _ => False | _ => True end
      /\ leftmost rest
  | Token d n :: rest => wellFormed (Token d n) /\ leftmost rest
  end.

Definition segment (p : Piece) : DialoguePart :=
  match p with
  | Plain s => mkPart text s
  | Token _ n => mkPart emoji n
  end.

(** The contents of the text segments, concatenated in order. *)
Definition textOf (ps : list DialoguePart) : jsstring :=
  flat_map (fun p => match type p with text => content p | _ => [] end) ps.

End Tokens.

(** The state of the typing animation: what it has revealed in the part
    objects of the lines, and what the bubbles display. *)
Module Reveal.

Import Parser DialogueManager.

Definition objVisible (o : PartObject) : bool :=
  match o with
  | TextObject t => Text_visible t
  | SpriteObject s => Sprite_visible s
  end.

Definition objText (o : PartObject) : option jsstring :=
  match o with
  | TextObject t => Some (Text_text t)
  | SpriteObject _ => None
  end.

(** Whether a part object is flagged visible, and the text it carries
    if it is a [Text]. *)
Definition shown (o : PartObject) : bool * option jsstring :=
  (objVisible o, objText o).

(** The reveal state recorded in a line: the flag of its label, then its
    part objects in order. *)
Definition revealOf (l : LineRenderData)
  : bool * list (bool * option jsstring) :=
  (Text_visible (characterText l), map shown (partObjects l)).

(** The reveal units recorded in one part object: the characters that
    the [Text] of a text segment carries, one for the object of an
    emoji that is flagged visible. *)
Definition unitsOf (p : DialoguePart) (v : bool * option jsstring) : nat :=
  if fst v then
    match type p with
    | text => match snd v with Some t => length t | None => 0 end
    | _ => 1
    end
  else 0.

Fixpoint unitsIn (ps : list DialoguePart)
  (vs : list (bool * option jsstring)) : nat :=
  match ps, vs with
  | p :: ps', v :: vs' => unitsOf p v + unitsIn ps' vs'
  | _, _ => 0
  end.

Definition lineUnits (l : LineRenderData) : nat :=
  unitsIn (parts l) (map shown (partObjects l)).

Definition revealedUnits (m : DialogueManager) : nat :=
  list_sum (map lineUnits (linesData m)).

(** The above is the reveal that [updateLineVisibility] records in the
    part objects of a line.  What a bubble has on screen is another
    matter: [updateLineLayout] empties the container of the line and
    fills the bubble anew with the label, a new [Text] for every word
    of every text part and, when emojis are in line, the object of
    every emoji part.  The [Text] objects of the text parts, which carry
    the text typed so far, are not put back into the scene.  A word
    node is visible from the moment it is made; an emoji object in the
    bubble is displayed when its [visible] flag is set.  With emojis in
    the left column the emoji objects are in no container: the column
    of a left-aligned line holds copies of its sprites, a right-aligned
    line has no column. *)
Definition bubbleNodes (l : LineRenderData) : list Placed :=
  match layout (container l) with
  | Some g => placedNodes g
  | None => []
  end.

(** The words that a bubble displays. *)
Definition nodeWords (n : PlacedNode) : list jsstring :=
  match n with
  | WordText w => [w]
  | EmojiSprite _ => []
  end.

Definition bubbleWords (l : LineRenderData) : list jsstring :=
  flat_map nodeWords (map node (bubbleNodes l)).

(** Whether a node of the bubble is displayed. *)
Definition nodeVisible (l : LineRenderData) (p : Placed) : bool :=
  match node p with
  | WordText _ => true
  | EmojiSprite index =>
      match nth_error (partObjects l) index with
      | Some o => objVisible o
      | None => false
      end
  end.

(** The characters that a bubble displays, an emoji object that is
    visible counting as one. *)
Definition nodeUnits (l : LineRenderData) (p : Placed) : nat :=
  match node p with
  | WordText w => length w
  | EmojiSprite _ => if nodeVisible l p then 1%nat else 0%nat
  end.

Definition unitsOnScreen (l : LineRenderData) : nat :=
  list_sum (map (nodeUnits l) (bubbleNodes l)).

(** The words of the text segments of a line. *)
Definition wordsOf (ps : list DialoguePart) : list jsstring :=
  flat_map (fun p => match type p with
                     | text => split_on DialogueLineManager.SPACE (content p)
                     | _ => []
                     end) ps.

(** The typing cursor: line, part and character. *)
Definition typingCursor (m : DialogueManager) : nat * nat * nat :=
  (currentLineIndex m, currentPartIndex m, currentCharacterIndex m).

(** The typing state of the manager: the lines and the cursor. *)
Definition typingOf (m : DialogueManager) :=
  (linesData m, currentLineIndex m, currentPartIndex m,
   currentCharacterIndex m, isTypingComplete m).

(** The number of time slices in [t] milliseconds at [speed] characters
    per second, [floor(speed * t / 1000)], and the time of a sequence of
    ticks, both in whole numbers. *)
Definition slices (speed t : Z) : nat := Z.to_nat (speed * t / 1000).

Definition total (deltas : list Z) : Z := fold_right Z.add 0%Z deltas.

(** A sequence of [update] calls. *)
Fixpoint run (fuel : nat) (deltas : list Double.number) (m : DialogueManager)
  : option DialogueManager :=
  match deltas with
  | [] => Some m
  | d :: rest =>
      match update fuel d m with
      | Some m' => run fuel rest m'
      | None => None
      end
  end.

Section WithPlatform.
Context {pf : Platform}.

(** The states the engine reaches when it is driven as its host scene
    drives it: constructed, ticked, resized, and given a new message
    once the typing of the previous ones is complete.  Pointer events
    and the resume timer act on the scroll controller only. *)
Inductive Driven : DialogueManager -> Prop :=
| driven_construct : forall screen lines eT aT st m,
    construct screen lines eT aT st = DialogueLineManager.Normal m ->
    Driven m
| driven_update : forall fuel d m m',
    Driven m -> update fuel d m = Some m' -> Driven m'
| driven_resize : forall w h m m',
    Driven m -> resize w h m = DialogueLineManager.Normal m' -> Driven m'
| driven_append : forall line m m',
    Driven m -> isTypingComplete m = true ->
    appendMessage line m = DialogueLineManager.Normal m' -> Driven m'
| driven_scroll : forall s m,
    Driven m -> Driven (set_scroll s m).

End WithPlatform.

End Reveal.

(* ===================================================================== *)
(** * Properties *)
(* ===================================================================== *)

Unset Implicit Arguments.

(** ** The parser *)

Module ParserFacts.

Import Parser Tokens.

Lemma run_until_spec close s :
  s = fst (run_until close s) ++ snd (run_until close s)
  /\ ~ In close (fst (run_until close s))
  /\ (snd (run_until close s) = []
      \/ exists r, snd (run_until close s) = close :: r).
Proof.
  induction s as [|c r IH]; simpl.
  - repeat split; auto.
  - destruct (N.eqb_spec c close) as [E|E].
    + subst. simpl. repeat split; eauto.
    + destruct (run_until close r) as [name rest]; simpl in *.
      destruct IH as (H1 & H2 & H3).
      repeat split; [congruence | intros [F|F]; auto | exact H3].
Qed.

Lemma group_spec close s name rest :
  group close s = Some (name, rest) ->
  s = name ++ close :: rest /\ name <> [] /\ ~ In close name.
Proof.
  unfold group. destruct (run_until_spec close s) as (H1 & H2 & H3).
  destruct (run_until close s) as [[|a n] [|b r]]; try discriminate.
  simpl in *. intros E; inversion E; subst.
  destruct H3 as [F|[r' F]]; [discriminate|]. inversion F; subst.
  repeat split; solve [reflexivity | assumption | discriminate].
Qed.

Lemma run_until_app close name rest :
  ~ In close name ->
  run_until close (name ++ close :: rest) = (name, close :: rest).
Proof.
  induction name as [|c n IH]; simpl; intros H.
  - now rewrite N.eqb_refl.
  - destruct (N.eqb_spec c close) as [E|E]; [exfalso; auto|].
    rewrite IH; auto.
Qed.

Lemma group_complete close name rest :
  name <> [] -> ~ In close name ->
  group close (name ++ close :: rest) = Some (name, rest).
Proof.
  intros Hne Hin. unfold group. rewrite run_until_app by assumption.
  destruct name; [contradiction|reflexivity].
Qed.

Lemma match_at_spec s name rest :
  match_at s = Some (name, rest) ->
  exists d, s = source (Token d name) ++ rest /\ wellFormed (Token d name).
Proof.
  destruct s as [|c r]; simpl; [discriminate|].
  destruct (N.eqb_spec c LBRACE) as [E1|E1].
  { intros H; apply group_spec in H as (H1 & H2 & H3). exists Braces.
    subst. simpl. rewrite <- app_assoc. auto. }
  destruct (N.eqb_spec c COLON) as [E2|E2].
  { intros H; apply group_spec in H as (H1 & H2 & H3). exists Colons.
    subst. simpl. rewrite <- app_assoc. auto. }
  destruct (N.eqb_spec c LBRACKET) as [E3|E3].
  { intros H; apply group_spec in H as (H1 & H2 & H3). exists Brackets.
    subst. simpl. rewrite <- app_assoc. auto. }
  discriminate.
Qed.

Lemma match_at_complete d n b :
  wellFormed (Token d n) -> match_at (source (Token d n) ++ b) = Some (n, b).
Proof.
  intros [Hne Hin]. destruct d; simpl in *; rewrite <- app_assoc; simpl;
    now apply group_complete.
Qed.

Lemma tokenFree_nil : tokenFree [].
Proof. intros a d n b _ H. destruct a; discriminate. Qed.

Lemma tokenFree_cons c s rest :
  match_at (c :: s ++ rest) = None -> tokenFree s -> tokenFree (c :: s).
Proof.
  intros Hm Hs a d n b Hw E. destruct a as [|c' a'].
  - assert (X : c :: s ++ rest = source (Token d n) ++ (b ++ rest)).
    { change (c :: s ++ rest) with ((c :: s) ++ rest). rewrite E.
      simpl. now rewrite <- !app_assoc. }
    rewrite X, match_at_complete in Hm by assumption. discriminate.
  - inversion E; subst. exact (Hs a' d n b Hw eq_refl).
Qed.

Lemma exec_spec s pre name rest :
  exec s = Some (pre, name, rest) ->
  exists d, s = pre ++ source (Token d name) ++ rest
            /\ wellFormed (Token d name) /\ tokenFree pre.
Proof.
  revert pre name rest. induction s as [|c r IH]; intros pre name rest.
  - simpl. discriminate.
  - cbn [exec]. destruct (match_at (c :: r)) as [[n0 r0]|] eqn:M.
    + intros E; inversion E; subst.
      destruct (match_at_spec _ _ _ M) as (d & H1 & H2).
      exists d. split; [exact H1|]. split; [exact H2|]. apply tokenFree_nil.
    + destruct (exec r) as [[[p1 n1] r1]|] eqn:X; [|discriminate].
      intros E; inversion E; subst.
      destruct (IH _ _ _ eq_refl) as (d & H1 & H2 & H3).
      exists d. split; [cbn [app]; f_equal; exact H1|]. split; [assumption|].
      apply tokenFree_cons with (rest := source (Token d name) ++ rest);
        [rewrite <- H1; exact M | assumption].
Qed.

(** What [push_preceding] appends, as pieces. *)
Definition preceding (pre : jsstring) : list Piece :=
  match pre with [] => [] | _ :: _ => [Plain pre] end.

Lemma push_preceding_pieces pre parts :
  push_preceding pre parts = parts ++ map segment (preceding pre).
Proof. destruct pre; simpl; [now rewrite app_nil_r | reflexivity]. Qed.

Lemma preceding_source pre : flat_map source (preceding pre) = pre.
Proof. destruct pre; simpl; [reflexivity | now rewrite app_nil_r]. Qed.

(** Where a token starts the pattern matches, and nowhere else. *)
Lemma tokenAt_match s : tokenAt s -> match_at s <> None.
Proof.
  intros (d & n & b & Hw & ->). now rewrite match_at_complete.
Qed.

Lemma noTokenInside_nil rest : noTokenInside [] rest.
Proof.
  intros a b E Hb. symmetry in E. apply app_eq_nil in E as [_ ->].
  contradiction.
Qed.

Lemma noTokenInside_cons c s rest :
  match_at (c :: s ++ rest) = None -> noTokenInside s rest ->
  noTokenInside (c :: s) rest.
Proof.
  intros M H a b E Hb T. destruct a as [|c' a'].
  - cbn [app] in E. subst b. exact (tokenAt_match _ T M).
  - inversion E; subst. exact (H a' b eq_refl Hb T).
Qed.

Lemma noTokenInside_tail c s rest :
  noTokenInside (c :: s) rest ->
  match_at (c :: s ++ rest) = None /\ noTokenInside s rest.
Proof.
  intros H. split.
  - destruct (match_at (c :: s ++ rest)) as [[n r]|] eqn:M; [|reflexivity].
    exfalso. apply (H [] (c :: s) eq_refl); [discriminate|].
    destruct (match_at_spec _ _ _ M) as (d & E & W).
    exists d, n, r. split; [exact W|exact E].
  - intros a b E. apply (H (c :: a) b). now rewrite E.
Qed.

Lemma noTokenInside_tokenFree s rest : noTokenInside s rest -> tokenFree s.
Proof.
  intros H a d n b Hw E.
  apply (H a (source (Token d n) ++ b) E).
  - destruct d; discriminate.
  - exists d, n, (b ++ rest). split; [exact Hw|]. now rewrite <- app_assoc.
Qed.

(** The search of [exec] finds the first position at which a token
    starts. *)
Lemma exec_leftmost s pre name rest :
  exec s = Some (pre, name, rest) ->
  exists d, s = pre ++ source (Token d name) ++ rest
            /\ wellFormed (Token d name)
            /\ noTokenInside pre (source (Token d name) ++ rest).
Proof.
  revert pre name rest. induction s as [|c r IH]; intros pre name rest.
  - simpl. discriminate.
  - cbn [exec]. destruct (match_at (c :: r)) as [[n0 r0]|] eqn:M.
    + intros E; inversion E; subst.
      destruct (match_at_spec _ _ _ M) as (d & H1 & H2).
      exists d. split; [exact H1|]. split; [exact H2|].
      apply noTokenInside_nil.
    + destruct (exec r) as [[[p1 n1] r1]|] eqn:X; [|discriminate].
      intros E; inversion E; subst.
      destruct (IH _ _ _ eq_refl) as (d & H1 & H2 & H3).
      exists d. split; [cbn [app]; f_equal; exact H1|]. split; [assumption|].
      apply noTokenInside_cons; [rewrite <- H1; exact M | assumption].
Qed.

Lemma exec_none_leftmost s : exec s = None -> noTokenInside s [].
Proof.
  induction s as [|c r IH]; intros H.
  - apply noTokenInside_nil.
  - cbn [exec] in H. destruct (match_at (c :: r)) as [[n0 r0]|] eqn:M;
      [discriminate|].
    destruct (exec r) as [[[p1 n1] r1]|] eqn:X; [discriminate|].
    apply noTokenInside_cons; [now rewrite app_nil_r | auto].
Qed.

(** Over a stretch in which no token starts the search moves on. *)
Lemma exec_skip s rest :
  noTokenInside s rest ->
  exec (s ++ rest)
  = match exec rest with
    | Some (pre, name, r) => Some (s ++ pre, name, r)
    | None => None
    end.
Proof.
  induction s as [|c s IH]; intros H.
  - cbn [app]. destruct (exec rest) as [[[pre name] r]|]; reflexivity.
  - destruct (noTokenInside_tail _ _ _ H) as [M H'].
    cbn [app exec]. rewrite M, (IH H').
    destruct (exec rest) as [[[pre name] r]|]; reflexivity.
Qed.

Lemma leftmost_preceding pre d name pieces :
  wellFormed (Token d name) -> leftmost pieces ->
  noTokenInside pre (source (Token d name) ++ flat_map source pieces) ->
  leftmost (preceding pre ++ Token d name :: pieces).
Proof.
  intros Hw L H. destruct pre as [|c pre]; cbn [preceding app leftmost].
  - split; assumption.
  - split; [discriminate|]. split; [exact H|]. split; [exact I|].
    split; assumption.
Qed.

(** The loop emits the pieces of the text as read from left to right. *)
Lemma parse_loop_pieces s parts :
  exists pieces,
    flat_map source pieces = s
    /\ leftmost pieces
    /\ parse_loop s parts = parts ++ map segment pieces.
Proof.
  funelim (parse_loop s parts).
  - match goal with
    | E : exec _ = Some _ |- _ =>
        destruct (exec_leftmost _ _ _ _ E) as (d & Hs & Hw & Hf)
    end.
    match goal with
    | IH : exists _, _ |- _ => destruct IH as (pieces & P1 & P2 & P4)
    end.
    exists (preceding pre ++ Token d name :: pieces).
    split; [|split].
    + rewrite flat_map_app, preceding_source. simpl. rewrite P1.
      rewrite Hs. simpl. now rewrite <- app_assoc.
    + apply leftmost_preceding; [exact Hw|exact P2|]. now rewrite P1.
    + rewrite P4, push_preceding_pieces, map_app. simpl.
      now rewrite <- !app_assoc.
  - exists (preceding s).
    match goal with
    | E : exec _ = None |- _ => pose proof (exec_none_leftmost _ E) as Q
    end.
    split; [apply preceding_source|]. split; [|apply push_preceding_pieces].
    destruct s; cbn [preceding leftmost]; [exact I|].
    split; [discriminate|]. split; [exact Q|]. split; exact I.
Qed.

Lemma textOf_segments pieces :
  textOf (map segment pieces) = flat_map outside pieces.
Proof.
  induction pieces as [|[s|d n] ps IH]; simpl; [reflexivity| |assumption].
  unfold textOf in *. simpl. now rewrite IH.
Qed.

Lemma parse_loop_unfold s parts :
  parse_loop s parts =
  match exec s with
  | Some (pre, name, rest) =>
      parse_loop rest (push_preceding pre parts ++ [mkPart emoji name])
  | None => push_preceding s parts
  end.
Proof.
  funelim (parse_loop s parts);
    match goal with E : exec _ = _ |- _ => rewrite E end; reflexivity.
Qed.

Lemma exec_head s n r : match_at s = Some (n, r) -> exec s = Some ([], n, r).
Proof.
  intros H. destruct s; [discriminate H|]. cbn [exec]. now rewrite H.
Qed.

(** The loop on the text of pieces read from left to right emits their
    segments, whatever the pieces are. *)
Lemma parse_loop_leftmost ps :
  leftmost ps ->
  forall parts,
    parse_loop (flat_map source ps) parts = parts ++ map segment ps.
Proof.
  induction ps as [|p ps IH]; intros C parts.
  - cbn. rewrite parse_loop_unfold. cbn. now rewrite app_nil_r.
  - destruct p as [s|d n].
    + destruct C as (Hne & Hs & Hnext & C).
      destruct ps as [|[s'|d n] ps']; [|contradiction|].
      * cbn [flat_map source map segment] in *. rewrite app_nil_r.
        rewrite parse_loop_unfold.
        pose proof (exec_skip s [] Hs) as X. rewrite app_nil_r in X.
        cbn [exec match_at] in X. rewrite X.
        destruct s; [contradiction|reflexivity].
      * specialize (IH C). destruct C as [Hw C].
        change (flat_map source (Plain s :: Token d n :: ps'))
          with (s ++ source (Token d n) ++ flat_map source ps').
        change (flat_map source (Token d n :: ps'))
          with (source (Token d n) ++ flat_map source ps') in Hs.
        rewrite parse_loop_unfold, (exec_skip s _ Hs).
        rewrite (exec_head _ _ _ (match_at_complete d n _ Hw)).
        rewrite app_nil_r.
        specialize (IH (push_preceding s parts)).
        change (flat_map source (Token d n :: ps'))
          with (source (Token d n) ++ flat_map source ps') in IH.
        rewrite parse_loop_unfold in IH.
        rewrite (exec_head _ _ _ (match_at_complete d n _ Hw)) in IH.
        change (push_preceding [] (push_preceding s parts))
          with (push_preceding s parts) in IH.
        rewrite IH. destruct s; [contradiction|].
        cbn [push_preceding map segment]. now rewrite <- app_assoc.
    + destruct C as [Hw C].
      change (flat_map source (Token d n :: ps))
        with (source (Token d n) ++ flat_map source ps).
      rewrite parse_loop_unfold.
      rewrite (exec_head _ _ _ (match_at_complete d n _ Hw)).
      cbn [push_preceding]. rewrite (IH C).
      cbn [map segment]. now rewrite <- app_assoc.
Qed.

Lemma leftmost_wellFormed ps :
  leftmost ps -> Forall wellFormed ps /\ Forall plainTokenFree ps.
Proof.
  induction ps as [|[s|d n] ps IH]; cbn [leftmost].
  - intros _. split; constructor.
  - intros (H1 & H2 & _ & H4). destruct (IH H4) as [A B].
    split; constructor; auto.
    exact (noTokenInside_tokenFree _ _ H2).
  - intros (H1 & H2). destruct (IH H2) as [A B].
    split; constructor; auto. exact I.
Qed.

Lemma leftmost_nonempty ps :
  leftmost ps -> ps <> [] -> flat_map source ps <> [].
Proof.
  destruct ps as [|[s|d n] ps]; [contradiction| |].
  - intros (H & _) _. cbn. destruct s; [contradiction|discriminate].
  - intros _ _. cbn. discriminate.
Qed.

(** C3.  For every input text, [parseLine] returns a non-empty list of
    segments; it is total, so it never raises.  Read the text from left
    to right, taking a token [{name}], [:name:] or [[name]] (a non-empty
    name without the closing delimiter) wherever one starts and a plain
    stretch up to the next token or the end otherwise: the text has
    such a reading, and whatever pieces it is read into, the returned
    segments are exactly the segments of these pieces, an emoji segment
    with the name for every token and a text segment with the stretch
    for every plain stretch, in order.  So the contents of the text
    segments, concatenated in order, are the characters of the text
    outside the tokens, and the empty text gives the single empty text
    segment. *)
Theorem parseLine_reconstructs (t : jsstring) :
  parseLine t <> []
  /\ (t = [] -> parseLine t = [mkPart text []])
  /\ (exists pieces, flat_map source pieces = t /\ leftmost pieces)
  /\ forall pieces,
       flat_map source pieces = t -> leftmost pieces ->
       Forall wellFormed pieces
       /\ Forall plainTokenFree pieces
       /\ (t <> [] -> parseLine t = map segment pieces)
       /\ textOf (parseLine t) = flat_map outside pieces.
Proof.
  assert (U : forall pieces,
             flat_map source pieces = t -> leftmost pieces ->
             (t <> [] -> parseLine t = map segment pieces)
             /\ textOf (parseLine t) = flat_map outside pieces).
  { intros pieces E L. pose proof (parse_loop_leftmost pieces L []) as P.
    rewrite E in P. cbn [app] in P. unfold parseLine. destruct t as [|c r].
    - split; [contradiction|].
      destruct pieces as [|p ps]; [reflexivity|].
      exfalso. apply (leftmost_nonempty (p :: ps) L); [discriminate|exact E].
    - cbn [truthy]. rewrite P.
      destruct pieces as [|p ps]; [discriminate E|].
      cbn [map]. split; [reflexivity|].
      apply (textOf_segments (p :: ps)). }
  destruct (parse_loop_pieces t []) as (pieces & P1 & P2 & P4).
  split; [|split; [|split]].
  - unfold parseLine. destruct (truthy t); [|discriminate].
    destruct (parse_loop t []); discriminate.
  - intros ->. reflexivity.
  - exists pieces. split; assumption.
  - intros ps E L. destruct (leftmost_wellFormed ps L) as [W F].
    destruct (U ps E L) as [U1 U2]. auto.
Qed.

(** Only text and emoji segments come out of the parser. *)
Definition textOrEmoji (p : DialoguePart) : Prop :=
  type p = text \/ type p = emoji.

Lemma parseLine_types t : Forall textOrEmoji (parseLine t).
Proof.
  unfold parseLine. destruct t as [|c r]; cbn [truthy].
  - repeat constructor.
  - destruct (parse_loop_pieces (c :: r) []) as (pieces & _ & _ & P4).
    simpl in P4. rewrite P4. destruct pieces as [|p ps]; cbn [map].
    + repeat constructor.
    + change (Forall textOrEmoji (map segment (p :: ps))).
      apply Forall_forall. intros x Hx. apply in_map_iff in Hx as (q & <- & _).
      destruct q; [left|right]; reflexivity.
Qed.


(** *** Rendering pieces and parsing them back *)

(** The characters with which one of the three token forms starts. *)
Definition isOpener (c : N) : bool :=
  N.eqb c LBRACE || N.eqb c COLON || N.eqb c LBRACKET.

Definition openerFree (s : jsstring) : Prop :=
  forallb (fun c => negb (isOpener c)) s = true.

(** A piece list in which plain stretches are non-empty, hold no opening
    delimiter and never follow one another, and tokens are well formed. *)
Fixpoint canonical (ps : list Piece) : Prop :=
  match ps with
  | [] => True
  | Plain s :: rest =>
      s <> [] /\ openerFree s
      /\ match rest with Plain _ :: _ => False | _ => True end
      /\ canonical rest
  | Token d n :: rest => wellFormed (Token d n) /\ canonical rest
  end.

Lemma match_at_not_opener c r : isOpener c = false -> match_at (c :: r) = None.
Proof.
  unfold isOpener. cbn [match_at]. intros H.
  apply orb_false_iff in H as [H H3]. apply orb_false_iff in H as [H1 H2].
  now rewrite H1, H2, H3.
Qed.

Lemma exec_openerFree s : openerFree s -> exec s = None.
Proof.
  unfold openerFree. induction s as [|c r IH]; cbn [forallb exec];
    [reflexivity|].
  intros H. apply andb_true_iff in H as [Hc Hr].
  apply negb_true_iff in Hc.
  rewrite (match_at_not_opener c r Hc), (IH Hr). reflexivity.
Qed.

Lemma exec_plain_then_token s d n rest :
  openerFree s -> wellFormed (Token d n) ->
  exec (s ++ source (Token d n) ++ rest) = Some (s, n, rest).
Proof.
  unfold openerFree. intros Hs Hw. induction s as [|c r IH].
  - cbn [app]. apply exec_head, match_at_complete, Hw.
  - cbn [forallb] in Hs. apply andb_true_iff in Hs as [Hc Hr].
    apply negb_true_iff in Hc. cbn [app exec].
    rewrite (match_at_not_opener c _ Hc), (IH Hr). reflexivity.
Qed.

Lemma parse_loop_canonical ps :
  canonical ps ->
  forall parts,
    parse_loop (flat_map source ps) parts = parts ++ map segment ps.
Proof.
  induction ps as [|p ps IH]; intros C parts.
  - cbn. rewrite parse_loop_unfold. cbn. now rewrite app_nil_r.
  - destruct p as [s|d n].
    + destruct C as (Hne & Hs & Hnext & C).
      destruct ps as [|[s'|d n] ps']; [|contradiction|].
      * cbn [flat_map source map segment]. rewrite app_nil_r.
        rewrite parse_loop_unfold, (exec_openerFree s Hs).
        destruct s; [contradiction|reflexivity].
      * specialize (IH C). destruct C as [Hw C].
        change (flat_map source (Plain s :: Token d n :: ps'))
          with (s ++ source (Token d n) ++ flat_map source ps').
        rewrite parse_loop_unfold, (exec_plain_then_token s d n _ Hs Hw).
        specialize (IH (push_preceding s parts)).
        change (flat_map source (Token d n :: ps'))
          with (source (Token d n) ++ flat_map source ps') in IH.
        rewrite parse_loop_unfold in IH.
        rewrite (exec_head _ _ _ (match_at_complete d n _ Hw)) in IH.
        change (push_preceding [] (push_preceding s parts))
          with (push_preceding s parts) in IH.
        rewrite IH. destruct s; [contradiction|].
        cbn [push_preceding map segment]. now rewrite <- app_assoc.
    + destruct C as [Hw C].
      change (flat_map source (Token d n :: ps))
        with (source (Token d n) ++ flat_map source ps).
      rewrite parse_loop_unfold.
      rewrite (exec_head _ _ _ (match_at_complete d n _ Hw)).
      cbn [push_preceding]. rewrite (IH C).
      cbn [map segment]. now rewrite <- app_assoc.
Qed.

(** X1.  Parsing undoes rendering.  Take any sequence of pieces in which
    the plain stretches are non-empty, contain none of the characters
    that open a token, and do not follow one another, and the tokens are
    well formed (a non-empty name without the closing delimiter).  The
    parser applied to the text of the sequence returns exactly its
    segments: a text segment for every plain stretch and an emoji
    segment for every token, in order. *)
Theorem parseLine_of_rendered_pieces (ps : list Piece) :
  ps <> [] -> canonical ps ->
  parseLine (flat_map source ps) = map segment ps.
Proof.
  intros Hne C. unfold parseLine.
  rewrite (parse_loop_canonical ps C []). cbn [app].
  destruct ps as [|p ps]; [contradiction|].
  assert (T : truthy (flat_map source (p :: ps)) = true).
  { destruct p as [[|c s]|d n]; cbn.
    - destruct C as [X _]. contradiction.
    - reflexivity.
    - destruct d; reflexivity. }
  rewrite T. reflexivity.
Qed.

Lemma parseLine_of_rendered_pieces_witness :
  parseLine (of_string "hi {smile} there:ok:")
  = [mkPart text (of_string "hi "); mkPart emoji (of_string "smile");
     mkPart text (of_string " there"); mkPart emoji (of_string "ok")].
Proof.
  apply (parseLine_of_rendered_pieces
           [Plain (of_string "hi "); Token Braces (of_string "smile");
            Plain (of_string " there"); Token Colons (of_string "ok")]).
  - discriminate.
  - cbn. repeat split; try discriminate; intros H;
      repeat (destruct H as [H|H]; [discriminate H|]); exact H.
Defined.

(** *** The shape of the segment list *)

(** No text segment is followed by another text segment. *)
Fixpoint separated (ps : list DialoguePart) : Prop :=
  match ps with
  | [] => True
  | p :: rest =>
      (type p = text ->
       match rest with q :: _ => type q = emoji | [] => True end)
      /\ separated rest
  end.

Definition filled (p : DialoguePart) : Prop := content p <> [].

Lemma parse_loop_shape s parts :
  exists new,
    parse_loop s parts = parts ++ new
    /\ Forall filled new /\ separated new.
Proof.
  funelim (parse_loop s parts).
  - match goal with
    | E : exec _ = Some _ |- _ =>
        destruct (exec_spec _ _ _ _ E) as (d & _ & (Hn & _) & _)
    end.
    match goal with
    | IH : exists _, _ |- _ => destruct IH as (new & P1 & P2 & P3)
    end.
    exists (map segment (preceding pre) ++ mkPart emoji name :: new).
    split; [|split].
    + rewrite P1, push_preceding_pieces. now rewrite <- !app_assoc.
    + apply Forall_app. split.
      * destruct pre; repeat constructor. discriminate.
      * constructor; assumption.
    + destruct pre; cbn.
      * split; [discriminate|exact P3].
      * split; [reflexivity|]. split; [discriminate|exact P3].
  - exists (map segment (preceding s)). split; [|split].
    + apply push_preceding_pieces.
    + destruct s; repeat constructor. discriminate.
    + destruct s; cbn; auto.
Qed.

(** X2.  The segments of a non-empty text are never empty and never
    split: every segment is a text or an emoji segment with at least one
    character of content, and a text segment is always followed by an
    emoji segment or by the end of the list, so the text between two
    tokens is one segment. *)
Theorem parseLine_segments_filled_and_separated (t : jsstring) :
  t <> [] ->
  Forall (fun p => textOrEmoji p /\ content p <> []) (parseLine t)
  /\ separated (parseLine t).
Proof.
  intros Ht. pose proof (parseLine_types t) as Ty. revert Ty.
  unfold parseLine. destruct t as [|c r]; [contradiction|]. cbn [truthy].
  destruct (parse_loop_shape (c :: r) []) as (new & P1 & P2 & P3).
  cbn [app] in P1. rewrite P1.
  assert (N : new <> []).
  { intros ->. rewrite parse_loop_unfold in P1.
    destruct (exec (c :: r)) as [[[pre name] rest]|].
    - destruct (parse_loop_shape rest
                  (push_preceding pre [] ++ [mkPart emoji name]))
        as (new' & Q & _).
      rewrite Q in P1. destruct (push_preceding pre []); discriminate P1.
    - discriminate P1. }
  destruct new as [|p ps]; [contradiction|]. intros Ty.
  split; [|exact P3].
  apply Forall_forall. intros x Hx. split.
  - exact (proj1 (Forall_forall _ _) Ty x Hx).
  - exact (proj1 (Forall_forall _ _) P2 x Hx).
Qed.

Lemma parseLine_segments_filled_and_separated_witness :
  Forall (fun p => textOrEmoji p /\ content p <> [])
         (parseLine (of_string "a{}b[c]"))
  /\ separated (parseLine (of_string "a{}b[c]")).
Proof.
  apply (parseLine_segments_filled_and_separated (of_string "a{}b[c]")).
  discriminate.
Defined.

End ParserFacts.

(** ** The scroll controller *)

Module ScrollFacts.

Import Scroll.

Lemma getMaxScroll_nonneg h s : 0 <= getMaxScroll h s.
Proof. unfold getMaxScroll. apply Q.le_max_l. Qed.

Lemma bottom_nonpos h s : - getMaxScroll h s <= 0.
Proof.
  pose proof (getMaxScroll_nonneg h s) as H.
  apply Qopp_le_compat in H. exact H.
Qed.

Lemma clamp_bounds h s t :
  - getMaxScroll h s <= clamp h s t /\ clamp h s t <= 0.
Proof.
  unfold clamp, minScrollY. split.
  - apply Q.le_max_r.
  - apply Q.max_lub; [apply Q.le_min_r | apply bottom_nonpos].
Qed.

(** The bounds in terms of the fields, as [target_in_bounds] has them. *)
Definition bounded (h : Q) (s : ScrollManager) : Prop :=
  - getMaxScroll h s <= targetScrollY s /\ targetScrollY s <= 0.

Lemma scrollToBottom_bounded h s :
  bounded h s -> bounded h (scrollToBottom h s).
Proof.
  unfold scrollToBottom. destruct (isScrollingPaused s); [auto|].
  intros _. unfold bounded, getMaxScroll. simpl. split.
  - apply Qle_refl.
  - apply (bottom_nonpos h s).
Qed.

Lemma forceScrollToBottom_bounded h s : bounded h (forceScrollToBottom h s).
Proof.
  unfold forceScrollToBottom, scrollToBottom, bounded, getMaxScroll. simpl.
  split; [apply Qle_refl | apply (bottom_nonpos h s)].
Qed.

Lemma updateContentHeight_bounded h c s :
  bounded h (updateContentHeight h c s).
Proof.
  unfold updateContentHeight.
  set (s1 := mkScroll _ _ c _ _ _ _).
  assert (B : bounded h (set_target (clamp h s1 (targetScrollY s1)) s1)).
  { unfold bounded. simpl. apply (clamp_bounds h s1). }
  destruct (negb _); [apply scrollToBottom_bounded|]; exact B.
Qed.

Lemma onPointerMove_bounded h y s :
  bounded h s -> bounded h (onPointerMove h y s).
Proof.
  unfold onPointerMove. destruct (isPointerDown s); [|auto]. intros _.
  unfold bounded. simpl.
  apply (clamp_bounds h (set_target (targetScrollY s + (y - lastPointerY s)) s)).
Qed.

Lemma scrollToPosition_bounded h p s : bounded h (scrollToPosition h p s).
Proof. unfold bounded. simpl. apply (clamp_bounds h s). Qed.

Lemma step_bounded e v :
  target_in_bounds v -> target_in_bounds (step e v).
Proof.
  destruct v as [h s]. unfold target_in_bounds. cbn [maskHeight manager].
  change (bounded h s -> bounded (maskHeight (step e (mkView h s)))
                                 (manager (step e (mkView h s)))).
  intros B. destruct e; cbn [step maskHeight manager].
  - exact B.
  - now apply onPointerMove_bounded.
  - unfold onPointerUp. destruct (isPointerDown s); exact B.
  - unfold timeoutFired. destruct (scrollPauseTimeout s); exact B.
  - exact B.
  - now apply scrollToBottom_bounded.
  - apply forceScrollToBottom_bounded.
  - apply updateContentHeight_bounded.
  - apply scrollToPosition_bounded.
  - apply updateContentHeight_bounded.
Qed.

Lemma reachable_bounded v : Reachable v -> target_in_bounds v.
Proof.
  induction 1 as [h|e v R IH].
  - unfold target_in_bounds. simpl. split; [|apply Qle_refl].
    apply (bottom_nonpos h create).
  - now apply step_bounded.
Qed.

(** C6.  In every reachable state of the scroll controller, after any
    operation that writes the target offset (a pointer drag, a content
    height update, a scroll to the bottom, forced or not, a scroll to a
    position, a relayout), the target lies between
    [-max(0, contentHeight - viewportHeight)] and [0]. *)
Theorem target_clamped_after_mutation (v : View) (e : Event) :
  Reachable v -> mutates_target e = true -> target_in_bounds (step e v).
Proof.
  intros R _. apply step_bounded, reachable_bounded, R.
Qed.

(** The theorem at work: a drag far below the content after a relayout. *)
Lemma target_clamped_after_mutation_witness :
  target_in_bounds
    (step (PointerMove 5000)
       (step (PointerDown 10)
          (step (Relayout 400 1000) (mkView 300 create)))).
Proof.
  apply (@target_clamped_after_mutation
           (step (PointerDown 10)
              (step (Relayout 400 1000) (mkView 300 create)))
           (PointerMove 5000)).
  - apply reach_step, reach_step, reach_create.
  - reflexivity.
Defined.


(** *** Smooth scrolling *)

Definition distance (s : ScrollManager) : Q :=
  Qabs (targetScrollY s - currentScrollY s).

(** A run of frames, each with its own duration. *)
Definition frames (ds : list Q) (s : ScrollManager) : ScrollManager :=
  fold_left (fun s d => updateScroll d s) ds s.

Lemma updateScroll_target {A} (d : A) s :
  targetScrollY (updateScroll d s) = targetScrollY s.
Proof. reflexivity. Qed.

Lemma updateScroll_near {A} (d : A) s :
  distance s < 1 # 10 ->
  currentScrollY (updateScroll d s) = targetScrollY s.
Proof.
  unfold distance, updateScroll, Qltb. intros H. cbn [currentScrollY].
  destruct (Qle_bool (1 # 10) (Qabs (targetScrollY s - currentScrollY s)))
    eqn:E; [|reflexivity].
  apply Qle_bool_iff in E. lra.
Qed.

Lemma updateScroll_far {A} (d : A) s :
  1 # 10 <= distance s ->
  targetScrollY s - currentScrollY (updateScroll d s)
  == (9 # 10) * (targetScrollY s - currentScrollY s).
Proof.
  unfold distance, updateScroll, Qltb, SCROLL_SMOOTHING. intros H.
  cbn [currentScrollY].
  destruct (Qle_bool (1 # 10) (Qabs (targetScrollY s - currentScrollY s)))
    eqn:E.
  - cbn [negb]. ring.
  - assert (X : Qle_bool (1 # 10)
                  (Qabs (targetScrollY s - currentScrollY s)) = true)
      by (apply Qle_bool_iff; exact H).
    congruence.
Qed.

Lemma Qabs_scale (x : Q) : Qabs ((9 # 10) * x) == (9 # 10) * Qabs x.
Proof. rewrite Qabs_Qmult. reflexivity. Qed.

(** X3.  One frame of smooth scrolling never changes the target, never
    overshoots it and never moves away from it: the content stays on
    its side of the target, its distance to the target shrinks to at
    most nine tenths of what it was, and once the distance is under a
    tenth of a pixel the content is put exactly on the target. *)
Theorem updateScroll_eases_toward_target (d : Q) (s : ScrollManager) :
  targetScrollY (updateScroll d s) = targetScrollY s
  /\ distance (updateScroll d s) <= (9 # 10) * distance s
  /\ (currentScrollY s <= targetScrollY s ->
      currentScrollY s <= currentScrollY (updateScroll d s)
      /\ currentScrollY (updateScroll d s) <= targetScrollY s)
  /\ (targetScrollY s <= currentScrollY s ->
      targetScrollY s <= currentScrollY (updateScroll d s)
      /\ currentScrollY (updateScroll d s) <= currentScrollY s)
  /\ (distance s < 1 # 10 ->
      currentScrollY (updateScroll d s) = targetScrollY s).
Proof.
  split; [reflexivity|].
  pose proof (Qabs_nonneg (targetScrollY s - currentScrollY s)) as P.
  fold (distance s) in P.
  destruct (Qlt_le_dec (distance s) (1 # 10)) as [N|F].
  - pose proof (updateScroll_near d s N) as E.
    split; [|split; [|split]].
    + unfold distance at 1. rewrite updateScroll_target, E.
      setoid_replace (targetScrollY s - targetScrollY s) with 0 by ring.
      cbn [Qabs Z.abs]. lra.
    + intros H. rewrite E. split; [exact H|apply Qle_refl].
    + intros H. rewrite E. split; [apply Qle_refl|exact H].
    + intros _. exact E.
  - pose proof (updateScroll_far d s F) as E.
    split; [|split; [|split]].
    + unfold distance at 1. rewrite updateScroll_target, E, Qabs_scale.
      apply Qle_refl.
    + intros H. lra.
    + intros H. lra.
    + intros N. lra.
Qed.

Lemma frames_at_target ds s :
  currentScrollY s = targetScrollY s ->
  currentScrollY (frames ds s) = targetScrollY s
  /\ targetScrollY (frames ds s) = targetScrollY s.
Proof.
  revert s. induction ds as [|d ds IH]; intros s H; [auto|].
  cbn [frames fold_left]. fold (frames ds (updateScroll d s)).
  assert (N : distance s < 1 # 10).
  { unfold distance. rewrite H.
    setoid_replace (targetScrollY s - targetScrollY s) with 0 by ring.
    reflexivity. }
  pose proof (updateScroll_near d s N) as E.
  destruct (IH (updateScroll d s)) as [A B];
    [rewrite E; reflexivity|].
  rewrite updateScroll_target in A, B. auto.
Qed.

Lemma frames_settle n :
  forall s ds,
    distance s < (1 # 10) + inject_Z (Z.of_nat n) / 100 ->
    (n < length ds)%nat ->
    currentScrollY (frames ds s) = targetScrollY s
    /\ targetScrollY (frames ds s) = targetScrollY s.
Proof.
  induction n as [|n IH]; intros s [|d ds] H L; cbn [length] in L;
    try lia; cbn [frames fold_left]; fold (frames ds (updateScroll d s)).
  - assert (N : distance s < 1 # 10).
    { assert (E0 : inject_Z (Z.of_nat 0) / 100 == 0) by reflexivity.
      rewrite E0 in H. lra. }
    pose proof (updateScroll_near d s N) as E.
    destruct (frames_at_target ds (updateScroll d s)) as [A B];
      [rewrite E; reflexivity|].
    rewrite updateScroll_target in A, B. auto.
  - destruct (Qlt_le_dec (distance s) (1 # 10)) as [N|F].
    + pose proof (updateScroll_near d s N) as E.
      destruct (frames_at_target ds (updateScroll d s)) as [A B];
        [rewrite E; reflexivity|].
      rewrite updateScroll_target in A, B. auto.
    + destruct (IH (updateScroll d s) ds) as [A B]; [|lia|].
      * unfold distance at 1.
        rewrite updateScroll_target, (updateScroll_far d s F), Qabs_scale.
        fold (distance s).
        rewrite Nat2Z.inj_succ, <- Z.add_1_r, inject_Z_plus in H.
        change (inject_Z 1) with 1 in H.
        assert (X : (inject_Z (Z.of_nat n) + 1) / 100
                    == inject_Z (Z.of_nat n) / 100 + (1 # 100))
          by (field).
        rewrite X in H. lra.
      * rewrite updateScroll_target in A, B. auto.
Qed.

(** X4.  Smooth scrolling settles.  With the target left alone, after
    more than [ceil(100 * distance)] frames, whatever their durations,
    the content rests exactly on the target, and it stays there. *)
Theorem smooth_scroll_settles (s : ScrollManager) (ds : list Q) :
  (Z.to_nat (Qceiling (100 * distance s)) < length ds)%nat ->
  currentScrollY (frames ds s) = targetScrollY s
  /\ targetScrollY (frames ds s) = targetScrollY s.
Proof.
  intros L. apply (frames_settle (Z.to_nat (Qceiling (100 * distance s))));
    [|exact L].
  pose proof (Qabs_nonneg (targetScrollY s - currentScrollY s)) as P.
  fold (distance s) in P.
  pose proof (Qle_ceiling (100 * distance s)) as C.
  assert (Z0 : (0 <= Qceiling (100 * distance s))%Z).
  { change 0%Z with (Qceiling 0). apply Qceiling_resp_le. lra. }
  rewrite Z2Nat.id by exact Z0.
  assert (X : inject_Z (Qceiling (100 * distance s)) / 100
              >= distance s).
  { apply Qle_shift_div_l; [reflexivity|]. lra. }
  lra.
Qed.

Lemma smooth_scroll_settles_witness :
  currentScrollY
    (frames [16; 16; 33; 16]
            (mkScroll 0 (- (1 # 50)) 500 false 0 false false))
  = - (1 # 50).
Proof.
  apply (smooth_scroll_settles
           (mkScroll 0 (- (1 # 50)) 500 false 0 false false)
           [16; 16; 33; 16]).
  vm_compute. lia.
Defined.

(** *** Dragging and the pause of auto-scroll *)

Definition events (es : list Event) (v : View) : View :=
  fold_left (fun v e => step e v) es v.

(** The events that schedule the resume timer. *)
Definition schedulesResume (e : Event) : bool :=
  match e with
  | PointerUp | ScrollToPosition _ => true
  | _ => false
  end.

(** While the pointer is held: paused, and no resume timer pending. *)
Definition held (v : View) : Prop :=
  isPointerDown (manager v) = true
  /\ isScrollingPaused (manager v) = true
  /\ scrollPauseTimeout (manager v) = false.

Lemma held_step e v : schedulesResume e = false -> held v -> held (step e v).
Proof.
  destruct v as [h s]. unfold held. cbn [manager].
  intros E (D & P & T). destruct e; try discriminate E;
    cbn [step manager].
  - repeat split.
  - unfold onPointerMove. rewrite D. cbn. auto.
  - unfold timeoutFired. rewrite T. auto.
  - cbn. auto.
  - unfold scrollToBottom. rewrite P. auto.
  - unfold forceScrollToBottom, scrollToBottom. cbn. auto.
  - unfold updateContentHeight. cbn. rewrite P. cbn. auto.
  - unfold updateContentHeight. cbn. rewrite P. cbn. auto.
Qed.

Lemma held_events es v :
  forallb (fun e => negb (schedulesResume e)) es = true ->
  held v -> held (events es v).
Proof.
  revert v. induction es as [|e es IH]; intros v F H; [exact H|].
  cbn [forallb] in F. apply andb_true_iff in F as [Fe Fes].
  apply negb_true_iff in Fe. cbn [events fold_left].
  apply (IH (step e v) Fes), held_step; assumption.
Qed.

(** X5.  From the moment the pointer goes down, auto-scroll stays
    paused for as long as the pointer is held, whatever else happens in
    between (drags, frames, content growing, relayouts, requests to
    scroll to the bottom, a stale timer firing): a request to scroll to
    the bottom then leaves the target where the user put it.  When the
    pointer is released the resume timer is scheduled, and when it
    fires auto-scroll is on again. *)
Theorem drag_holds_auto_scroll (v : View) (y : Q) (es : list Event) :
  forallb (fun e => negb (schedulesResume e)) es = true ->
  let v1 := events es (step (PointerDown y) v) in
  isScrollingPaused (manager v1) = true
  /\ manager (step ScrollToBottom v1) = manager v1
  /\ isScrollingPaused (manager (step PointerUp v1)) = true
  /\ scrollPauseTimeout (manager (step PointerUp v1)) = true
  /\ isScrollingPaused (manager (step TimeoutFired (step PointerUp v1)))
     = false.
Proof.
  intros F v1.
  assert (H : held v1).
  { apply held_events; [exact F|]. destruct v as [h s]. repeat split. }
  destruct H as (D & P & T). destruct v1 as [h1 s1]. cbn [manager] in *.
  split; [exact P|]. cbn [step manager].
  split; [unfold scrollToBottom; now rewrite P|].
  unfold onPointerUp. rewrite D. cbn. auto.
Qed.

Lemma drag_holds_auto_scroll_witness :
  isScrollingPaused
    (manager
       (events [PointerMove 40; UpdateContentHeight 900; ScrollToBottom;
                TimeoutFired; UpdateScroll 16]
               (step (PointerDown 100)
                     (step (Relayout 400 1000) (mkView 300 create)))))
  = true.
Proof.
  apply (drag_holds_auto_scroll
           (step (Relayout 400 1000) (mkView 300 create)) 100
           [PointerMove 40; UpdateContentHeight 900; ScrollToBottom;
            TimeoutFired; UpdateScroll 16]).
  reflexivity.
Defined.

End ScrollFacts.

(** ** Appending a message *)

Module AppendFacts.

Import Parser DialogueLineManager DialogueManager.

Lemma replaceAt_length {A} idx (v : A) l :
  length (replaceAt idx v l) = length l.
Proof.
  revert idx. induction l as [|a r IH]; intros [|i]; simpl; auto.
Qed.

Lemma showLine_frame idx p c m :
  scrollManager (showLine idx p c m) = scrollManager m
  /\ dialogueMask (showLine idx p c m) = dialogueMask m
  /\ isTypingComplete (showLine idx p c m) = isTypingComplete m
  /\ length (linesData (showLine idx p c m)) = length (linesData m).
Proof.
  unfold showLine. destruct (nth_error (linesData m) idx); simpl;
    repeat split; auto using replaceAt_length.
Qed.

Lemma scrollToBottom_paused h s :
  Scroll.isScrollingPaused (Scroll.scrollToBottom h s)
  = Scroll.isScrollingPaused s.
Proof.
  unfold Scroll.scrollToBottom. destruct (Scroll.isScrollingPaused s) eqn:E;
    simpl; auto.
Qed.

Lemma updateContentHeight_paused h c s :
  Scroll.isScrollingPaused (Scroll.updateContentHeight h c s)
  = Scroll.isScrollingPaused s.
Proof.
  unfold Scroll.updateContentHeight, Scroll.scrollToBottom. simpl.
  destruct (Scroll.isScrollingPaused s) eqn:E; simpl; rewrite ?E; reflexivity.
Qed.

Lemma forceScrollToBottom_paused h s :
  Scroll.isScrollingPaused (Scroll.forceScrollToBottom h s)
  = Scroll.isScrollingPaused s.
Proof. reflexivity. Qed.

Lemma forceScrollToBottom_target h s :
  Scroll.targetScrollY (Scroll.forceScrollToBottom h s)
  = - Scroll.getMaxScroll h s.
Proof. reflexivity. Qed.

Lemma forceScrollToBottom_content h s :
  Scroll.dialogueContentHeight (Scroll.forceScrollToBottom h s)
  = Scroll.dialogueContentHeight s.
Proof. reflexivity. Qed.

Lemma updateContentHeight_content h c s :
  Scroll.dialogueContentHeight (Scroll.updateContentHeight h c s) = c.
Proof.
  unfold Scroll.updateContentHeight, Scroll.scrollToBottom.
  cbn [Scroll.isScrollingPaused Scroll.set_target negb].
  destruct (Scroll.isScrollingPaused s); reflexivity.
Qed.

Section WithPlatform.
Context {pf : Platform}.

Lemma createDialogueLine_record st eT aT line w :
  exists ld st',
    createDialogueLine st eT aT (Some line) w = Normal (ld, st').
Proof.
  unfold createDialogueLine.
  destruct (updateLineLayout st aT _ w) as [[ld st'] h]. eauto.
Qed.

(** C10.  [appendMessage] leaves the pause flag of the scroll
    controller as it found it: the content-height update does not touch
    the flag, and the forced scroll saves it, clears it for the call of
    [scrollToBottom], and restores it. *)
Theorem appendMessage_keeps_pause_flag (line : DialogueLine)
  (m : DialogueManager) :
  exists m',
    appendMessage line m = Normal m'
    /\ Scroll.isScrollingPaused (scrollManager m')
       = Scroll.isScrollingPaused (scrollManager m).
Proof.
  unfold appendMessage.
  destruct (createDialogueLine_record (styles m) (emojiTextures m)
              (avatarTextures m) line
              (fst (appScreen m) - dialoguePadding (styles m) * 2))
    as (ld & st' & E).
  rewrite E. eexists. split; [reflexivity|].
  unfold forceScrollToBottom.
  cbn [scrollManager set_scroll]. rewrite forceScrollToBottom_paused.
  match goal with
  | |- context [showLine ?i ?p ?c ?x] =>
      destruct (showLine_frame i p c x) as (F1 & F2 & F3 & F4);
      set (m3 := showLine i p c x) in *
  end.
  destruct (isTypingComplete _);
    cbn [scrollManager set_cursor set_accumulator set_complete set_scroll];
    rewrite updateContentHeight_paused, F1; reflexivity.
Qed.

Lemma nth_error_replaceAt_same {A} idx (v : A) l :
  (idx < length l)%nat -> nth_error (replaceAt idx v l) idx = Some v.
Proof.
  revert idx. induction l as [|a r IH]; intros [|i] H; simpl in *;
    try lia; auto. apply IH. lia.
Qed.

Lemma showLine_last (l : list LineRenderData) x m :
  linesData m = l ++ [x] ->
  linesData (showLine (length (linesData m) - 1) 0 0 m)
  = l ++ [updateLineVisibility x 0 0].
Proof.
  intros E. unfold showLine. rewrite E, length_app. cbn [length].
  replace (length l + 1 - 1)%nat with (length l) by lia.
  rewrite nth_error_app2, Nat.sub_diag by lia.
  cbn [nth_error linesData set_lines].
  clear. induction l as [|a r IH]; simpl; [reflexivity|now rewrite IH].
Qed.

(** C5.  [appendMessage] returns with the typing-complete flag false,
    the cursor on the first character of the first part of the new last
    line, and the scroll target at the bottom of the content as it now
    is, whose height is the lower edge of the new line; none of this
    depends on the pause flag of the scroll controller. *)
Theorem appendMessage_resets_typing_and_scrolls (line : DialogueLine)
  (m : DialogueManager) :
  exists m' newLine,
    appendMessage line m = Normal m'
    /\ isTypingComplete m' = false
    /\ linesData m' = linesData m ++ [newLine]
    /\ currentLineIndex m' = (length (linesData m') - 1)%nat
    /\ currentPartIndex m' = 0%nat
    /\ currentCharacterIndex m' = 0%nat
    /\ Scroll.dialogueContentHeight (scrollManager m')
       = container_y (container newLine)
         + container_height (container newLine)
    /\ Scroll.targetScrollY (scrollManager m')
       = - Qmax 0 (Scroll.dialogueContentHeight (scrollManager m')
                   - maskHeight m').
Proof.
  unfold appendMessage.
  destruct (createDialogueLine_record (styles m) (emojiTextures m)
              (avatarTextures m) line
              (fst (appScreen m) - dialoguePadding (styles m) * 2))
    as (ld & st' & E).
  rewrite E.
  match goal with
  | |- context [set_container_y ?v ld] => set (y := v)
  end.
  match goal with
  | |- context [showLine ?i ?p ?c ?x] =>
      destruct (showLine_frame i p c x) as (F1 & F2 & F3 & _);
      pose proof (@showLine_last (linesData m) (set_container_y y ld) x
                    eq_refl) as F4;
      set (m3 := showLine i p c x) in *
  end.
  cbn [scrollManager dialogueMask isTypingComplete set_dialogue set_lines]
    in F1, F2, F3.
  eexists. exists (updateLineVisibility (set_container_y y ld) 0 0).
  split; [reflexivity|].
  unfold forceScrollToBottom, maskHeight.
  cbn [isTypingComplete set_scroll].
  rewrite F3.
  destruct (isTypingComplete m);
    cbn [isTypingComplete linesData currentLineIndex currentPartIndex
         currentCharacterIndex scrollManager dialogueMask set_cursor
         set_scroll set_accumulator set_complete];
    rewrite forceScrollToBottom_target, forceScrollToBottom_content,
      updateContentHeight_content, F2, F4;
    unfold Scroll.getMaxScroll; rewrite updateContentHeight_content;
    repeat split; solve [reflexivity | exact F3].
Qed.

End WithPlatform.

End AppendFacts.

(** ** Laying out a line *)

Module LineFacts.

Import Parser Tokens DialogueLineManager.

(** The sum of the character codes of a name, by the book. *)
Definition charCodeSum (name : jsstring) : N := fold_right N.add 0%N name.

Lemma fold_left_add l a :
  fold_left N.add l a = (a + fold_right N.add 0 l)%N.
Proof.
  revert a. induction l as [|c r IH]; intros a; simpl; [lia|].
  rewrite IH. lia.
Qed.

Lemma nameHash_sum name : nameHash name = charCodeSum name.
Proof. unfold nameHash, charCodeSum. now rewrite fold_left_add. Qed.

Lemma mod2_even n : N.eqb (n mod 2) 0 = N.even n.
Proof.
  destruct (N.even n) eqn:E.
  - apply N.even_spec in E as [k ->].
    rewrite N.mul_comm, N.Div0.mod_mul. reflexivity.
  - assert (O : N.odd n = true) by (rewrite <- N.negb_even, E; reflexivity).
    apply N.odd_spec in O as [k ->].
    rewrite N.add_comm, N.mul_comm, N.Div0.mod_add. reflexivity.
Qed.

Section WithPlatform.
Context {pf : Platform}.

(** The side and colour that [updateLineLayout] records. *)
Lemma updateLineLayout_side_color st aT ld w :
  exists g,
    layout (container (fst (fst (updateLineLayout st aT ld w)))) = Some g
    /\ isRightAligned g = alignRight (or_default (speakerName ld) UNKNOWN)
    /\ colorIndex g = colorIndexOf (or_default (speakerName ld) UNKNOWN)
    /\ bubbleColor g
       = nth (N.to_nat (colorIndex g)) speakerColors 0%N.
Proof.
  unfold updateLineLayout.
  destruct (scaleParts _ _ _ _ _) as [[os st2] lefts].
  cbn [fst layout container].
  destruct (alignRight (or_default (speakerName ld) UNKNOWN)) eqn:A;
    eexists; (split; [reflexivity|]); cbn; auto.
Qed.

Lemma createDialogueLine_layout st eT aT line w :
  exists ld st' g,
    createDialogueLine st eT aT (Some line) w = Normal (ld, st')
    /\ layout (container ld) = Some g
    /\ isRightAligned g = alignRight (or_default (line_name line) UNKNOWN)
    /\ colorIndex g = colorIndexOf (or_default (line_name line) UNKNOWN)
    /\ bubbleColor g = nth (N.to_nat (colorIndex g)) speakerColors 0%N.
Proof.
  unfold createDialogueLine.
  destruct (updateLineLayout_side_color st aT
              (set_speakerName (line_name line)
                 (createLineObjects st eT (Some line))) w)
    as (g & G1 & G2 & G3 & G4).
  destruct (updateLineLayout _ _ _ _) as [[ld st'] h].
  exists ld, st', g. cbn in *. auto.
Qed.

(** C7, as amended.  The side and the palette index of a bubble are
    functions of the speaker name alone, whatever the text, the width,
    the configuration and the textures: the name that counts is the
    given one when it is not empty and ["Unknown"] otherwise, an even
    sum of its character codes puts the bubble on the right, and the
    sum modulo six is the colour index.  Two lines of one speaker
    therefore agree on both. *)
Theorem side_and_color_follow_speaker_name
  (name : option jsstring) (text1 text2 : option jsstring)
  (st1 st2 : DialogueStyles) (eT1 aT1 eT2 aT2 : TextureMap) (w1 w2 : Q) :
  exists ld1 st1' g1 ld2 st2' g2,
    createDialogueLine st1 eT1 aT1 (Some (mkLine name text1)) w1
    = Normal (ld1, st1')
    /\ createDialogueLine st2 eT2 aT2 (Some (mkLine name text2)) w2
       = Normal (ld2, st2')
    /\ layout (container ld1) = Some g1
    /\ layout (container ld2) = Some g2
    /\ isRightAligned g1 = N.even (charCodeSum (or_default name UNKNOWN))
    /\ colorIndex g1 = (charCodeSum (or_default name UNKNOWN) mod 6)%N
    /\ isRightAligned g2 = isRightAligned g1
    /\ colorIndex g2 = colorIndex g1.
Proof.
  destruct (createDialogueLine_layout st1 eT1 aT1 (mkLine name text1) w1)
    as (ld1 & s1 & g1 & A1 & A2 & A3 & A4 & _).
  destruct (createDialogueLine_layout st2 eT2 aT2 (mkLine name text2) w2)
    as (ld2 & s2 & g2 & B1 & B2 & B3 & B4 & _).
  exists ld1, s1, g1, ld2, s2, g2. cbn [line_name] in *.
  unfold alignRight, colorIndexOf in *. rewrite nameHash_sum in *.
  rewrite mod2_even in *.
  repeat split; auto; congruence.
Qed.

(** Every parsed part gets exactly one display object. *)
Lemma partObjects_length st eT ps :
  Forall ParserFacts.textOrEmoji ps ->
  length (flat_map (createPartObject st eT) ps) = length ps.
Proof.
  induction 1 as [|p ps Hp _ IH]; [reflexivity|].
  cbn [flat_map]. rewrite length_app, IH. unfold createPartObject.
  destruct Hp as [-> | ->]; reflexivity.
Qed.

Lemma scaleParts_length sf lm st ps objs :
  length (fst (fst (scaleParts sf lm st ps objs))) = length objs.
Proof.
  revert st objs. induction ps as [|p ps IH]; intros st [|o objs];
    cbn [scaleParts fst]; try reflexivity.
  destruct o as [t|sp].
  - specialize (IH (writeBack (type p) (set_fill WHITE (Text_style t)) st)
                   objs).
    destruct (scaleParts _ _ _ _ _) as [[os st'] ls]. cbn in *. now rewrite IH.
  - specialize (IH st objs).
    destruct (scaleParts _ _ _ _ _) as [[os st'] ls]. cbn in *. now rewrite IH.
Qed.

(** What [updateLineLayout] keeps of the line it is given. *)
Lemma updateLineLayout_keeps st aT ld w :
  let ld' := fst (fst (updateLineLayout st aT ld w)) in
  parts ld' = parts ld
  /\ speakerName ld' = speakerName ld
  /\ Text_text (characterText ld') = Text_text (characterText ld)
  /\ Text_visible (characterText ld') = Text_visible (characterText ld)
  /\ length (partObjects ld') = length (partObjects ld).
Proof.
  unfold updateLineLayout.
  pose proof (scaleParts_length
                (Qmin 1 (Qmax (8 # 10) (w / 800)))
                (isLeft (emojiPosition st))
                (writeBackChar
                   (set_fontWeight bold
                      (set_fill WHITE (Text_style (characterText ld)))) st)
                (parts ld) (partObjects ld)) as L.
  destruct (scaleParts _ _ _ _ _) as [[os st2] lefts].
  cbn in *. repeat split; auto.
Qed.

(** C9.  Creating a line from a record never raises, whatever fields the
    record lacks: the label reads the speaker name, or ["Unknown"] when
    the name is missing or empty, followed by a colon; the parts are
    those of the text, or of the empty text when it is missing, each
    with its display object; and the line is laid out, on the side that
    the defaulted name selects. *)
Theorem malformed_line_is_defaulted (st : DialogueStyles)
  (eT aT : TextureMap) (line : DialogueLine) (w : Q) :
  exists ld st' g,
    createDialogueLine st eT aT (Some line) w = Normal (ld, st')
    /\ Text_text (characterText ld)
       = or_default (line_name line) UNKNOWN ++ [COLON]
    /\ parts ld = parseLine (or_default (line_text line) [])
    /\ length (partObjects ld) = length (parts ld)
    /\ layout (container ld) = Some g
    /\ isRightAligned g = alignRight (or_default (line_name line) UNKNOWN)
    /\ or_default None UNKNOWN = UNKNOWN
    /\ or_default (Some []) UNKNOWN = UNKNOWN
    /\ parseLine (or_default None []) = [mkPart text []].
Proof.
  destruct (createDialogueLine_layout st eT aT line w)
    as (ld & st' & g & A1 & A2 & A3 & _).
  exists ld, st', g. split; [exact A1|].
  unfold createDialogueLine in A1.
  pose proof (updateLineLayout_keeps st aT
                (set_speakerName (line_name line)
                   (createLineObjects st eT (Some line))) w) as K.
  destruct (updateLineLayout _ _ _ _) as [[ld0 st0] h].
  inversion A1; subst ld0 st0. cbn in K.
  destruct K as (K1 & _ & K3 & _ & K5).
  split; [exact K3|]. split; [exact K1|].
  split; [rewrite K5, K1; apply partObjects_length,
            ParserFacts.parseLine_types|].
  repeat split; auto.
Qed.

(** A line that is [null] or [undefined] is another matter. *)
Lemma createDialogueLine_null_throws st eT aT w :
  exists e, createDialogueLine st eT aT None w = Throws e.
Proof. eexists. reflexivity. Qed.

End WithPlatform.

(** C7, as stated, fails at the empty name: its character codes sum to
    zero, yet the bubble takes colour two, that of ["Unknown"]. *)
Lemma empty_name_takes_color_of_Unknown :
  exists ld st' g,
    @createDialogueLine (Sample.fixedPitch 10) (Sample.sampleStyles 10)
      Sample.noTextures Sample.noTextures (Some (Sample.says "" "hi")) 800
    = Normal (ld, st')
    /\ layout (container ld) = Some g
    /\ colorIndex g = 2%N
    /\ (charCodeSum (of_string "") mod 6)%N = 0%N
    /\ colorIndex g <> (charCodeSum (of_string "") mod 6)%N.
Proof.
  destruct (@createDialogueLine_layout (Sample.fixedPitch 10)
              (Sample.sampleStyles 10) Sample.noTextures Sample.noTextures
              (Sample.says "" "hi") 800)
    as (ld & st' & g & A1 & A2 & _ & A4 & _).
  exists ld, st', g. rewrite A4.
  split; [exact A1|]. split; [exact A2|].
  split; [vm_compute; reflexivity|]. split; [vm_compute; reflexivity|].
  intros H. vm_compute in H. discriminate H.
Qed.

(** *** Idempotence *)

(** The part of the configuration that a layout depends on: the text
    styles as they are once whitened (and, for the label, emboldened),
    and the sizes. *)
Definition look (st : DialogueStyles) :=
  (set_fill WHITE (textStyle st),
   set_fontWeight bold (set_fill WHITE (charTextStyle st)),
   set_fill WHITE (missingEmojiStyle st),
   (emojiSize st, avatarSize st, avatarPadding st),
   (lineSpacing st, dialoguePadding st, typingSpeed st),
   emojiPosition st).

Lemma look_inv st st' :
  look st = look st' ->
  set_fill WHITE (textStyle st) = set_fill WHITE (textStyle st')
  /\ set_fontWeight bold (set_fill WHITE (charTextStyle st))
     = set_fontWeight bold (set_fill WHITE (charTextStyle st'))
  /\ set_fill WHITE (missingEmojiStyle st)
     = set_fill WHITE (missingEmojiStyle st')
  /\ emojiSize st = emojiSize st'
  /\ avatarSize st = avatarSize st'
  /\ lineSpacing st = lineSpacing st'
  /\ emojiPosition st = emojiPosition st'
  /\ fontSize (textStyle st) = fontSize (textStyle st')
  /\ fontSize (charTextStyle st) = fontSize (charTextStyle st').
Proof.
  intros H.
  pose proof (f_equal (fun t => fst (fst (fst (fst (fst t))))) H) as H1.
  pose proof (f_equal (fun t => snd (fst (fst (fst (fst t))))) H) as H2.
  pose proof (f_equal (fun t => snd (fst (fst (fst t)))) H) as H3.
  pose proof (f_equal (fun t => fst (fst (snd (fst (fst t))))) H) as H4.
  pose proof (f_equal (fun t => snd (fst (snd (fst (fst t))))) H) as H5.
  pose proof (f_equal (fun t => fst (fst (snd (fst t)))) H) as H6.
  pose proof (f_equal (fun t => snd t) H) as H7.
  cbn [look fst snd] in H1, H2, H3, H4, H5, H6, H7.
  split; [exact H1|]. split; [exact H2|]. split; [exact H3|].
  split; [exact H4|]. split; [exact H5|]. split; [exact H6|].
  split; [exact H7|]. split.
  - exact (f_equal fontSize H1).
  - exact (f_equal fontSize H2).
Qed.

Lemma look_speed st st' :
  look st = look st' ->
  typingSpeed st = typingSpeed st'
  /\ dialoguePadding st = dialoguePadding st'.
Proof.
  intros H.
  pose proof (f_equal (fun t => snd (snd (fst t))) H) as H1.
  pose proof (f_equal (fun t => snd (fst (snd (fst t)))) H) as H2.
  cbn [look fst snd] in H1, H2. auto.
Qed.

Lemma look_writeBackChar st :
  look (writeBackChar
          (set_fontWeight bold (set_fill WHITE (charTextStyle st))) st)
  = look st.
Proof.
  unfold writeBackChar. destruct (isInstance _); reflexivity.
Qed.

Lemma look_writeBack_text st sX :
  look sX = look st ->
  look (writeBack text (set_fill WHITE (textStyle st)) sX) = look st.
Proof.
  intros H. unfold writeBack. destruct (isInstance _); [|exact H].
  destruct (look_inv _ _ H) as (H1 & _).
  rewrite <- H. unfold look. cbn [textStyle charTextStyle missingEmojiStyle
    emojiSize avatarSize avatarPadding lineSpacing dialoguePadding typingSpeed
    emojiPosition set_textStyle].
  rewrite <- H1. reflexivity.
Qed.

Lemma look_writeBack_emoji st sX :
  look sX = look st ->
  look (writeBack emoji (set_fill WHITE (missingEmojiStyle st)) sX) = look st.
Proof.
  intros H. unfold writeBack. destruct (isInstance _); [|exact H].
  destruct (look_inv _ _ H) as (_ & _ & H3 & _).
  rewrite <- H. unfold look. cbn [textStyle charTextStyle missingEmojiStyle
    emojiSize avatarSize avatarPadding lineSpacing dialoguePadding typingSpeed
    emojiPosition set_missingEmojiStyle].
  rewrite <- H3. reflexivity.
Qed.

(** The display object of a part, up to the configuration it is made
    under. *)
Inductive Shape :=
| TextShape (s : jsstring)
| FallbackShape (s : jsstring)
| SpriteShape (i : N).

Definition shapeOf (eT : TextureMap) (p : DialoguePart) : Shape :=
  match type p with
  | emoji =>
      if truthy (content p) then
        match EmojiManager.findTexture eT (content p) with
        | Some (Loaded i) => SpriteShape i
        | _ => FallbackShape (EmojiManager.bracketed (content p))
        end
      else FallbackShape (of_string "[?]")
  | _ => TextShape (content p)
  end.

Definition realise (st : DialogueStyles) (sh : Shape) : PartObject :=
  match sh with
  | TextShape s => TextObject (newText s (textStyle st))
  | FallbackShape s => TextObject (newText s (missingEmojiStyle st))
  | SpriteShape i =>
      SpriteObject (mkSprite (Loaded i) (emojiSize st) (emojiSize st)
                             (0, 1 # 2) true)
  end.

Definition fitsType (p : DialoguePart) (sh : Shape) : Prop :=
  match sh with
  | TextShape _ => type p = text
  | _ => type p = emoji
  end.

Lemma createPartObject_shape st eT p :
  ParserFacts.textOrEmoji p ->
  createPartObject st eT p = [realise st (shapeOf eT p)]
  /\ fitsType p (shapeOf eT p).
Proof.
  unfold createPartObject, shapeOf, EmojiManager.createEmojiObject.
  intros [T | T]; rewrite T; [split; [reflexivity | exact T]|].
  destruct (truthy (content p)); [|split; [reflexivity | exact T]].
  destruct (EmojiManager.findTexture eT (content p)) as [[|i]|];
    split; first [reflexivity | exact T].
Qed.

Section Idempotence.
Context {pf : Platform}.

(** Objects made under configurations of one look come out of the
    scaling loop equal, and the loop keeps the look of the store. *)
Lemma scaleParts_agree sf lm eT st st' ps :
  Forall ParserFacts.textOrEmoji ps ->
  look st = look st' ->
  forall sX sX',
    look sX = look st -> look sX' = look st' ->
    fst (fst (scaleParts sf lm sX ps (flat_map (createPartObject st eT) ps)))
    = fst (fst (scaleParts sf lm sX' ps
                           (flat_map (createPartObject st' eT) ps)))
    /\ snd (scaleParts sf lm sX ps (flat_map (createPartObject st eT) ps))
       = snd (scaleParts sf lm sX' ps
                         (flat_map (createPartObject st' eT) ps))
    /\ look (snd (fst (scaleParts sf lm sX ps
                                  (flat_map (createPartObject st eT) ps))))
       = look st.
Proof.
  intros HF HL. induction HF as [|p ps Hp _ IH]; intros sX sX' HX HX'.
  - cbn. auto.
  - destruct (look_inv _ _ HL) as (L1 & _ & L3 & L4 & _).
    assert (EX : emojiSize sX = emojiSize sX').
    { destruct (look_inv _ _ HX) as (_ & _ & _ & A & _).
      destruct (look_inv _ _ HX') as (_ & _ & _ & B & _). congruence. }
    cbn [flat_map].
    destruct (createPartObject_shape st eT p Hp) as [-> F].
    destruct (createPartObject_shape st' eT p Hp) as [-> _].
    destruct (shapeOf eT p) as [s|s|i]; cbn [fitsType] in F;
      cbn [app realise scaleParts newText Text_style Text_text Text_visible
           Sprite_texture Sprite_visible]; rewrite ?F.
    + specialize (IH _ _ (look_writeBack_text st sX HX)
                     (look_writeBack_text st' sX' HX')).
      destruct (scaleParts sf lm (writeBack text _ sX) ps _)
        as [[os s2] ls].
      destruct (scaleParts sf lm (writeBack text _ sX') ps _)
        as [[os' s2'] ls'].
      cbn in *. destruct IH as (I1 & I2 & I3).
      rewrite L1, I1, I2. auto.
    + specialize (IH _ _ (look_writeBack_emoji st sX HX)
                     (look_writeBack_emoji st' sX' HX')).
      destruct (scaleParts sf lm (writeBack emoji _ sX) ps _)
        as [[os s2] ls].
      destruct (scaleParts sf lm (writeBack emoji _ sX') ps _)
        as [[os' s2'] ls'].
      cbn in *. destruct IH as (I1 & I2 & I3).
      rewrite L3, I1, I2. auto.
    + specialize (IH _ _ HX HX').
      destruct (scaleParts sf lm sX ps _) as [[os s2] ls].
      destruct (scaleParts sf lm sX' ps _) as [[os' s2'] ls'].
      cbn in *. destruct IH as (I1 & I2 & I3).
      rewrite EX, I1, I2. auto.
Qed.

Lemma getLineHeight_look st st' :
  look st = look st' -> getLineHeight st = getLineHeight st'.
Proof.
  intros H. destruct (look_inv _ _ H) as (_ & _ & _ & E & _ & _ & _ & F1 & F2).
  unfold getLineHeight. now rewrite E, F1, F2.
Qed.

(** Two configurations of one look lay a line out alike, and the
    configuration that a layout leaves behind has the look of the one it
    started from. *)
Lemma createDialogueLine_agree st st' eT aT line w :
  look st = look st' ->
  exists ld s1 s1',
    createDialogueLine st eT aT (Some line) w = Normal (ld, s1)
    /\ createDialogueLine st' eT aT (Some line) w = Normal (ld, s1')
    /\ look s1 = look st.
Proof.
  intros HL. destruct (look_inv _ _ HL) as (_ & L2 & _ & L4 & L5 & _ & L7 & _).
  unfold createDialogueLine, updateLineLayout, createLineObjects.
  cbn [parts partObjects characterText speakerName container set_speakerName
       Text_style Text_text Text_visible newText container_y].
  set (ps := parseLine (or_default (line_text line) [])).
  set (sf := Qmin 1 (Qmax (8 # 10) (w / 800))).
  pose proof (look_writeBackChar st) as HX.
  pose proof (look_writeBackChar st') as HX'.
  pose proof (getLineHeight_look _ _ (eq_trans HX (eq_trans HL (eq_sym HX'))))
    as HH.
  pose proof (scaleParts_agree sf (isLeft (emojiPosition st')) eT st st' ps
                (ParserFacts.parseLine_types _) HL _ _ HX HX')
    as (A1 & A2 & A3).
  pose proof (scaleParts_agree sf (isLeft (emojiPosition st')) eT st' st ps
                (ParserFacts.parseLine_types _) (eq_sym HL) _ _ HX' HX)
    as (_ & _ & A3').
  rewrite HH, L7, L5, L2.
  rewrite L2 in A1, A2, A3.
  destruct (scaleParts sf _ (writeBackChar _ st) ps _) as [[os s2] ls].
  destruct (scaleParts sf _ (writeBackChar _ st') ps _) as [[os' s2'] ls'].
  cbn [fst snd] in A1, A2, A3, A3'. subst os' ls'.
  assert (E2 : emojiSize s2 = emojiSize s2').
  { destruct (look_inv _ _ (eq_trans A3 (eq_trans HL (eq_sym A3'))))
      as (_ & _ & _ & B & _). exact B. }
  rewrite E2.
  eexists. eexists. eexists. split; [reflexivity|]. split; [reflexivity|].
  exact A3.
Qed.

(** C8.  Laying the same line out twice, with the same width, textures
    and configuration, gives the same result: the line data of the
    second call, with its bubble, its placed words, emojis and avatar
    and its height, equal those of the first, even though the first
    call may have written to styles that the configuration shares with
    the texts it made. *)
Theorem layout_is_idempotent (st : DialogueStyles) (eT aT : TextureMap)
  (line : DialogueLine) (w : Q) :
  exists ld1 st1 ld2 st2,
    createDialogueLine st eT aT (Some line) w = Normal (ld1, st1)
    /\ createDialogueLine st1 eT aT (Some line) w = Normal (ld2, st2)
    /\ layout (container ld2) = layout (container ld1)
    /\ container_height (container ld2) = container_height (container ld1)
    /\ ld2 = ld1.
Proof.
  destruct (createDialogueLine_agree st st eT aT line w eq_refl)
    as (ld & s1 & s1' & A & _ & L).
  destruct (createDialogueLine_agree s1 st eT aT line w L)
    as (ld' & s2 & s3 & B & C & _).
  rewrite A in C. inversion C; subst ld'.
  exists ld, s1, ld, s2. repeat split; assumption.
Qed.

End Idempotence.

(** *** Word wrap *)

(** A word is always placed whole: one node, of the width of the word. *)
Lemma placeWord_places_whole_word {pf : Platform}
  (sf maxW pad lh : Q) (style : TextStyle) (f : Flow) (word : jsstring) :
  exists px py,
    placed (placeWord sf maxW pad lh style f word)
    = placed f ++ [mkPlaced (WordText word) px py
                            (sf * textWidth style word)].
Proof.
  unfold placeWord. destruct (_ && _); cbn; eauto.
Qed.

Definition fortyLetters : string :=
  "xxxxxxxxxxxxxxxxxxxxxxxxxxxxxxxxxxxxxxxx".

(** C2 at its own scenario.  At width 800 the content of a bubble is
    470 wide and starts at 15; with letters 45 wide ten of them fit on a
    line and eleven do not.  A word of forty letters is placed as one
    node, 1800 wide, whose right edge is far beyond the content width. *)
Theorem long_word_is_placed_unbroken :
  exists ld st' g,
    @createDialogueLine (Sample.fixedPitch 45) (Sample.sampleStyles 10)
      Sample.noTextures Sample.noTextures
      (Some (Sample.says "A" fortyLetters)) 800
    = Normal (ld, st')
    /\ layout (container ld) = Some g
    /\ map node (placedNodes g) = [WordText (of_string fortyLetters)]
    /\ Forall (fun p => 470 < node_x p + node_width p) (placedNodes g)
    /\ 15 + 45 * 10 <= 470
    /\ 470 < 15 + 45 * 11.
Proof.
  eexists. eexists. eexists.
  split; [vm_compute; reflexivity|].
  split; [vm_compute; reflexivity|].
  split; [vm_compute; reflexivity|].
  split; [repeat constructor|].
  split; [discriminate | reflexivity].
Qed.

(** The second copy of the line manager does break the word: with
    letters 40 wide in a content 420 wide, four pieces of ten letters,
    each on a line of its own and inside the width. *)
Lemma hard_break_splits_long_word :
  let f := @HardBreak.placeWord (Sample.fixedPitch 40) 1
             (HardBreak.maxContentWidth 800 15) 15 26
             (Sample.plain 24 16777215 normal) (mkFlow 15 31 0 [])
             (of_string fortyLetters) in
  map node (placed f)
  = repeat (WordText (of_string "xxxxxxxxxx")) 4
  /\ map node_y (placed f) = [31; 31 + 28; 31 + 28 + 28; 31 + 28 + 28 + 28]
  /\ Forall (fun p => node_width p + HardBreak.SAFETY_MARGIN
                      <= HardBreak.maxContentWidth 800 15) (placed f).
Proof.
  split; [vm_compute; reflexivity|].
  split; [vm_compute; reflexivity|].
  vm_compute. repeat constructor; discriminate.
Qed.


(** *** The bubble *)

(** X6.  Whatever the line holds, the layout scales it by a factor
    between 0.8 and 1, draws a bubble that is never wider than
    [min(0.8 * availableWidth, 500)] (words that are wider stick out
    of it), makes the line 15 scaled pixels taller than the bubble and
    returns that height, and puts a right-aligned bubble so that it ends
    15 scaled pixels before the right edge of the available width. *)
Theorem bubble_stays_within_its_limit {pf : Platform}
  (st : DialogueStyles) (aT : TextureMap) (ld : LineRenderData) (w : Q) :
  exists g,
    layout (container (fst (fst (updateLineLayout st aT ld w)))) = Some g
    /\ 8 # 10 <= scaleFactor g /\ scaleFactor g <= 1
    /\ fst (bubbleRect g) <= Qmin (w * (8 # 10)) 500
    /\ container_height (container (fst (fst (updateLineLayout st aT ld w))))
       == snd (bubbleRect g) + 15 * scaleFactor g
    /\ snd (updateLineLayout st aT ld w)
       = container_height
           (container (fst (fst (updateLineLayout st aT ld w))))
    /\ (isRightAligned g = true ->
        bubbleContainerX g + fst (bubbleRect g) + 15 * scaleFactor g == w).
Proof.
  unfold updateLineLayout.
  destruct (scaleParts _ _ _ _ _) as [[os st2] lefts].
  set (sf := Qmin 1 (Qmax (8 # 10) (w / 800))).
  assert (S1 : 8 # 10 <= sf).
  { unfold sf. apply Q.min_glb; [discriminate|apply Q.le_max_l]. }
  assert (S2 : sf <= 1) by (unfold sf; apply Q.le_min_l).
  set (flow := layoutParts _ _ _ _ _ _ _ _ _).
  pose proof (Q.le_min_r (lineWidth flow)
                (Qmin (w * (8 # 10)) 500 - 15 * sf * 2)) as M.
  cbn [fst snd layout container container_height].
  destruct (alignRight (or_default (speakerName ld) UNKNOWN));
    eexists; (split; [reflexivity|]);
    cbn [scaleFactor bubbleRect isRightAligned bubbleContainerX fst snd];
    (split; [exact S1|]); (split; [exact S2|]);
    (split; [lra|]); (split; [reflexivity|]); (split; [reflexivity|]).
  - intros _. ring.
  - discriminate.
Qed.

(** *** What is placed in the bubble *)

Definition isSprite (o : PartObject) : bool :=
  match o with SpriteObject _ => true | TextObject _ => false end.

Definition isSpriteShape (sh : Shape) : bool :=
  match sh with SpriteShape _ => true | _ => false end.

(** The nodes that part [index] of a line contributes to the bubble:
    the words of a text segment and, when emojis are shown in line, the
    object of an emoji segment, be it the sprite of its texture or the
    fallback text of an emoji without one. *)
Definition nodesOf (leftMode : bool) (index : nat) (p : DialoguePart)
  : list PlacedNode :=
  match type p with
  | text => map WordText (split_on SPACE (content p))
  | emoji => if leftMode then [] else [EmojiSprite index]
  | _ => []
  end.

Fixpoint nodesFrom (leftMode : bool) (index : nat) (ps : list DialoguePart)
  : list PlacedNode :=
  match ps with
  | [] => []
  | p :: rest => nodesOf leftMode index p ++ nodesFrom leftMode (S index) rest
  end.

Lemma created_kinds st eT ps :
  Forall ParserFacts.textOrEmoji ps ->
  map isSprite (flat_map (createPartObject st eT) ps)
  = map (fun p => isSpriteShape (shapeOf eT p)) ps.
Proof.
  induction 1 as [|p ps Hp _ IH]; [reflexivity|].
  cbn [flat_map map].
  destruct (createPartObject_shape st eT p Hp) as [-> _].
  cbn [app map]. rewrite IH. f_equal. destruct (shapeOf eT p); reflexivity.
Qed.

Lemma scaleParts_kinds sf lm st ps os :
  map isSprite (fst (fst (scaleParts sf lm st ps os))) = map isSprite os.
Proof.
  revert st os. induction ps as [|p ps IH]; intros st [|o os];
    cbn [scaleParts fst]; try reflexivity.
  destruct o as [t|sp].
  - specialize (IH (writeBack (type p) (set_fill WHITE (Text_style t)) st) os).
    destruct (scaleParts _ _ _ _ _) as [[os' st'] ls]. cbn in *.
    now rewrite IH.
  - specialize (IH st os).
    destruct (scaleParts _ _ _ _ _) as [[os' st'] ls]. cbn in *.
    now rewrite IH.
Qed.

Section Placement.
Context {pf : Platform}.

Lemma placeWords_nodes sf maxW pad lh style ws f :
  map node (placed (fold_left (placeWord sf maxW pad lh style) ws f))
  = map node (placed f) ++ map WordText ws.
Proof.
  revert f. induction ws as [|w ws IH]; intros f; cbn [fold_left map].
  - now rewrite app_nil_r.
  - rewrite IH.
    destruct (placeWord_places_whole_word sf maxW pad lh style f w)
      as (px & py & ->).
    rewrite map_app. cbn [map node]. now rewrite <- app_assoc.
Qed.

Lemma placeEmoji_nodes sf maxW pad lh index width f :
  map node (placed (placeEmoji sf maxW pad lh index width f))
  = map node (placed f) ++ [EmojiSprite index].
Proof.
  unfold placeEmoji. destruct (_ && _); cbn [placed];
    rewrite map_app; reflexivity.
Qed.

Lemma layoutParts_nodes eT sf maxW pad lh leftMode ps :
  Forall ParserFacts.textOrEmoji ps ->
  forall index os f,
    map isSprite os = map (fun p => isSpriteShape (shapeOf eT p)) ps ->
    map node (placed (layoutParts sf maxW pad lh leftMode index ps os f))
    = map node (placed f) ++ nodesFrom leftMode index ps.
Proof.
  induction 1 as [|p ps Hp _ IH]; intros index os f K.
  - destruct os; cbn. all: now rewrite app_nil_r.
  - destruct os as [|o os]; [discriminate K|].
    cbn [map] in K. inversion K as [[K1 K2]].
    cbn [layoutParts nodesFrom]. rewrite (IH _ _ _ K2), app_assoc. f_equal.
    unfold nodesOf.
    destruct Hp as [T|T]; rewrite T.
    + destruct o as [t|s].
      * apply placeWords_nodes.
      * unfold shapeOf in K1. rewrite T in K1. discriminate K1.
    + destruct leftMode.
      * now rewrite app_nil_r.
      * apply placeEmoji_nodes.
Qed.

(** The nodes of a line as [createDialogueLine] lays it out. *)
Lemma createDialogueLine_nodes st eT aT line w :
  exists ld st' g,
    createDialogueLine st eT aT (Some line) w = Normal (ld, st')
    /\ layout (container ld) = Some g
    /\ map node (placedNodes g)
       = nodesFrom (isLeft (emojiPosition st)) 0
                   (parseLine (or_default (line_text line) [])).
Proof.
  unfold createDialogueLine, updateLineLayout.
  cbn [createLineObjects set_speakerName parts partObjects characterText
       speakerName container].
  set (ps := parseLine (or_default (line_text line) [])).
  pose proof (ParserFacts.parseLine_types (or_default (line_text line) []))
    as Ty. fold ps in Ty.
  match goal with
  | |- context [scaleParts ?a ?b ?c ?d ?e] =>
      pose proof (scaleParts_kinds a b c d e) as K;
      destruct (scaleParts a b c d e) as [[os st2] lefts]
  end.
  cbn [fst] in K. rewrite (created_kinds st eT ps Ty) in K.
  match goal with
  | |- context [layoutParts ?a ?b ?c ?d ?e ?i ps os ?f] =>
      pose proof (layoutParts_nodes eT a b c d e ps Ty i os f K) as L;
      set (flow := layoutParts a b c d e i ps os f) in *
  end.
  cbn [placed map app] in L.
  destruct (alignRight _); do 3 eexists;
    (split; [reflexivity|]); (split; [reflexivity|]); exact L.
Qed.

Lemma createDialogueLine_parts st eT aT line w :
  exists ld st',
    createDialogueLine st eT aT (Some line) w = Normal (ld, st')
    /\ parts ld = parseLine (or_default (line_text line) [])
    /\ length (partObjects ld) = length (parts ld).
Proof.
  destruct (createDialogueLine_layout st eT aT line w)
    as (ld & st' & g & A1 & _).
  exists ld, st'. split; [exact A1|].
  unfold createDialogueLine in A1.
  pose proof (updateLineLayout_keeps st aT
                (set_speakerName (line_name line)
                   (createLineObjects st eT (Some line))) w) as K.
  destruct (updateLineLayout _ _ _ _) as [[ld0 st0] h].
  inversion A1; subst ld0 st0. cbn in K.
  destruct K as (K1 & _ & _ & _ & K5).
  split; [exact K1|].
  rewrite K5, K1. apply partObjects_length, ParserFacts.parseLine_types.
Qed.

(** X7.  What a created line puts in its bubble, in reading order: every
    word of every text segment (the pieces between single blanks, an
    empty one for every extra blank), each as one node, and, when
    emojis are shown in line, the object of every emoji segment, which
    is the sprite of its texture or, for an emoji without a texture,
    the fallback text.  Nothing is dropped, repeated or reordered by
    the wrap; with emojis in the left column no emoji is placed in the
    bubble. *)
Theorem layout_places_every_word_once (st : DialogueStyles)
  (eT aT : TextureMap) (line : DialogueLine) (w : Q) :
  exists ld st' g,
    createDialogueLine st eT aT (Some line) w = Normal (ld, st')
    /\ layout (container ld) = Some g
    /\ map node (placedNodes g)
       = nodesFrom (isLeft (emojiPosition st)) 0
                   (parseLine (or_default (line_text line) []))
    /\ length (partObjects ld)
       = length (parseLine (or_default (line_text line) [])).
Proof.
  destruct (createDialogueLine_nodes st eT aT line w)
    as (ld & st' & g & E & G & N).
  destruct (createDialogueLine_parts st eT aT line w)
    as (ld' & st'' & E' & P & L).
  rewrite E in E'. inversion E'; subst ld' st''.
  exists ld, st', g. split; [exact E|]. split; [exact G|].
  split; [exact N|]. rewrite <- P. exact L.
Qed.

End Placement.


(** *** Hard breaks in the second copy of the line manager *)

Definition wordOf (p : Placed) : jsstring :=
  match node p with
  | WordText w => w
  | EmojiSprite _ => []
  end.

Section HardBreaks.
Context {pf : Platform}.

Lemma placeSegment_spec sf maxW pad lh style w f :
  let n := HardBreak.findCharsFit sf maxW style w 1 (length w) in
  fst (HardBreak.placeSegment sf maxW pad lh style w f) = skipn n w
  /\ exists x y,
       placed (snd (HardBreak.placeSegment sf maxW pad lh style w f))
       = placed f ++ [mkPlaced (WordText (firstn n w)) x y
                               (sf * textWidth style (firstn n w))].
Proof.
  intros n. unfold HardBreak.placeSegment. fold n. cbn [fst snd].
  split; [reflexivity|].
  destruct (Qltb pad (currentX f) && _);
    destruct (nonEmpty (skipn n w)); cbn [placed]; eauto.
Qed.

(** The prefix length that the inner loop settles on. *)
Lemma findCharsFit_fits sf maxW style w :
  forall iterations k,
    w <> [] -> (1 <= k)%nat -> (k + iterations = S (length w))%nat ->
    (k = 1%nat
     \/ sf * textWidth style (firstn (k - 1) w) + HardBreak.SAFETY_MARGIN
        <= maxW) ->
    let n := HardBreak.findCharsFit sf maxW style w k iterations in
    (1 <= n)%nat
    /\ (length (firstn n w) = 1%nat
        \/ sf * textWidth style (firstn n w) + HardBreak.SAFETY_MARGIN
           <= maxW).
Proof.
  induction iterations as [|it IH]; intros k Hw Hk Hlen Hinv;
    cbn [HardBreak.findCharsFit].
  - split; [exact Hk|]. destruct Hinv as [->|F].
    + destruct w; [contradiction|cbn in Hlen; lia].
    + right. assert (E : firstn k w = firstn (k - 1) w).
      { rewrite !firstn_all2 by lia. reflexivity. }
      rewrite E. exact F.
  - destruct (Qltb maxW _) eqn:T.
    + split; [apply Nat.le_max_l|].
      destruct Hinv as [->|F].
      * left. destruct w; [contradiction|reflexivity].
      * destruct (Nat.eq_dec k 1) as [->|Hne].
        -- left. destruct w; [contradiction|reflexivity].
        -- right. replace (Nat.max 1 (k - 1)) with (k - 1)%nat by lia.
           exact F.
    + apply IH; [exact Hw|lia|lia|]. right.
      replace (S k - 1)%nat with k by lia.
      unfold Qltb in T. apply negb_false_iff, Qle_bool_iff in T. exact T.
Qed.

Lemma breakWord_spec sf maxW bubblePadding currentLineHeight style w f :
  exists segs,
    placed (HardBreak.breakWord sf maxW bubblePadding currentLineHeight
                                style w f) = placed f ++ segs
    /\ concat (map wordOf segs) = w
    /\ Forall (fun p =>
                 wordOf p <> []
                 /\ node p = WordText (wordOf p)
                 /\ node_width p = sf * textWidth style (wordOf p)
                 /\ (length (wordOf p) = 1%nat
                     \/ node_width p + HardBreak.SAFETY_MARGIN <= maxW))
              segs.
Proof.
  funelim (HardBreak.breakWord sf maxW bubblePadding currentLineHeight
                               style w f).
  - exists []. rewrite app_nil_r. repeat split; constructor.
  - destruct H as (segs & P1 & P2 & P3).
    destruct (placeSegment_spec sf maxW bubblePadding currentLineHeight
                style (c :: r) f)
      as (E1 & x & y & E2).
    destruct (findCharsFit_fits sf maxW style (c :: r)
                (length (c :: r)) 1) as (N1 & N2);
      [discriminate|lia|cbn; lia|left; reflexivity|].
    set (n := HardBreak.findCharsFit sf maxW style (c :: r) 1
                (length (c :: r))) in *.
    exists (mkPlaced (WordText (firstn n (c :: r))) x y
                     (sf * textWidth style (firstn n (c :: r))) :: segs).
    split; [|split].
    + rewrite P1, E2, <- app_assoc. reflexivity.
    + cbn [map concat wordOf node]. rewrite P2, E1. apply firstn_skipn.
    + constructor; [|exact P3]. cbn [wordOf node node_width].
      split; [|split; [reflexivity|split; [reflexivity|exact N2]]].
      destruct n; [lia|discriminate].
Qed.

(** X8.  Breaking a word loses nothing.  The hard break of the second
    copy of the line manager adds its pieces after the nodes already
    placed; every piece is a non-empty stretch of the word, and the
    pieces, read in order, spell the word. *)
Theorem hard_break_keeps_every_character
  (sf maxW pad lh : Q) (style : TextStyle) (w : jsstring) (f : Flow) :
  exists segs,
    placed (HardBreak.breakWord sf maxW pad lh style w f) = placed f ++ segs
    /\ concat (map wordOf segs) = w
    /\ Forall (fun p => wordOf p <> [] /\ node p = WordText (wordOf p)) segs.
Proof.
  destruct (breakWord_spec sf maxW pad lh style w f) as (segs & A & B & C).
  exists segs. split; [exact A|]. split; [exact B|].
  apply Forall_forall. intros p Hp.
  destruct (proj1 (Forall_forall _ _) C p Hp) as (C1 & C2 & _). auto.
Qed.

(** X9.  A piece of a broken word fits the line: its width, with the
    safety margin of two pixels, is at most the content width, unless
    the piece is a single character, which is placed however wide it
    is. *)
Theorem hard_break_pieces_fit
  (sf maxW pad lh : Q) (style : TextStyle) (w : jsstring) (f : Flow) :
  exists segs,
    placed (HardBreak.breakWord sf maxW pad lh style w f) = placed f ++ segs
    /\ Forall (fun p =>
                 node_width p = sf * textWidth style (wordOf p)
                 /\ (length (wordOf p) = 1%nat
                     \/ node_width p + HardBreak.SAFETY_MARGIN <= maxW))
              segs.
Proof.
  destruct (breakWord_spec sf maxW pad lh style w f) as (segs & A & B & C).
  exists segs. split; [exact A|].
  apply Forall_forall. intros p Hp.
  destruct (proj1 (Forall_forall _ _) C p Hp) as (_ & _ & C3 & C4). auto.
Qed.

End HardBreaks.


(** *** Visibility updates compose *)

Lemma revealPart_forward pI cI pI' cI' idx part o :
  (pI <= pI')%nat ->
  revealPart pI' cI' idx part (revealPart pI cI idx part o)
  = revealPart pI' cI' idx part o.
Proof.
  intros H. unfold revealPart.
  destruct (Nat.ltb_spec idx pI') as [A|A].
  - destruct (Nat.ltb idx pI);
      [|destruct (Nat.eqb idx pI); [destruct (type part)|]];
      destruct o; reflexivity.
  - destruct (Nat.eqb_spec idx pI') as [B|B].
    + subst idx. destruct (Nat.ltb_spec pI' pI); [lia|].
      destruct (Nat.eqb pI' pI); destruct (type part); destruct o;
        reflexivity.
    + destruct (Nat.ltb_spec idx pI); [lia|].
      destruct (Nat.eqb_spec idx pI); [lia|]. destruct o; reflexivity.
Qed.

Lemma revealParts_forward pI cI pI' cI' ps :
  (pI <= pI')%nat ->
  forall idx os,
    revealParts pI' cI' idx ps (revealParts pI cI idx ps os)
    = revealParts pI' cI' idx ps os.
Proof.
  intros H. induction ps as [|p ps IH]; intros idx [|o os];
    cbn [revealParts]; try reflexivity.
  now rewrite revealPart_forward, IH.
Qed.

(** X20.  A visibility update overrides every earlier one that stood
    at the same part or before it: updating a line to (partIndex,
    charIndex) and then to (partIndex', charIndex') with partIndex <=
    partIndex' leaves the line exactly as the second update alone does.
    In particular an update repeated changes nothing.  An update never
    touches the layout of the line, its parts or its speaker. *)
Theorem later_visibility_update_overrides (l : LineRenderData)
  (pI cI pI' cI' : nat) :
  (pI <= pI')%nat ->
  updateLineVisibility (updateLineVisibility l pI cI) pI' cI'
  = updateLineVisibility l pI' cI'
  /\ container (updateLineVisibility l pI cI) = container l
  /\ parts (updateLineVisibility l pI cI) = parts l
  /\ speakerName (updateLineVisibility l pI cI) = speakerName l.
Proof.
  intros H. split; [|repeat split].
  unfold updateLineVisibility.
  cbn [container parts characterText partObjects speakerName
       Text_text Text_style Text_scale].
  now rewrite revealParts_forward.
Qed.

Lemma later_visibility_update_overrides_witness :
  updateLineVisibility
    (updateLineVisibility
       (createLineObjects (Sample.sampleStyles 10) Sample.smileOnly
          (Some (Sample.says "A" "ab {smile} cd"))) 0 1) 2 3
  = updateLineVisibility
      (createLineObjects (Sample.sampleStyles 10) Sample.smileOnly
         (Some (Sample.says "A" "ab {smile} cd"))) 2 3.
Proof.
  apply (later_visibility_update_overrides
           (createLineObjects (Sample.sampleStyles 10) Sample.smileOnly
              (Some (Sample.says "A" "ab {smile} cd"))) 0 1 2 3).
  lia.
Defined.


(** *** Emoji and avatar lookup *)

Definition colonFree (s : jsstring) : Prop :=
  forallb (fun c => negb (N.eqb c COLON)) s = true.

Lemma stripColons_colonFree s :
  colonFree s -> EmojiManager.stripColons s = s.
Proof.
  unfold colonFree, EmojiManager.stripColons.
  induction s as [|c s IH]; cbn [forallb filter]; [reflexivity|].
  intros H. apply andb_true_iff in H as [Hc Hs]. rewrite Hc.
  now rewrite IH.
Qed.

(** The sprite that [createEmojiObject] makes of a loaded texture. *)
Definition emojiSprite (size : Q) (i : N) : PartObject :=
  SpriteObject (mkSprite (Loaded i) size size (0, 1 # 2) true).

(** X25.  How the name of an emoji segment finds its texture.  For a
    non-empty name without colons, as the parser produces them from
    [:name:], that is neither ["affirmative"] nor ["win"], the emoji is
    drawn with the loaded texture stored under the name itself, failing
    that with the one stored under the name between colons, and failing
    that it becomes the text of the name between brackets in the
    missing-emoji style; the sprite is a square of the emoji size,
    anchored at its left middle. *)
Theorem emoji_found_under_name_or_colon_name
  (eT : TextureMap) (size : Q) (style : TextStyle) (name : jsstring) :
  name <> [] -> colonFree name ->
  JS.eqb name (of_string "affirmative") = false ->
  JS.eqb name (of_string "win") = false ->
  EmojiManager.createEmojiObject eT size style name
  = match eT name with
    | Some (Loaded i) => emojiSprite size i
    | _ =>
        match eT (COLON :: name ++ [COLON]) with
        | Some (Loaded j) => emojiSprite size j
        | _ => TextObject (newText (LBRACKET :: name ++ [RBRACKET]) style)
        end
    end.
Proof.
  intros Hne Hcf Ha Hw.
  unfold EmojiManager.createEmojiObject, EmojiManager.findTexture,
    EmojiManager.getSubstitutedEmojiName, emojiSprite,
    EmojiManager.bracketed.
  rewrite !(stripColons_colonFree name Hcf), Ha, Hw.
  cbn [orb andb].
  destruct name as [|c r]; [contradiction|]. cbn [truthy].
  destruct (eT (c :: r)) as [[|i]|] eqn:E1; cbn [unusable];
    try reflexivity;
    destruct (eT (COLON :: (c :: r) ++ [COLON])) as [[|j]|] eqn:E2;
    cbn [unusable]; rewrite ?E1; reflexivity.
Qed.

Lemma emoji_found_under_name_or_colon_name_witness :
  EmojiManager.createEmojiObject
    (fun n => if JS.eqb n (of_string ":smile:") then Some (Loaded 7) else None)
    20 (Sample.plain 24 11184810 normal) (of_string "smile")
  = emojiSprite 20 7.
Proof.
  apply (emoji_found_under_name_or_colon_name
           (fun n => if JS.eqb n (of_string ":smile:")
                     then Some (Loaded 7) else None)
           20 (Sample.plain 24 11184810 normal) (of_string "smile")).
  - discriminate.
  - reflexivity.
  - reflexivity.
  - reflexivity.
Defined.

(** X26.  An avatar is only ever built from a loaded texture.  When
    [getAvatar] returns a sprite, the sprite is a square of the avatar
    size whose texture is the loaded texture stored under the name or
    under its lower-case, upper-case or capitalised form; a texture
    stored under the exact name is the one that is used. *)
Theorem avatar_uses_a_loaded_texture {pf : Platform}
  (aT : TextureMap) (size : Q) (name : jsstring) (s : Sprite) :
  AvatarManager.getAvatar aT size name = Some s ->
  exists i key,
    s = newSprite (Loaded i) size
    /\ aT key = Some (Loaded i)
    /\ In key [name; toLowerCase name; toUpperCase name;
               AvatarManager.capitalized name]
    /\ (forall j, aT name = Some (Loaded j) -> i = j).
Proof.
  unfold AvatarManager.getAvatar.
  destruct (aT name) as [[|i]|] eqn:E; cbn [unusable].
  - destruct (aT (toLowerCase name)) as [t1|] eqn:E1; cbn [orElse].
    { destruct t1 as [|i]; intros H; inversion H; subst.
      exists i, (toLowerCase name). cbn. intuition discriminate. }
    destruct (aT (toUpperCase name)) as [t2|] eqn:E2; cbn [orElse].
    { destruct t2 as [|i]; intros H; inversion H; subst.
      exists i, (toUpperCase name). cbn. intuition discriminate. }
    destruct (aT (AvatarManager.capitalized name)) as [[|i]|] eqn:E3;
      intros H; inversion H; subst.
    exists i, (AvatarManager.capitalized name). cbn. intuition discriminate.
  - intros H. inversion H; subst. exists i, name. cbn.
    split; [reflexivity|]. split; [exact E|]. split; [auto|].
    intros j Hj. congruence.
  - destruct (aT (toLowerCase name)) as [t1|] eqn:E1; cbn [orElse].
    { destruct t1 as [|i]; intros H; inversion H; subst.
      exists i, (toLowerCase name). cbn. intuition discriminate. }
    destruct (aT (toUpperCase name)) as [t2|] eqn:E2; cbn [orElse].
    { destruct t2 as [|i]; intros H; inversion H; subst.
      exists i, (toUpperCase name). cbn. intuition discriminate. }
    destruct (aT (AvatarManager.capitalized name)) as [[|i]|] eqn:E3;
      intros H; inversion H; subst.
    exists i, (AvatarManager.capitalized name). cbn. intuition discriminate.
Qed.

Lemma avatar_uses_a_loaded_texture_witness :
  exists i,
    @AvatarManager.getAvatar (Sample.fixedPitch 10)
      (fun n => if JS.eqb n (of_string "Neo") then Some (Loaded 3) else None)
      40 (of_string "Neo")
    = Some (newSprite (Loaded i) 40).
Proof.
  destruct (@avatar_uses_a_loaded_texture (Sample.fixedPitch 10)
              (fun n => if JS.eqb n (of_string "Neo")
                        then Some (Loaded 3) else None)
              40 (of_string "Neo") (newSprite (Loaded 3) 40) eq_refl)
    as (i & key & E & _).
  exists i. rewrite <- E. reflexivity.
Defined.

End LineFacts.

(** ** Doubles *)

(** Facts about the arithmetic of doubles that the typing clock relies
    on: sums, differences and comparisons of whole numbers below 2^53
    are exact, and the sign of a difference and of a quotient. *)
Module DoubleFacts.

Import Double.
Local Open Scope Z_scope.

Lemma digits2_log2 p : Zpos (digits2_pos p) = Z.log2 (Zpos p) + 1.
Proof.
  assert (S : forall q, digits2_pos q = Pos.size q)
    by (induction q; simpl; congruence).
  rewrite S. destruct p; simpl; lia.
Qed.

Lemma iter_pos_nat {A} (f : A -> A) p x :
  SpecFloat.iter_pos f p x = Nat.iter (Pos.to_nat p) f x.
Proof.
  revert x. induction p as [p IH|p IH|]; intros x; cbn [SpecFloat.iter_pos].
  - rewrite !IH, Pos2Nat.inj_xI.
    replace (S (2 * Pos.to_nat p))%nat
      with (Pos.to_nat p + (Pos.to_nat p + 1))%nat by lia.
    rewrite !Nat.iter_add. reflexivity.
  - rewrite !IH, Pos2Nat.inj_xO.
    replace (2 * Pos.to_nat p)%nat
      with (Pos.to_nat p + Pos.to_nat p)%nat by lia.
    rewrite Nat.iter_add. reflexivity.
  - reflexivity.
Qed.

Lemma shr_1_even M :
  shr_1 (Build_shr_record (Zpos M * 2) false false)
  = Build_shr_record (Zpos M) false false.
Proof.
  replace (Zpos M * 2) with (Zpos (xO M)) by lia. reflexivity.
Qed.

Lemma shr_nat_exact n M :
  Nat.iter n shr_1 (Build_shr_record (Zpos M * 2 ^ Z.of_nat n) false false)
  = Build_shr_record (Zpos M) false false.
Proof.
  revert M. induction n as [|n IH]; intros M.
  - simpl. f_equal. lia.
  - rewrite Nat.iter_succ_r.
    replace (Zpos M * 2 ^ Z.of_nat (S n)) with (Zpos M * 2 ^ Z.of_nat n * 2).
    2:{ rewrite Nat2Z.inj_succ, Z.pow_succ_r by lia. ring. }
    assert (P : exists Q, Zpos M * 2 ^ Z.of_nat n = Zpos Q).
    { assert (0 < Zpos M * 2 ^ Z.of_nat n) by (apply Z.mul_pos_pos; [lia|apply Z.pow_pos_nonneg; lia]).
      destruct (Zpos M * 2 ^ Z.of_nat n); try lia. eauto. }
    destruct P as [Q HQ]. rewrite HQ, shr_1_even, <- HQ. apply IH.
Qed.

Lemma shr_exact M e n :
  0 <= n ->
  shr (Build_shr_record (Zpos M * 2 ^ n) false false) e n
  = (Build_shr_record (Zpos M) false false, e + n).
Proof.
  intros Hn. unfold shr. destruct n as [|p|p]; [|clear Hn|lia].
  - rewrite Z.pow_0_r, Z.mul_1_r, Z.add_0_r. reflexivity.
  - f_equal. rewrite iter_pos_nat.
    rewrite <- (positive_nat_Z p) at 1. apply shr_nat_exact.
Qed.

Definition emin64 : Z := -1074.

Lemma fexp_mid v : emin64 + 53 <= v -> fexp prec emax v = v - 53.
Proof. unfold fexp, emin, prec, emax, emin64. lia. Qed.

Lemma pos_times_pow M n : 0 <= n -> exists P, Zpos M * 2 ^ n = Zpos P.
Proof.
  intros Hn.
  assert (0 < Zpos M * 2 ^ n)
    by (apply Z.mul_pos_pos; [lia|apply Z.pow_pos_nonneg; lia]).
  destruct (Zpos M * 2 ^ n); try lia. eauto.
Qed.

(** Rounding a mantissa of 53 bits followed by [n] zero bits is exact. *)
Lemma round_aux_exact s M e n :
  Z.log2 (Zpos M) = 52 -> 0 <= n -> emin64 <= e + n <= 971 ->
  binary_round_aux prec emax s (Zpos M * 2 ^ n) e loc_Exact
  = S754_finite s M (e + n).
Proof.
  intros HM Hn He. destruct (pos_times_pow M n Hn) as [P HP].
  unfold binary_round_aux, shr_fexp. rewrite HP.
  cbn [Zdigits2 shr_record_of_loc]. rewrite digits2_log2, <- HP.
  rewrite Z.log2_mul_pow2 by lia. rewrite HM.
  rewrite fexp_mid by lia.
  replace (n + 52 + 1 + e - 53 - e) with n by lia.
  rewrite shr_exact by exact Hn.
  cbn [shr_m loc_of_shr_record round_nearest_even Zdigits2 shr_record_of_loc].
  rewrite digits2_log2, HM, fexp_mid by lia.
  replace (52 + 1 + (e + n) - 53 - (e + n)) with 0 by lia.
  cbn [shr shr_m].
  replace (e + n <=? emax - prec) with true; [reflexivity|].
  symmetry. apply Z.leb_le. unfold emax, prec. lia.
Qed.

(** The double that holds the whole number [x], for [0 < x < 2^53]. *)
Definition whole (x : Z) : spec_float :=
  S754_finite false (Z.to_pos (x * 2 ^ (52 - Z.log2 x))) (Z.log2 x - 52).

Lemma iter_xO_value P d : Zpos (Pos.iter xO P d) = Zpos P * 2 ^ Zpos d.
Proof.
  change (Pos.iter xO P d) with (shift_pos d P).
  rewrite shift_pos_correct. change (Z.pow_pos 2 d) with (2 ^ Zpos d).
  apply Z.mul_comm.
Qed.

Lemma whole_mantissa x :
  0 < x -> Z.log2 x <= 52 ->
  Zpos (Z.to_pos (x * 2 ^ (52 - Z.log2 x))) = x * 2 ^ (52 - Z.log2 x)
  /\ Z.log2 (x * 2 ^ (52 - Z.log2 x)) = 52.
Proof.
  intros Hx Hl.
  assert (0 < x * 2 ^ (52 - Z.log2 x))
    by (apply Z.mul_pos_pos; [lia|apply Z.pow_pos_nonneg; lia]).
  split; [apply Z2Pos.id; assumption|].
  rewrite Z.log2_mul_pow2 by lia. lia.
Qed.

Lemma normalize_exact x k :
  0 < x -> Z.log2 x <= 52 -> 0 <= k ->
  binary_normalize prec emax (x * 2 ^ k) (- k) false = whole x.
Proof.
  intros Hx Hl Hk. pose proof (Z.log2_nonneg x) as L0.
  destruct (whole_mantissa x Hx Hl) as [W1 W2].
  set (M := Z.to_pos (x * 2 ^ (52 - Z.log2 x))) in *.
  assert (X : exists P, x * 2 ^ k = Zpos P).
  { assert (0 < x * 2 ^ k)
      by (apply Z.mul_pos_pos; [lia|apply Z.pow_pos_nonneg; lia]).
    destruct (x * 2 ^ k); try lia. eauto. }
  destruct X as [P HP]. rewrite HP.
  cbn [binary_normalize]. unfold binary_round.
  rewrite digits2_log2, <- HP, Z.log2_mul_pow2 by lia.
  rewrite fexp_mid by (unfold emin64; lia).
  unfold shl_align.
  replace (k + Z.log2 x + 1 + - k - 53 - - k) with (Z.log2 x - 52 + k) by lia.
  unfold whole. fold M.
  destruct (Z.log2 x - 52 + k) as [|n|d] eqn:E.
  - replace (Zpos P) with (Zpos M * 2 ^ 0).
    2:{ rewrite W1, <- HP. rewrite Z.pow_0_r, Z.mul_1_r. f_equal. f_equal. lia. }
    rewrite round_aux_exact; [f_equal; lia|rewrite W1; exact W2|lia|unfold emin64; lia].
  - replace (Zpos P) with (Zpos M * 2 ^ Zpos n).
    2:{ rewrite W1, <- HP, <- Z.mul_assoc, <- Z.pow_add_r by lia.
        f_equal. f_equal. lia. }
    rewrite round_aux_exact; [f_equal; lia|rewrite W1; exact W2|lia|unfold emin64; lia].
  - replace (Zpos (Pos.iter xO P d)) with (Zpos M * 2 ^ 0).
    2:{ rewrite iter_xO_value, W1, <- HP, Z.pow_0_r, Z.mul_1_r.
        rewrite <- Z.mul_assoc, <- Z.pow_add_r by lia. f_equal. f_equal. lia. }
    replace (k + Z.log2 x + 1 + - k - 53) with (Z.log2 x - 52) by lia.
    rewrite round_aux_exact; [f_equal; lia|rewrite W1; exact W2|lia|unfold emin64; lia].
Qed.

Lemma normalize_whole x e :
  0 < x -> Z.log2 x <= 52 -> e <= 0 ->
  binary_normalize prec emax (x * 2 ^ (- e)) e false = whole x.
Proof.
  intros Hx Hl He. replace e with (- (- e)) at 2 by lia.
  apply normalize_exact; [exact Hx|exact Hl|lia].
Qed.

Lemma ofZ_whole x : 0 < x -> Z.log2 x <= 52 -> ofZ x = whole x.
Proof.
  intros Hx Hl. unfold ofZ.
  replace x with (x * 2 ^ 0) at 1 by (rewrite Z.pow_0_r; lia).
  apply (normalize_exact x 0 Hx Hl). lia.
Qed.

Lemma small_log2 x : 0 < x -> x < 2 ^ 53 -> Z.log2 x <= 52.
Proof. intros H0 H. apply (Z.log2_lt_pow2 x 53 H0) in H. lia. Qed.

Lemma shl_align_whole x ez :
  0 < x -> Z.log2 x <= 52 -> ez <= Z.log2 x - 52 ->
  Zpos (fst (shl_align (Z.to_pos (x * 2 ^ (52 - Z.log2 x)))
                       (Z.log2 x - 52) ez))
  = x * 2 ^ (- ez).
Proof.
  intros Hx Hl He. pose proof (Z.log2_nonneg x) as L0.
  destruct (whole_mantissa x Hx Hl) as [W1 _].
  unfold shl_align. destruct (ez - (Z.log2 x - 52)) as [|n|d] eqn:E;
    cbn [fst]; [| lia |].
  - rewrite W1. f_equal. f_equal. lia.
  - rewrite iter_xO_value, W1, <- Z.mul_assoc, <- Z.pow_add_r by lia.
    f_equal. f_equal. lia.
Qed.

Lemma add_whole a c :
  0 < a -> 0 < c -> a + c < 2 ^ 53 ->
  add (whole a) (whole c) = whole (a + c).
Proof.
  intros Ha Hc H.
  assert (La : Z.log2 a <= 52) by (apply small_log2; lia).
  assert (Lc : Z.log2 c <= 52) by (apply small_log2; lia).
  assert (Ls : Z.log2 (a + c) <= 52) by (apply small_log2; lia).
  unfold add, whole at 1 2. cbn [SFadd cond_Zopp].
  set (ez := Z.min (Z.log2 a - 52) (Z.log2 c - 52)).
  rewrite (shl_align_whole a ez Ha La) by (unfold ez; lia).
  rewrite (shl_align_whole c ez Hc Lc) by (unfold ez; lia).
  rewrite <- Z.mul_add_distr_r.
  apply normalize_whole; [lia|exact Ls|unfold ez; lia].
Qed.

Lemma sub_whole a c :
  0 < c -> c < a -> a < 2 ^ 53 ->
  sub (whole a) (whole c) = whole (a - c).
Proof.
  intros Hc Hca H.
  assert (La : Z.log2 a <= 52) by (apply small_log2; lia).
  assert (Lc : Z.log2 c <= 52) by (apply small_log2; lia).
  assert (Ls : Z.log2 (a - c) <= 52) by (apply small_log2; lia).
  unfold sub, whole at 1 2. cbn [SFsub cond_Zopp].
  set (ez := Z.min (Z.log2 a - 52) (Z.log2 c - 52)).
  rewrite (shl_align_whole a ez) by (unfold ez; lia).
  rewrite (shl_align_whole c ez Hc Lc) by (unfold ez; lia).
  rewrite <- Z.mul_sub_distr_r.
  apply normalize_whole; [lia|exact Ls|unfold ez; lia].
Qed.

Lemma sub_whole_same a :
  0 < a -> a < 2 ^ 53 -> sub (whole a) (whole a) = S754_zero false.
Proof.
  intros Ha H. unfold sub, whole. cbn [SFsub cond_Zopp].
  rewrite Z.sub_diag. reflexivity.
Qed.

Lemma log2_lt_lt c a : 0 < c -> 0 < a -> Z.log2 c < Z.log2 a -> c < a.
Proof.
  intros Hc Ha H.
  destruct (Z.log2_spec c Hc) as [_ U]. destruct (Z.log2_spec a Ha) as [L _].
  assert (2 ^ Z.succ (Z.log2 c) <= 2 ^ Z.log2 a)
    by (apply Z.pow_le_mono_r; lia).
  lia.
Qed.

Lemma geb_whole a c :
  0 < a -> 0 < c -> a < 2 ^ 53 -> c < 2 ^ 53 ->
  geb (whole a) (whole c) = (c <=? a).
Proof.
  intros Ha Hc Ba Bc.
  assert (La : Z.log2 a <= 52) by (apply small_log2; lia).
  assert (Lc : Z.log2 c <= 52) by (apply small_log2; lia).
  destruct (whole_mantissa a Ha La) as [Wa _].
  destruct (whole_mantissa c Hc Lc) as [Wc _].
  unfold geb, SFleb, whole. cbn [SFcompare].
  destruct (Z.compare_spec (Z.log2 c - 52) (Z.log2 a - 52)) as [E|E|E].
  - match goal with
    | |- context [Pos.compare_cont Eq ?x ?y] =>
        change (Pos.compare_cont Eq x y) with (Z.compare (Zpos x) (Zpos y))
    end.
    rewrite Wa, Wc.
    replace (Z.log2 c) with (Z.log2 a) by lia.
    assert (P : 0 < 2 ^ (52 - Z.log2 a)) by (apply Z.pow_pos_nonneg; lia).
    destruct (Z.compare_spec (c * 2 ^ (52 - Z.log2 a))
                             (a * 2 ^ (52 - Z.log2 a)));
      destruct (Z.leb_spec c a); try reflexivity; nia.
  - pose proof (log2_lt_lt c a Hc Ha). destruct (Z.leb_spec c a); [reflexivity|lia].
  - pose proof (log2_lt_lt a c Ha Hc). destruct (Z.leb_spec c a); [lia|reflexivity].
Qed.

(** Whole numbers from zero on. *)
Lemma ofZ_0 : ofZ 0 = S754_zero false.
Proof. reflexivity. Qed.

Lemma add_ofZ a c :
  0 <= a -> 0 <= c -> a + c < 2 ^ 53 -> add (ofZ a) (ofZ c) = ofZ (a + c).
Proof.
  intros Ha Hc H.
  destruct (Z.eq_dec a 0) as [->|Na]; [destruct (Z.eq_dec c 0) as [->|Nc]|].
  - reflexivity.
  - rewrite ofZ_0, Z.add_0_l, (ofZ_whole c) by (try apply small_log2; lia).
    reflexivity.
  - destruct (Z.eq_dec c 0) as [->|Nc].
    + rewrite ofZ_0, Z.add_0_r, (ofZ_whole a) by (try apply small_log2; lia).
      reflexivity.
    + rewrite (ofZ_whole a), (ofZ_whole c), (ofZ_whole (a + c))
        by (try apply small_log2; lia).
      apply add_whole; lia.
Qed.

Lemma sub_ofZ a c :
  0 < c -> c <= a -> a < 2 ^ 53 -> sub (ofZ a) (ofZ c) = ofZ (a - c).
Proof.
  intros Hc Hca H.
  rewrite (ofZ_whole a), (ofZ_whole c) by (try apply small_log2; lia).
  destruct (Z.eq_dec a c) as [->|N].
  - rewrite Z.sub_diag, ofZ_0. apply sub_whole_same; lia.
  - rewrite (ofZ_whole (a - c)) by (try apply small_log2; lia).
    apply sub_whole; lia.
Qed.

Lemma geb_ofZ a c :
  0 <= a -> 0 < c -> a < 2 ^ 53 -> c < 2 ^ 53 ->
  geb (ofZ a) (ofZ c) = (c <=? a).
Proof.
  intros Ha Hc Ba Bc. rewrite (ofZ_whole c) by (try apply small_log2; lia).
  destruct (Z.eq_dec a 0) as [->|N].
  - rewrite ofZ_0. destruct (Z.leb_spec c 0); [lia|reflexivity].
  - rewrite (ofZ_whole a) by (try apply small_log2; lia).
    apply geb_whole; lia.
Qed.

(** [x] is a number (not NaN) whose sign bit is [s]. *)
Definition signed (s : bool) (x : spec_float) : Prop :=
  match x with
  | S754_nan => False
  | S754_zero s' | S754_infinity s' | S754_finite s' _ _ => s' = s
  end.

Lemma shr_1_nonneg r : 0 <= shr_m r -> 0 <= shr_m (shr_1 r).
Proof. destruct r as [[|[p|p|]|p] r s]; cbn; lia. Qed.

Lemma shr_nonneg r e n : 0 <= shr_m r -> 0 <= shr_m (fst (shr r e n)).
Proof.
  intros H. unfold shr. destruct n as [|p|p]; cbn [fst]; try exact H.
  rewrite iter_pos_nat. induction (Pos.to_nat p) as [|k IH]; [exact H|].
  cbn [Nat.iter]. apply shr_1_nonneg, IH.
Qed.

Lemma round_aux_signed s m e l :
  0 <= m -> signed s (binary_round_aux prec emax s m e l).
Proof.
  intros Hm. unfold binary_round_aux, shr_fexp.
  pose proof (shr_nonneg (shr_record_of_loc m l) e
                (fexp prec emax (Zdigits2 m + e) - e)) as N1.
  destruct (shr (shr_record_of_loc m l) e _) as [r1 e1]. cbn [fst] in N1.
  assert (H1 : 0 <= shr_m r1) by (apply N1; destruct l as [|[]]; exact Hm).
  set (m2 := round_nearest_even (shr_m r1) (loc_of_shr_record r1)).
  assert (H2 : 0 <= m2).
  { unfold m2, round_nearest_even.
    destruct (loc_of_shr_record r1) as [|[]]; try lia.
    destruct (Z.even (shr_m r1)); lia. }
  pose proof (shr_nonneg (shr_record_of_loc m2 loc_Exact) e1
                (fexp prec emax (Zdigits2 m2 + e1) - e1)) as N2.
  destruct (shr (shr_record_of_loc m2 loc_Exact) e1 _) as [r2 e2].
  cbn [fst] in N2. specialize (N2 H2).
  destruct (shr_m r2) as [|p|p]; [reflexivity| |lia].
  destruct (e2 <=? emax - prec); reflexivity.
Qed.

Lemma normalize_signed z e :
  z <> 0 -> signed (z <? 0) (binary_normalize prec emax z e false).
Proof.
  intros Hz. destruct z as [|p|p]; [contradiction| |];
    cbn [binary_normalize]; unfold binary_round;
    destruct (shl_align _ _ _) as [mz ez]; apply round_aux_signed; lia.
Qed.

(** [0 <= a] and [c <= 0], as the comparison of doubles has them:
    either zero passes both, NaN neither. *)
Definition NonNeg (a : number) : Prop := leb zero a = true.
Definition NonPos (c : number) : Prop := leb c zero = true.

Lemma NonNeg_cases a :
  NonNeg a <->
  match a with
  | S754_zero _ => True
  | S754_infinity s | S754_finite s _ _ => s = false
  | S754_nan => False
  end.
Proof.
  unfold NonNeg, leb, SFleb, zero. destruct a as [s|[]| |[] m e]; cbn;
    split; intros H; try reflexivity; try discriminate; try contradiction;
    exact I.
Qed.

Lemma NonPos_cases c :
  NonPos c <->
  match c with
  | S754_zero _ => True
  | S754_infinity s | S754_finite s _ _ => s = true
  | S754_nan => False
  end.
Proof.
  unfold NonPos, leb, SFleb, zero. destruct c as [s|[]| |[] m e]; cbn;
    split; intros H; try reflexivity; try discriminate; try contradiction;
    exact I.
Qed.

Lemma signed_NonNeg a : signed false a -> NonNeg a.
Proof.
  intros H. apply NonNeg_cases. destruct a; cbn in *; auto.
Qed.

Lemma signed_NonPos a : signed true a -> NonPos a.
Proof.
  intros H. apply NonPos_cases. destruct a; cbn in *; auto.
Qed.

(** A time that is not negative is at least a slice that is not
    positive, and stays so when the slice is taken off it. *)
Lemma geb_by_sign a c : NonNeg a -> NonPos c -> geb a c = true.
Proof.
  intros Ha Hc. apply NonNeg_cases in Ha. apply NonPos_cases in Hc.
  unfold geb, SFleb.
  destruct a as [sa|sa| |sa ma ea]; try contradiction;
    destruct c as [sc|sc| |sc mc ec]; try contradiction; subst;
    reflexivity.
Qed.

Lemma sub_by_sign a c : NonNeg a -> NonPos c -> NonNeg (sub a c).
Proof.
  intros Ha Hc. apply NonNeg_cases in Ha. apply NonPos_cases in Hc.
  destruct a as [sa|sa| |sa ma ea]; try contradiction;
    destruct c as [sc|sc| |sc mc ec]; try contradiction; subst;
    try (apply NonNeg_cases; cbn; try destruct sa; try destruct sc;
         first [exact I | reflexivity]).
  apply signed_NonNeg. unfold sub. cbn [SFsub cond_Zopp].
  match goal with
  | |- signed false (binary_normalize _ _ ?z _ _) =>
      assert (P : 0 < z) by lia;
      pose proof (normalize_signed z (Z.min ea ec)) as N;
      replace (z <? 0) with false in N
        by (symmetry; apply Z.ltb_ge; lia)
  end.
  apply N. lia.
Qed.

Lemma ofZ_1000 : ofZ 1000 = S754_finite false 8796093022208000 (-43).
Proof. reflexivity. Qed.

(** The time slice [1000 / speed] for a speed that is negative, or the
    negative zero, or infinite, is not positive; for the zero it is
    [Infinity]. *)
Lemma slice_of_negative_speed y :
  ltb y zero = true -> NonPos (div (ofZ 1000) y).
Proof.
  intros H. rewrite ofZ_1000. unfold ltb, SFltb, zero in H.
  destruct y as [s|s| |s m e]; cbn in H; try discriminate H.
  - destruct s; [|discriminate H]. apply NonPos_cases. exact I.
  - destruct s; [|discriminate H]. apply signed_NonPos.
    unfold div. cbn [SFdiv xorb].
    destruct (SFdiv_core_binary _ _ _ _ _ _) as [[mz ez] lz] eqn:E.
    apply round_aux_signed.
    unfold SFdiv_core_binary in E.
    match type of E with
    | (let '(q, r) := Z.div_eucl ?a ?b in _) = _ =>
        pose proof (Z_div_mod a b eq_refl) as D;
        assert (A0 : 0 <= a);
        [|destruct (Z.div_eucl a b) as [q r]; inversion E; subst; nia]
    end.
    match goal with
    | |- 0 <= match ?x with _ => _ end =>
        destruct x; try lia; apply Z.shiftl_nonneg; lia
    end.
Qed.

Lemma slice_of_zero_speed :
  div (ofZ 1000) zero = infinity
  /\ div (ofZ 1000) negZero = S754_infinity true
  /\ div (ofZ 1000) infinity = zero.
Proof. repeat split. Qed.

(** Against an infinite slice only an infinite time counts. *)
Lemma geb_infinity a : a <> infinity -> geb a infinity = false.
Proof.
  intros H. unfold geb, SFleb, infinity in *.
  destruct a as [s|[]| |[] m e]; cbn; try reflexivity. contradiction.
Qed.

(** Structural equality of doubles. *)
Definition same (a b : spec_float) : bool :=
  match a, b with
  | S754_zero s, S754_zero s' | S754_infinity s, S754_infinity s' => Bool.eqb s s'
  | S754_nan, S754_nan => true
  | S754_finite s m e, S754_finite s' m' e' =>
      Bool.eqb s s' && Pos.eqb m m' && Z.eqb e e'
  | _, _ => false
  end.

Lemma same_eq a b : same a b = true -> a = b.
Proof.
  destruct a as [s|s| |s m e], b as [s'|s'| |s' m' e']; cbn;
    try discriminate; try reflexivity.
  - intros H. apply Bool.eqb_prop in H. congruence.
  - intros H. apply Bool.eqb_prop in H. congruence.
  - intros H. apply andb_true_iff in H as [H He].
    apply andb_true_iff in H as [Hs Hm].
    apply Bool.eqb_prop in Hs. apply Pos.eqb_eq in Hm. apply Z.eqb_eq in He.
    congruence.
Qed.

(** A speed that divides 1000 gives a slice of whole milliseconds. *)
Definition wholeSlice (n : nat) : bool :=
  let s := Z.of_nat (S n) in
  if (1000 mod s =? 0) then same (div (ofZ 1000) (ofZ s)) (ofZ (1000 / s))
  else true.

Lemma wholeSlices : forallb wholeSlice (List.seq 0 1000) = true.
Proof. vm_compute. reflexivity. Qed.

Lemma slice_of_divisor s :
  0 < s -> 1000 mod s = 0 -> div (ofZ 1000) (ofZ s) = ofZ (1000 / s).
Proof.
  intros Hs Hm.
  assert (Hle : s <= 1000).
  { destruct (Z.le_gt_cases s 1000) as [L|G]; [exact L|].
    rewrite Z.mod_small in Hm by lia. discriminate Hm. }
  pose proof (proj1 (forallb_forall _ _) wholeSlices (Z.to_nat (s - 1))) as W.
  unfold wholeSlice in W.
  replace (Z.of_nat (S (Z.to_nat (s - 1)))) with s in W by lia.
  rewrite Hm in W. cbn [Z.eqb] in W.
  apply same_eq, W, in_seq. lia.
Qed.

End DoubleFacts.

(** ** The typing animation *)

Module TypingFacts.

Import Parser DialogueLineManager DialogueManager Reveal LineFacts.

(** *** Visibility updates, seen through [shown] *)

Definition revealShown (pI cI idx : nat) (part : DialoguePart)
  (v : bool * option jsstring) : bool * option jsstring :=
  if Nat.ltb idx pI then (true, option_map (fun _ => content part) (snd v))
  else if Nat.eqb idx pI then
    match type part with
    | text =>
        (true, option_map (fun _ => substring0 cI (content part)) (snd v))
    | emoji => (Nat.ltb 0 cI, snd v)
    | _ => (false, snd v)
    end
  else (false, snd v).

Fixpoint revealAll (pI cI idx : nat) (ps : list DialoguePart)
  (vs : list (bool * option jsstring)) : list (bool * option jsstring) :=
  match ps, vs with
  | p :: ps', v :: vs' =>
      revealShown pI cI idx p v :: revealAll pI cI (S idx) ps' vs'
  | _, _ => vs
  end.

Lemma shown_revealPart pI cI idx part o :
  shown (revealPart pI cI idx part o) = revealShown pI cI idx part (shown o).
Proof.
  unfold revealPart, revealShown.
  destruct (Nat.ltb idx pI); [destruct o; reflexivity|].
  destruct (Nat.eqb idx pI); [|destruct o; reflexivity].
  destruct (type part); destruct o; reflexivity.
Qed.

Lemma shown_revealParts pI cI idx ps os :
  map shown (revealParts pI cI idx ps os)
  = revealAll pI cI idx ps (map shown os).
Proof.
  revert idx os. induction ps as [|p ps IH]; intros idx [|o os]; cbn;
    try reflexivity.
  now rewrite shown_revealPart, IH.
Qed.

Lemma revealShown_absorb pI cI pI' cI' idx part v :
  (pI <= pI')%nat ->
  revealShown pI' cI' idx part (revealShown pI cI idx part v)
  = revealShown pI' cI' idx part v.
Proof.
  intros H. unfold revealShown.
  destruct (Nat.ltb_spec idx pI'); [destruct (Nat.ltb idx pI);
    [|destruct (Nat.eqb idx pI); [destruct (type part)|]];
    cbn; destruct (snd v); reflexivity|].
  destruct (Nat.eqb_spec idx pI').
  - subst idx. destruct (Nat.ltb_spec pI' pI); [lia|].
    destruct (Nat.eqb pI' pI); destruct (type part); cbn;
      destruct (snd v); reflexivity.
  - destruct (Nat.ltb_spec idx pI); [lia|].
    destruct (Nat.eqb_spec idx pI); [lia|reflexivity].
Qed.

Lemma revealAll_absorb pI cI pI' cI' idx ps vs :
  (pI <= pI')%nat ->
  revealAll pI' cI' idx ps (revealAll pI cI idx ps vs)
  = revealAll pI' cI' idx ps vs.
Proof.
  intros H. revert idx vs. induction ps as [|p ps IH]; intros idx [|v vs];
    cbn; try reflexivity.
  now rewrite revealShown_absorb, IH.
Qed.

(** Past the last part the character index is immaterial. *)
Lemma revealAll_full pI cI idx ps vs :
  (idx + length ps <= pI)%nat ->
  revealAll pI cI idx ps vs = revealAll (idx + length ps) 0 idx ps vs.
Proof.
  revert idx vs. induction ps as [|p ps IH]; intros idx [|v vs] H; cbn;
    try reflexivity.
  cbn [length] in H.
  rewrite (IH (S idx) vs) by lia.
  replace (S idx + length ps)%nat with (idx + S (length ps))%nat by lia.
  f_equal. unfold revealShown.
  destruct (Nat.ltb_spec idx pI); [|lia].
  destruct (Nat.ltb_spec idx (idx + S (length ps))); [reflexivity|lia].
Qed.

(** *** A line as it is created *)

Definition freshShown (sh : Shape) : bool * option jsstring :=
  match sh with
  | TextShape s | FallbackShape s => (true, Some s)
  | SpriteShape _ => (true, None)
  end.

Definition fresh (eT : TextureMap) (ps : list DialoguePart) :=
  map (fun q => freshShown (shapeOf eT q)) ps.

(** The reveal of the parts of a line when the cursor of the line is at
    part [pI], character [cI]. *)
Definition expected (eT : TextureMap) (ps : list DialoguePart) (pI cI : nat) :=
  revealAll pI cI 0 ps (fresh eT ps).

Lemma shown_created st eT ps :
  Forall ParserFacts.textOrEmoji ps ->
  map shown (flat_map (createPartObject st eT) ps) = fresh eT ps.
Proof.
  induction 1 as [|p ps Hp _ IH]; [reflexivity|].
  cbn [flat_map fresh map].
  destruct (createPartObject_shape st eT p Hp) as [-> _].
  cbn [app map]. unfold fresh in IH. rewrite IH. f_equal.
  destruct (shapeOf eT p); reflexivity.
Qed.

Lemma scaleParts_shown sf lm st ps os :
  map shown (fst (fst (scaleParts sf lm st ps os))) = map shown os.
Proof.
  revert st os. induction ps as [|p ps IH]; intros st [|o os];
    cbn [scaleParts fst]; try reflexivity.
  destruct o as [t|sp].
  - specialize (IH (writeBack (type p) (set_fill WHITE (Text_style t)) st) os).
    destruct (scaleParts _ _ _ _ _) as [[os' st'] ls]. cbn in *.
    now rewrite IH.
  - specialize (IH st os).
    destruct (scaleParts _ _ _ _ _) as [[os' st'] ls]. cbn in *.
    now rewrite IH.
Qed.

Section WithPlatform.
Context {pf : Platform}.

Lemma updateLineLayout_shown st aT ld w :
  map shown (partObjects (fst (fst (updateLineLayout st aT ld w))))
  = map shown (partObjects ld).
Proof.
  unfold updateLineLayout.
  pose proof (scaleParts_shown
                (Qmin 1 (Qmax (8 # 10) (w / 800)))
                (isLeft (emojiPosition st))
                (writeBackChar
                   (set_fontWeight bold
                      (set_fill WHITE (Text_style (characterText ld)))) st)
                (parts ld) (partObjects ld)) as L.
  destruct (scaleParts _ _ _ _ _) as [[os st2] lefts].
  cbn in *. exact L.
Qed.

(** A line comes out of [createDialogueLine] with its label visible and
    every part in its fresh state. *)
Lemma created_line st eT aT d w :
  exists ld st',
    createDialogueLine st eT aT (Some d) w = Normal (ld, st')
    /\ parts ld = parseLine (or_default (line_text d) [])
    /\ Text_visible (characterText ld) = true
    /\ map shown (partObjects ld) = fresh eT (parts ld)
    /\ look st' = look st.
Proof.
  destruct (createDialogueLine_agree st st eT aT d w eq_refl)
    as (ld & st' & _ & E & _ & L).
  exists ld, st'. split; [exact E|].
  unfold createDialogueLine in E.
  pose proof (updateLineLayout_keeps st aT
                (set_speakerName (line_name d)
                   (createLineObjects st eT (Some d))) w) as K.
  pose proof (updateLineLayout_shown st aT
                (set_speakerName (line_name d)
                   (createLineObjects st eT (Some d))) w) as S.
  destruct (updateLineLayout _ _ _ _) as [[ld0 st0] h].
  inversion E; subst ld0 st0.
  cbn in K, S. destruct K as (K1 & _ & _ & K4 & _).
  split; [exact K1|]. split; [exact K4|]. split; [|exact L].
  rewrite S, K1.
  apply shown_created, ParserFacts.parseLine_types.
Qed.

End WithPlatform.

(** *** The invariant of a driven engine *)

(** The cursor of a single line: past its end when the line is done,
    the typing cursor on the current line, at its start otherwise. *)
Definition cursorAt (m : DialogueManager) (idx : nat) (l : LineRenderData)
  : nat * nat :=
  if Nat.ltb idx (currentLineIndex m) then (length (parts l), 0%nat)
  else if Nat.eqb idx (currentLineIndex m)
       then (currentPartIndex m, currentCharacterIndex m)
       else (0%nat, 0%nat).

(** Line [l] renders payload entry [d] and shows what a cursor at [pc]
    has revealed of it. *)
Definition LineOk (eT : TextureMap) (d : DialogueLine) (l : LineRenderData)
  (pc : nat * nat) : Prop :=
  parts l = parseLine (or_default (line_text d) [])
  /\ Text_visible (characterText l) = true
  /\ map shown (partObjects l) = expected eT (parts l) (fst pc) (snd pc).

Definition Inv (m : DialogueManager) : Prop :=
  length (dialogue m) = length (linesData m)
  /\ (isTypingComplete m = true ->
      (length (linesData m) <= currentLineIndex m)%nat)
  /\ forall idx l,
       nth_error (linesData m) idx = Some l ->
       exists d, nth_error (dialogue m) idx = Some d
                 /\ LineOk (emojiTextures m) d l (cursorAt m idx l).

Lemma vis_lineOk eT d l pI cI pI' cI' :
  LineOk eT d l (pI, cI) -> (pI <= pI')%nat ->
  LineOk eT d (updateLineVisibility l pI' cI') (pI', cI').
Proof.
  intros (H1 & H2 & H3) Hle. unfold LineOk. cbn [fst snd] in *.
  cbn [updateLineVisibility parts characterText partObjects Text_visible].
  split; [exact H1|]. split; [reflexivity|].
  rewrite shown_revealParts, H3. unfold expected.
  now apply revealAll_absorb.
Qed.

Lemma lineOk_full eT d l pI cI :
  LineOk eT d l (pI, cI) -> (length (parts l) <= pI)%nat ->
  LineOk eT d l (length (parts l), 0%nat).
Proof.
  intros (H1 & H2 & H3) Hle. unfold LineOk. cbn [fst snd] in *.
  split; [exact H1|]. split; [exact H2|].
  rewrite H3. unfold expected. now apply revealAll_full.
Qed.

Lemma nth_error_replaceAt_eq {A} idx (v : A) l :
  (idx < length l)%nat -> nth_error (replaceAt idx v l) idx = Some v.
Proof.
  revert idx. induction l as [|a r IH]; intros [|i] H; cbn in *;
    try lia; auto. apply IH. lia.
Qed.

Lemma nth_error_replaceAt_neq {A} idx j (v : A) l :
  idx <> j -> nth_error (replaceAt idx v l) j = nth_error l j.
Proof.
  revert idx j. induction l as [|a r IH]; intros [|i] [|j] H; cbn;
    try reflexivity; try lia. apply IH. lia.
Qed.

Lemma replaceAt_len {A} idx (v : A) l :
  length (replaceAt idx v l) = length l.
Proof.
  revert idx. induction l as [|a r IH]; intros [|i]; cbn; auto.
Qed.

(** The lines after a visibility update through the list. *)
Lemma showLine_lines idx pI cI m :
  dialogue (showLine idx pI cI m) = dialogue m
  /\ emojiTextures (showLine idx pI cI m) = emojiTextures m
  /\ currentLineIndex (showLine idx pI cI m) = currentLineIndex m
  /\ currentPartIndex (showLine idx pI cI m) = currentPartIndex m
  /\ currentCharacterIndex (showLine idx pI cI m) = currentCharacterIndex m
  /\ isTypingComplete (showLine idx pI cI m) = isTypingComplete m
  /\ lineRevealAccumulator (showLine idx pI cI m) = lineRevealAccumulator m
  /\ length (linesData (showLine idx pI cI m)) = length (linesData m)
  /\ forall j,
       nth_error (linesData (showLine idx pI cI m)) j
       = if Nat.eqb j idx
         then option_map (fun l => updateLineVisibility l pI cI)
                         (nth_error (linesData m) j)
         else nth_error (linesData m) j.
Proof.
  unfold showLine. destruct (nth_error (linesData m) idx) as [l|] eqn:E;
    cbn; repeat split; auto using replaceAt_len; intros j.
  - destruct (Nat.eqb_spec j idx) as [->|N].
    + rewrite E. cbn. apply nth_error_replaceAt_eq.
      apply nth_error_Some. congruence.
    + apply nth_error_replaceAt_neq. congruence.
  - destruct (Nat.eqb_spec j idx) as [->|N]; [|reflexivity].
    rewrite E. reflexivity.
Qed.

(** How far one cursor of a line is ahead of another: further on, or
    both past the end of a line of [n] parts. *)
Definition ahead (n : nat) (a b : nat * nat) : Prop :=
  (fst a < fst b)%nat
  \/ (fst a = fst b /\ (snd a <= snd b)%nat)
  \/ ((n <= fst a)%nat /\ (n <= fst b)%nat).

(** One typing step, line by line: every line still renders its payload
    entry, shows what its new cursor has revealed, and that cursor is
    ahead of the old one. *)
Definition Advances (m m' : DialogueManager) : Prop :=
  dialogue m' = dialogue m
  /\ emojiTextures m' = emojiTextures m
  /\ length (linesData m') = length (linesData m)
  /\ (isTypingComplete m' = true ->
      (length (linesData m') <= currentLineIndex m')%nat)
  /\ forall idx l',
       nth_error (linesData m') idx = Some l' ->
       exists l d,
         nth_error (linesData m) idx = Some l
         /\ nth_error (dialogue m) idx = Some d
         /\ parts l' = parts l
         /\ LineOk (emojiTextures m) d l (cursorAt m idx l)
         /\ LineOk (emojiTextures m) d l' (cursorAt m' idx l')
         /\ ahead (length (parts l)) (cursorAt m idx l) (cursorAt m' idx l').

Lemma Advances_inv m m' : Inv m -> Advances m m' -> Inv m'.
Proof.
  intros (I1 & _) (A1 & A2 & A3 & A4 & A5). split; [|split].
  - rewrite A1, A3. exact I1.
  - exact A4.
  - intros idx l' H. destruct (A5 idx l' H) as (l & d & _ & D & _ & _ & L & _).
    exists d. rewrite A1, A2. auto.
Qed.

Lemma cursorAt_parts m idx l l' :
  parts l' = parts l -> cursorAt m idx l' = cursorAt m idx l.
Proof. unfold cursorAt. now intros ->. Qed.

(** A step that updates the visibility of line [i] to [(pI, cI)] and
    moves the cursor advances the engine, given that the cursors of the
    lines move as the update assumes. *)
Lemma advances_by_show m m' i pI cI :
  Inv m ->
  dialogue m' = dialogue m ->
  emojiTextures m' = emojiTextures m ->
  length (linesData m') = length (linesData m) ->
  (forall j,
     nth_error (linesData m') j
     = if Nat.eqb j i
       then option_map (fun l => updateLineVisibility l pI cI)
                       (nth_error (linesData m) j)
       else nth_error (linesData m) j) ->
  (isTypingComplete m' = true ->
   (length (linesData m') <= currentLineIndex m')%nat) ->
  (forall l, nth_error (linesData m) i = Some l ->
     (fst (cursorAt m i l) <= pI)%nat
     /\ (cursorAt m' i l = (pI, cI)
         \/ ((length (parts l) <= pI)%nat
             /\ cursorAt m' i l = (length (parts l), 0%nat)))
     /\ ahead (length (parts l)) (cursorAt m i l) (cursorAt m' i l)) ->
  (forall j l, j <> i -> nth_error (linesData m) j = Some l ->
     cursorAt m' j l = cursorAt m j l
     \/ ((length (parts l) <= fst (cursorAt m j l))%nat
         /\ cursorAt m' j l = (length (parts l), 0%nat))) ->
  Advances m m'.
Proof.
  intros (I1 & I2 & I3) HD HT HL HN HC HS HO.
  split; [exact HD|]. split; [exact HT|]. split; [exact HL|].
  split; [exact HC|].
  intros idx l' Hl'. rewrite HN in Hl'.
  destruct (Nat.eqb_spec idx i) as [->|NE].
  - destruct (nth_error (linesData m) i) as [l|] eqn:El; [|discriminate].
    cbn in Hl'. inversion Hl'; subst l'. clear Hl'.
    destruct (I3 i l El) as (d & Ed & Ok).
    destruct (HS l eq_refl) as (S1 & S2 & S3).
    exists l, d. split; [reflexivity|]. split; [exact Ed|].
    split; [reflexivity|]. split; [exact Ok|].
    rewrite (cursorAt_parts m' i l (updateLineVisibility l pI cI) eq_refl).
    split; [|exact S3].
    destruct (cursorAt m i l) as [p0 c0] eqn:E0. cbn [fst] in S1.
    pose proof (vis_lineOk _ _ _ _ _ pI cI Ok S1) as V.
    destruct S2 as [-> | [F ->]]; [exact V|].
    apply (lineOk_full _ _ _ pI cI V). exact F.
  - destruct (I3 idx l' Hl') as (d & Ed & Ok).
    exists l', d. repeat (split; [solve [auto]|]).
    destruct (HO idx l' NE Hl') as [-> | [F ->]].
    + split; [exact Ok|]. right. left. split; [reflexivity|lia].
    + destruct (cursorAt m idx l') as [p0 c0] eqn:E0. cbn [fst] in F.
      split; [apply (lineOk_full _ _ _ p0 c0 Ok F)|].
      right. right. cbn. split; [exact F|lia].
Qed.

Lemma advances_keep m m' :
  Inv m ->
  dialogue m' = dialogue m ->
  emojiTextures m' = emojiTextures m ->
  linesData m' = linesData m ->
  (isTypingComplete m' = true ->
   (length (linesData m') <= currentLineIndex m')%nat) ->
  (forall j l, nth_error (linesData m) j = Some l ->
     cursorAt m' j l = cursorAt m j l
     \/ ((length (parts l) <= fst (cursorAt m j l))%nat
         /\ cursorAt m' j l = (length (parts l), 0%nat))) ->
  Advances m m'.
Proof.
  intros I HD HT HL HC HO.
  apply (advances_by_show m m' (length (linesData m)) 0 0); auto.
  - now rewrite HL.
  - intros j. rewrite HL. destruct (Nat.eqb_spec j (length (linesData m)));
      [|reflexivity].
    subst j. assert (E : nth_error (linesData m) (length (linesData m)) = None)
      by (apply nth_error_None; lia).
    rewrite E. reflexivity.
  - intros l E. exfalso.
    assert (N : nth_error (linesData m) (length (linesData m)) = None)
      by (apply nth_error_None; lia).
    congruence.
Qed.

(** The cursor of a line in terms of the three cursor fields. *)
Lemma cursorAt_by_fields m li pi ci idx l :
  currentLineIndex m = li -> currentPartIndex m = pi ->
  currentCharacterIndex m = ci ->
  cursorAt m idx l
  = if Nat.ltb idx li then (length (parts l), 0%nat)
    else if Nat.eqb idx li then (pi, ci) else (0%nat, 0%nat).
Proof. intros <- <- <-. reflexivity. Qed.

Ltac close_cases :=
  solve [ reflexivity | assumption | lia
        | split; close_cases | left; close_cases | right; close_cases ].

Ltac cursor_cases :=
  repeat match goal with
         | |- context [Nat.ltb ?a ?b] => destruct (Nat.ltb_spec a b)
         | |- context [Nat.eqb ?a ?b] => destruct (Nat.eqb_spec a b)
         end;
  cbn [fst snd] in *; try lia; try close_cases.

(** The cursor after the reveal of part [pI] of a line. *)
Definition revealCursor (part : DialoguePart) (pI cI : nat) : nat * nat :=
  match type part with
  | text =>
      if Nat.ltb (length (content part)) (S cI) then (S pI, 0%nat)
      else (pI, S cI)
  | emoji => (S pI, 1%nat)
  | _ => (pI, cI)
  end.

Lemma revealCursor_ahead part pI cI :
  (pI <= fst (revealCursor part pI cI))%nat
  /\ ((pI < fst (revealCursor part pI cI))%nat
      \/ (pI = fst (revealCursor part pI cI)
          /\ (cI <= snd (revealCursor part pI cI))%nat)).
Proof.
  unfold revealCursor.
  destruct (type part); [destruct (Nat.ltb _ _)| | |]; cbn; lia.
Qed.

Ltac cursors :=
  unfold cursorAt, ahead;
  cbn [currentLineIndex currentPartIndex currentCharacterIndex
       set_cursor set_complete fst snd].

Lemma advanceTyping_advances m : Inv m -> Advances m (advanceTyping m).
Proof.
  intros I. pose proof I as (I1 & I2 & I3). unfold advanceTyping.
  destruct (isTypingComplete m) eqn:C.
  { apply advances_keep; auto. }
  destruct (nth_error (linesData m) (currentLineIndex m)) as [l|] eqn:El.
  2:{ apply advances_keep; auto.
      cbn. intros _. apply nth_error_None. exact El. }
  destruct (nth_error (parts l) (currentPartIndex m)) as [part|] eqn:Ep.
  2:{ apply nth_error_None in Ep.
      cbn [linesData currentLineIndex currentPartIndex currentCharacterIndex
           set_cursor].
      destruct (Nat.leb_spec (length (linesData m)) (S (currentLineIndex m))).
      - apply advances_keep; auto.
        intros j lj Ej.
        assert (j < length (linesData m))%nat
          by (apply nth_error_Some; congruence).
        cursors.
        destruct (Nat.ltb_spec j (currentLineIndex m)); [left; cursor_cases|].
        destruct (Nat.eqb_spec j (currentLineIndex m)); [|lia].
        subst j. right. assert (lj = l) by congruence. subst lj.
        split; [exact Ep|]. cursor_cases.
      - match goal with
        | |- Advances _ (showLine ?i ?p ?c ?x) =>
            destruct (showLine_lines i p c x)
              as (S1 & S2 & S3 & S4 & S5 & S6 & S7 & S8 & S9)
        end.
        cbn [dialogue emojiTextures linesData currentLineIndex
             currentPartIndex currentCharacterIndex isTypingComplete
             set_cursor] in *.
        apply (advances_by_show _ _ (S (currentLineIndex m)) 0 0); auto.
        + rewrite S6, C. discriminate.
        + intros l1 E1. cursors. rewrite S3, S4, S5. cursor_cases.
        + intros j lj NE Ej. cursors. rewrite S3, S4, S5.
          destruct (Nat.ltb_spec j (currentLineIndex m)); [left; cursor_cases|].
          destruct (Nat.eqb_spec j (currentLineIndex m)); [|left; cursor_cases].
          subst j. right. assert (lj = l) by congruence. subst lj.
          split; [exact Ep|]. cursor_cases. }
  assert (Hp : (currentPartIndex m < length (parts l))%nat)
    by (apply nth_error_Some; congruence).
  destruct (revealCursor_ahead part (currentPartIndex m)
              (currentCharacterIndex m)) as (R1 & R2).
  set (m1 := match type part with
             | text => _ | emoji => _ | _ => m end).
  assert (F : dialogue m1 = dialogue m /\ emojiTextures m1 = emojiTextures m
              /\ linesData m1 = linesData m
              /\ isTypingComplete m1 = isTypingComplete m
              /\ currentLineIndex m1 = currentLineIndex m
              /\ (currentPartIndex m1, currentCharacterIndex m1)
                 = revealCursor part (currentPartIndex m)
                                (currentCharacterIndex m)).
  { subst m1. unfold revealCursor.
    destruct (type part); [destruct (Nat.ltb _ _)| | |]; cbn; auto 10. }
  clearbody m1. destruct F as (F1 & F2 & F3 & F4 & F5 & F6).
  destruct (revealCursor part (currentPartIndex m) (currentCharacterIndex m))
    as [p' c'] eqn:RC.
  injection F6 as F6 F7. cbn [fst snd] in R1, R2.
  match goal with
  | |- context [showLine ?i ?p ?c ?x] =>
      destruct (showLine_lines i p c x)
        as (S1 & S2 & S3 & S4 & S5 & S6 & S7 & S8 & S9);
      set (m2 := showLine i p c x) in *
  end.
  clearbody m2. rewrite F1, F2, F3, F4, F5, F6, F7 in *.
  rewrite S4.
  destruct (Nat.leb_spec (length (parts l)) p').
  - cbn [linesData currentLineIndex set_cursor].
    assert (A : Advances m (set_cursor (S (currentLineIndex m2)) 0 0 m2)).
    { apply (advances_by_show _ _ (currentLineIndex m) p' c'); cbn; auto.
      + rewrite S6, C. discriminate.
      + intros l1 E1. assert (l1 = l) by congruence. subst l1.
        cursors. rewrite S3. cursor_cases.
      + intros j lj NE Ej. cursors. rewrite S3. left. cursor_cases. }
    destruct (Nat.leb_spec (length (linesData m2)) (S (currentLineIndex m2)));
      [|exact A].
    destruct A as (A1 & A2 & A3 & A4 & A5).
    split; [exact A1|]. split; [exact A2|]. split; [exact A3|].
    split; [cbn; intros _; lia|]. exact A5.
  - apply (advances_by_show _ _ (currentLineIndex m) p' c'); auto.
    + rewrite S6, C. discriminate.
    + intros l1 E1. assert (l1 = l) by congruence. subst l1.
      cursors. rewrite S3, S4, S5. cursor_cases.
    + intros j lj NE Ej. cursors. rewrite S3, S4, S5. left. cursor_cases.
Qed.

(** *** What a typing step leaves alone, and what it depends on *)

Lemma showLine_rest idx pI cI m :
  lineRevealAccumulator (showLine idx pI cI m) = lineRevealAccumulator m
  /\ styles (showLine idx pI cI m) = styles m
  /\ scrollManager (showLine idx pI cI m) = scrollManager m
  /\ dialogueMask (showLine idx pI cI m) = dialogueMask m.
Proof.
  unfold showLine. destruct (nth_error (linesData m) idx); cbn; auto.
Qed.

Lemma advanceTyping_rest m :
  lineRevealAccumulator (advanceTyping m) = lineRevealAccumulator m
  /\ styles (advanceTyping m) = styles m
  /\ scrollManager (advanceTyping m) = scrollManager m
  /\ dialogueMask (advanceTyping m) = dialogueMask m.
Proof.
  unfold advanceTyping.
  destruct (isTypingComplete m); [auto|].
  destruct (nth_error (linesData m) (currentLineIndex m)) as [l|];
    [|cbn; auto].
  destruct (nth_error (parts l) (currentPartIndex m)) as [part|].
  - set (m1 := match type part with
               | text => _ | emoji => _ | _ => m end).
    assert (F : lineRevealAccumulator m1 = lineRevealAccumulator m
                /\ styles m1 = styles m
                /\ scrollManager m1 = scrollManager m
                /\ dialogueMask m1 = dialogueMask m).
    { subst m1.
      destruct (type part); [destruct (Nat.ltb _ _)| | |]; cbn; auto. }
    clearbody m1. destruct F as (F1 & F2 & F3 & F4).
    destruct (showLine_rest (currentLineIndex m1) (currentPartIndex m1)
                (currentCharacterIndex m1) m1) as (S1 & S2 & S3 & S4).
    set (m2 := showLine _ _ _ m1) in *. clearbody m2.
    destruct (Nat.leb _ _); [destruct (Nat.leb _ _)|]; cbn;
      repeat split; congruence.
  - destruct (Nat.leb _ _); [cbn; auto|].
    match goal with
    | |- context [showLine ?i ?p ?c ?x] =>
        destruct (showLine_rest i p c x) as (S1 & S2 & S3 & S4)
    end.
    cbn in *. repeat split; congruence.
Qed.

(** A typing step reads the typing state only. *)
Lemma advanceTyping_typingOf m1 m2 :
  typingOf m1 = typingOf m2 ->
  typingOf (advanceTyping m1) = typingOf (advanceTyping m2).
Proof.
  destruct m1, m2. unfold typingOf. cbn. intros H. inversion H; subst.
  unfold advanceTyping, showLine. cbn.
  repeat match goal with
         | |- context [match ?b with _ => _ end] =>
             match b with
             | context [match _ with _ => _ end] => fail 1
             | _ => destruct b eqn:?
             end; cbn
         end; reflexivity.
Qed.

Lemma iter_typingOf k m1 m2 :
  typingOf m1 = typingOf m2 ->
  typingOf (Nat.iter k advanceTyping m1)
  = typingOf (Nat.iter k advanceTyping m2).
Proof.
  intros H. induction k as [|k IH]; [exact H|].
  change (typingOf (advanceTyping (Nat.iter k advanceTyping m1))
          = typingOf (advanceTyping (Nat.iter k advanceTyping m2))).
  now apply advanceTyping_typingOf.
Qed.

(** Once complete, typing stays where it is. *)
Lemma iter_complete k m :
  isTypingComplete m = true -> Nat.iter k advanceTyping m = m.
Proof.
  intros C. induction k as [|k IH]; [reflexivity|].
  change (Nat.iter (S k) advanceTyping m)
    with (advanceTyping (Nat.iter k advanceTyping m)).
  rewrite IH. unfold advanceTyping. now rewrite C.
Qed.

(** *** Reveal units never go down *)

Lemma firstn_length_mono {A} (l : list A) a b :
  (a <= b)%nat -> (length (firstn a l) <= length (firstn b l))%nat.
Proof. intros H. rewrite !length_firstn. lia. Qed.

Lemma unitsOf_mono pI cI pI' cI' idx part v :
  (pI < pI')%nat \/ (pI = pI' /\ (cI <= cI')%nat) ->
  (unitsOf part (revealShown pI cI idx part v)
   <= unitsOf part (revealShown pI' cI' idx part v))%nat.
Proof.
  intros H. unfold revealShown, unitsOf, substring0.
  destruct (Nat.ltb_spec idx pI), (Nat.ltb_spec idx pI'); try lia.
  - destruct (Nat.eqb_spec idx pI); cbn [fst snd]; [|lia].
    destruct (type part); cbn [fst snd]; try lia.
    + destruct (snd v); cbn; [|lia]. rewrite length_firstn. lia.
    + destruct (Nat.ltb 0 cI); lia.
  - destruct (Nat.eqb_spec idx pI), (Nat.eqb_spec idx pI');
      cbn [fst snd]; try lia.
    destruct (type part); cbn [fst snd]; try lia.
    + destruct (snd v); cbn; [|lia]. apply firstn_length_mono. lia.
    + destruct (Nat.ltb_spec 0 cI), (Nat.ltb_spec 0 cI'); lia.
Qed.

Lemma unitsIn_mono pI cI pI' cI' idx ps vs :
  (pI < pI')%nat \/ (pI = pI' /\ (cI <= cI')%nat)
  \/ ((idx + length ps <= pI)%nat /\ (idx + length ps <= pI')%nat) ->
  (unitsIn ps (revealAll pI cI idx ps vs)
   <= unitsIn ps (revealAll pI' cI' idx ps vs))%nat.
Proof.
  revert idx vs. induction ps as [|part ps IH]; intros idx [|v vs] H;
    cbn [revealAll unitsIn]; try lia.
  assert (T : (unitsIn ps (revealAll pI cI (S idx) ps vs)
               <= unitsIn ps (revealAll pI' cI' (S idx) ps vs))%nat).
  { apply IH. cbn [length] in H. lia. }
  assert (E : (unitsOf part (revealShown pI cI idx part v)
               <= unitsOf part (revealShown pI' cI' idx part v))%nat).
  { destruct H as [H|[H|[H1 H2]]];
      [apply unitsOf_mono; lia | apply unitsOf_mono; lia |].
    cbn [length] in H1, H2. unfold revealShown.
    destruct (Nat.ltb_spec idx pI), (Nat.ltb_spec idx pI'); lia. }
  lia.
Qed.

Lemma lineUnits_mono eT d l l' a b :
  LineOk eT d l a -> LineOk eT d l' b -> parts l' = parts l ->
  ahead (length (parts l)) a b ->
  (lineUnits l <= lineUnits l')%nat.
Proof.
  intros (_ & _ & O) (_ & _ & O') EP A. unfold lineUnits.
  rewrite O, O', EP. unfold expected.
  apply unitsIn_mono. unfold ahead in A.
  destruct a as [p c], b as [p' c']. cbn [fst snd] in *. lia.
Qed.

Lemma list_sum_pointwise {A} (f : A -> nat) l1 l2 :
  length l2 = length l1 ->
  (forall i b, nth_error l2 i = Some b ->
     exists a, nth_error l1 i = Some a /\ (f a <= f b)%nat) ->
  (list_sum (map f l1) <= list_sum (map f l2))%nat.
Proof.
  revert l2. induction l1 as [|a l1 IH]; intros [|b l2] L H;
    cbn [length] in L; try lia.
  destruct (H 0%nat b eq_refl) as (a' & E & Le). inversion E; subst a'.
  change (f a + list_sum (map f l1) <= f b + list_sum (map f l2))%nat.
  assert (list_sum (map f l1) <= list_sum (map f l2))%nat; [|lia].
  apply IH; [lia|]. intros i b' Hb. apply (H (S i) b' Hb).
Qed.

Lemma Advances_units m m' :
  Advances m m' -> (revealedUnits m <= revealedUnits m')%nat.
Proof.
  intros (_ & _ & A3 & _ & A5). unfold revealedUnits.
  apply list_sum_pointwise; [exact A3|].
  intros i l' Hl'. destruct (A5 i l' Hl') as (l & d & N & _ & EP & O & O' & A).
  exists l. split; [exact N|]. eapply lineUnits_mono; eauto.
Qed.

(** *** The typing loop *)

Lemma typingLoop_done fuel crt m :
  Double.geb (lineRevealAccumulator m) crt = false ->
  typingLoop fuel crt m = Some m.
Proof. intros E. destruct fuel; cbn; now rewrite E. Qed.

(** *** The invariant holds in every driven state *)

(** The fields the invariant reads. *)
Definition typingFrame (m : DialogueManager) :=
  (dialogue m, emojiTextures m, typingOf m).

Lemma frame_fields m m' :
  typingFrame m' = typingFrame m ->
  dialogue m' = dialogue m /\ emojiTextures m' = emojiTextures m
  /\ linesData m' = linesData m
  /\ currentLineIndex m' = currentLineIndex m
  /\ currentPartIndex m' = currentPartIndex m
  /\ currentCharacterIndex m' = currentCharacterIndex m
  /\ isTypingComplete m' = isTypingComplete m.
Proof.
  unfold typingFrame, typingOf. intros H. inversion H. auto 10.
Qed.

Lemma Inv_frame m m' : typingFrame m' = typingFrame m -> Inv m -> Inv m'.
Proof.
  intros H (I1 & I2 & I3).
  destruct (frame_fields _ _ H) as (F1 & F2 & F3 & F4 & F5 & F6 & F7).
  unfold Inv, cursorAt. rewrite F1, F2, F3, F4, F5, F6, F7. auto.
Qed.

Lemma vis_fresh eT d l pI cI :
  parts l = parseLine (or_default (line_text d) []) ->
  map shown (partObjects l) = fresh eT (parts l) ->
  LineOk eT d (updateLineVisibility l pI cI) (pI, cI).
Proof.
  intros H1 H2. unfold LineOk.
  cbn [updateLineVisibility parts characterText partObjects Text_visible
       fst snd].
  split; [exact H1|]. split; [reflexivity|].
  now rewrite shown_revealParts, H2.
Qed.

Lemma Forall2_nth_error_r {A B} (P : A -> B -> Prop) l1 l2 i b :
  Forall2 P l1 l2 -> nth_error l2 i = Some b ->
  exists a, nth_error l1 i = Some a /\ P a b.
Proof.
  intros F. revert i. induction F as [|x y l1 l2 Pxy F IH]; intros [|i] H;
    cbn in *; try discriminate.
  - inversion H; subst. eauto.
  - apply IH, H.
Qed.

Lemma set_accumulator_frame a m :
  typingFrame (set_accumulator a m) = typingFrame m
  /\ styles (set_accumulator a m) = styles m
  /\ scrollManager (set_accumulator a m) = scrollManager m
  /\ dialogueMask (set_accumulator a m) = dialogueMask m
  /\ revealedUnits (set_accumulator a m) = revealedUnits m.
Proof. repeat split. Qed.

(** The accumulated time after [k] rounds of the loop. *)
Definition drained (crt : Double.number) (k : nat) (a : Double.number)
  : Double.number :=
  Nat.iter k (fun x => Double.sub x crt) a.

Lemma drained_S crt k a :
  drained crt (S k) a = drained crt k (Double.sub a crt).
Proof.
  unfold drained. induction k as [|k IH]; [reflexivity|].
  simpl. f_equal. exact IH.
Qed.

(** The typing loop of [update], when it ends: it has made some number
    [k] of rounds, each of which found the accumulated time at least one
    slice, took the slice off and made a typing step, and it stopped at
    the first accumulated time that was not. *)
Lemma typingLoop_steps crt fuel :
  forall m m',
    Inv m -> typingLoop fuel crt m = Some m' ->
    exists k,
      (k <= fuel)%nat
      /\ typingOf m' = typingOf (Nat.iter k advanceTyping m)
      /\ lineRevealAccumulator m' = drained crt k (lineRevealAccumulator m)
      /\ (forall j, (j < k)%nat ->
          Double.geb (drained crt j (lineRevealAccumulator m)) crt = true)
      /\ Double.geb (lineRevealAccumulator m') crt = false
      /\ Inv m'
      /\ (revealedUnits m <= revealedUnits m')%nat
      /\ dialogue m' = dialogue m
      /\ emojiTextures m' = emojiTextures m
      /\ styles m' = styles m
      /\ scrollManager m' = scrollManager m
      /\ dialogueMask m' = dialogueMask m.
Proof.
  assert (Stop : forall m, Inv m ->
            Double.geb (lineRevealAccumulator m) crt = false ->
            exists k,
              (k <= 0)%nat
              /\ typingOf m = typingOf (Nat.iter k advanceTyping m)
              /\ lineRevealAccumulator m
                 = drained crt k (lineRevealAccumulator m)
              /\ (forall j, (j < k)%nat ->
                  Double.geb (drained crt j (lineRevealAccumulator m)) crt
                  = true)
              /\ Double.geb (lineRevealAccumulator m) crt = false
              /\ Inv m
              /\ (revealedUnits m <= revealedUnits m)%nat
              /\ dialogue m = dialogue m
              /\ emojiTextures m = emojiTextures m
              /\ styles m = styles m
              /\ scrollManager m = scrollManager m
              /\ dialogueMask m = dialogueMask m).
  { intros m I G. exists 0%nat. split; [lia|]. split; [reflexivity|].
    split; [reflexivity|]. split; [intros j Hj; lia|].
    split; [exact G|]. split; [exact I|]. split; [lia|].
    repeat split; reflexivity. }
  induction fuel as [|fuel IH]; intros m m' I; cbn [typingLoop];
    destruct (Double.geb (lineRevealAccumulator m) crt) eqn:G;
    intros H; try discriminate H.
  - inversion H; subst m'. destruct (Stop m I G) as (k & K).
    exists k. exact K.
  - set (ma := set_accumulator
                 (Double.sub (lineRevealAccumulator m) crt) m) in *.
    destruct (set_accumulator_frame
                (Double.sub (lineRevealAccumulator m) crt) m)
      as (F1 & F2 & F3 & F4 & F5). fold ma in F1, F2, F3, F4, F5.
    assert (Ia : Inv ma) by (apply (Inv_frame m); auto).
    pose proof (advanceTyping_advances ma Ia) as Ad.
    destruct (advanceTyping_rest ma) as (R1 & R2 & R3 & R4).
    pose proof Ad as (D1 & D2 & _).
    destruct (frame_fields _ _ F1) as (G1 & G2 & _).
    assert (Ra : lineRevealAccumulator ma
                 = Double.sub (lineRevealAccumulator m) crt) by reflexivity.
    destruct (IH (advanceTyping ma) m' (Advances_inv ma _ Ia Ad) H)
      as (k & K1 & K2 & K3 & K4 & K5 & K6 & K7 & K8 & K9 & K10 & K11 & K12).
    rewrite R1, Ra in K3, K4.
    exists (S k). split; [lia|].
    split.
    { rewrite K2, Nat.iter_succ_r. apply iter_typingOf.
      apply advanceTyping_typingOf.
      unfold typingFrame in F1. now inversion F1. }
    split; [rewrite drained_S; exact K3|].
    split.
    { intros [|j] Hj; [exact G|]. rewrite drained_S. apply K4. lia. }
    split; [exact K5|]. split; [exact K6|].
    split.
    { pose proof (Advances_units _ _ Ad). lia. }
    repeat split; congruence.
  - inversion H; subst m'. destruct (Stop m I G) as (k & K).
    exists k. destruct K as (K0 & K). split; [lia|exact K].
Qed.

Lemma typingLoop_inv crt fuel m m' :
  Inv m -> typingLoop fuel crt m = Some m' -> Inv m'.
Proof.
  intros I H. destruct (typingLoop_steps crt fuel m m' I H)
    as (k & _ & _ & _ & _ & _ & I' & _). exact I'.
Qed.

Lemma update_inv fuel d m m' : Inv m -> update fuel d m = Some m' -> Inv m'.
Proof.
  intros I. unfold update.
  destruct (isTypingComplete m).
  { intros H; inversion H; subst. apply (Inv_frame m); [reflexivity|exact I]. }
  set (m1 := set_accumulator (Double.add (lineRevealAccumulator m) d) m).
  assert (I1 : Inv m1) by (apply (Inv_frame m); [reflexivity|exact I]).
  destruct (typingLoop fuel (charRevealTime m1) m1) as [m2|] eqn:E;
    [|discriminate].
  assert (I2 : Inv m2) by (apply (typingLoop_inv _ _ _ _ I1 E)).
  intros H; inversion H; subst. clear H.
  destruct (negb _); apply (Inv_frame m2); auto; reflexivity.
Qed.

(** One [update] of an engine that is still typing, when it returns. *)
Lemma update_steps fuel d m m' :
  Inv m -> isTypingComplete m = false -> update fuel d m = Some m' ->
  exists k,
    (k <= fuel)%nat
    /\ typingOf m' = typingOf (Nat.iter k advanceTyping m)
    /\ lineRevealAccumulator m'
       = drained (charRevealTime m) k
                 (Double.add (lineRevealAccumulator m) d)
    /\ (forall j, (j < k)%nat ->
        Double.geb (drained (charRevealTime m) j
                            (Double.add (lineRevealAccumulator m) d))
                   (charRevealTime m) = true)
    /\ Double.geb (lineRevealAccumulator m') (charRevealTime m) = false
    /\ Inv m'
    /\ (revealedUnits m <= revealedUnits m')%nat
    /\ dialogue m' = dialogue m
    /\ emojiTextures m' = emojiTextures m
    /\ styles m' = styles m.
Proof.
  intros I C. unfold update. rewrite C.
  set (m1 := set_accumulator (Double.add (lineRevealAccumulator m) d) m).
  assert (I1 : Inv m1) by (apply (Inv_frame m); [reflexivity|exact I]).
  change (charRevealTime m1) with (charRevealTime m).
  destruct (typingLoop fuel (charRevealTime m) m1) as [m2|] eqn:E;
    [|discriminate].
  destruct (typingLoop_steps _ _ _ _ I1 E)
    as (k & K1 & K2 & K3 & K4 & K5 & K6 & K7 & K8 & K9 & K10 & _).
  intros H. inversion H; subst m'. clear H.
  exists k. split; [exact K1|].
  assert (T : typingOf m2 = typingOf (Nat.iter k advanceTyping m)).
  { rewrite K2. apply iter_typingOf. reflexivity. }
  split; [destruct (negb _); exact T|].
  split; [destruct (negb _); exact K3|].
  split; [exact K4|].
  split; [destruct (negb _); exact K5|].
  split; [destruct (negb _); apply (Inv_frame m2); auto; reflexivity|].
  split; [destruct (negb _); exact K7|].
  split; [destruct (negb _); exact K8|].
  split; [destruct (negb _); exact K9|].
  destruct (negb _); exact K10.
Qed.

(** *** Typing against the clock, in whole milliseconds *)

(** With a time slice of [c] whole milliseconds and [a] whole
    milliseconds accumulated, both below 2^53, the arithmetic of the
    loop is exact: it ends after [a / c] rounds and leaves [a mod c]. *)
Lemma typingLoop_whole (c : Z) :
  (0 < c < 2 ^ 53)%Z ->
  forall n a m fuel,
    Inv m ->
    lineRevealAccumulator m = Double.ofZ a ->
    (0 <= a < Z.of_nat (S n) * c)%Z -> (a < 2 ^ 53)%Z ->
    (n <= fuel)%nat ->
    exists m',
      typingLoop fuel (Double.ofZ c) m = Some m'
      /\ typingOf m' = typingOf (Nat.iter (Z.to_nat (a / c)) advanceTyping m)
      /\ lineRevealAccumulator m' = Double.ofZ (a mod c)
      /\ Inv m'
      /\ (revealedUnits m <= revealedUnits m')%nat
      /\ dialogue m' = dialogue m
      /\ emojiTextures m' = emojiTextures m
      /\ styles m' = styles m
      /\ scrollManager m' = scrollManager m
      /\ dialogueMask m' = dialogueMask m.
Proof.
  intros Hc.
  assert (Stop : forall a m fuel,
            Inv m -> lineRevealAccumulator m = Double.ofZ a ->
            (0 <= a < c)%Z ->
            exists m',
              typingLoop fuel (Double.ofZ c) m = Some m'
              /\ typingOf m'
                 = typingOf (Nat.iter (Z.to_nat (a / c)) advanceTyping m)
              /\ lineRevealAccumulator m' = Double.ofZ (a mod c)
              /\ Inv m'
              /\ (revealedUnits m <= revealedUnits m')%nat
              /\ dialogue m' = dialogue m
              /\ emojiTextures m' = emojiTextures m
              /\ styles m' = styles m
              /\ scrollManager m' = scrollManager m
              /\ dialogueMask m' = dialogueMask m).
  { intros a m fuel I A Ha. exists m.
    assert (G : Double.geb (lineRevealAccumulator m) (Double.ofZ c) = false).
    { rewrite A, DoubleFacts.geb_ofZ by lia. apply Z.leb_gt. lia. }
    rewrite (typingLoop_done _ _ _ G).
    rewrite Z.div_small, Z.mod_small by lia.
    split; [reflexivity|]. split; [reflexivity|]. split; [exact A|].
    split; [exact I|]. split; [lia|]. repeat split; reflexivity. }
  induction n as [|n IH]; intros a m fuel I A Ha Ba Hf.
  - apply Stop; [exact I|exact A|lia].
  - destruct (Z.lt_ge_cases a c) as [Small|Big].
    { apply Stop; [exact I|exact A|lia]. }
    destruct fuel as [|fuel]; [lia|].
    cbn [typingLoop].
    assert (G : Double.geb (lineRevealAccumulator m) (Double.ofZ c) = true).
    { rewrite A, DoubleFacts.geb_ofZ by lia. apply Z.leb_le. lia. }
    rewrite G, A, DoubleFacts.sub_ofZ by lia.
    set (ma := set_accumulator (Double.ofZ (a - c)) m).
    destruct (set_accumulator_frame (Double.ofZ (a - c)) m)
      as (F1 & F2 & F3 & F4 & F5). fold ma in F1, F2, F3, F4, F5.
    assert (Ia : Inv ma) by (apply (Inv_frame m); auto).
    pose proof (advanceTyping_advances ma Ia) as Ad.
    destruct (advanceTyping_rest ma) as (R1 & R2 & R3 & R4).
    pose proof Ad as (D1 & D2 & _).
    destruct (frame_fields _ _ F1) as (G1 & G2 & _).
    destruct (IH (a - c)%Z (advanceTyping ma) fuel) as
      (m' & L1 & L2 & L3 & L4 & L5 & L6 & L7 & L8 & L9 & L10).
    + apply (Advances_inv ma); assumption.
    + rewrite R1. reflexivity.
    + rewrite Nat2Z.inj_succ in *. lia.
    + lia.
    + lia.
    + assert (Q : (a / c = (a - c) / c + 1)%Z).
      { replace a with ((a - c) + 1 * c)%Z at 1 by lia.
        rewrite Z.div_add by lia. reflexivity. }
      assert (R : (a mod c = (a - c) mod c)%Z).
      { replace a with ((a - c) + 1 * c)%Z at 1 by lia.
        rewrite Z.mod_add by lia. reflexivity. }
      assert (P : (0 <= (a - c) / c)%Z) by (apply Z.div_pos; lia).
      exists m'. split; [exact L1|].
      split.
      { rewrite L2, Q, Z2Nat.inj_add by lia.
        change (Z.to_nat 1) with 1%nat.
        rewrite Nat.add_1_r, Nat.iter_succ_r. apply iter_typingOf.
        apply advanceTyping_typingOf.
        unfold typingFrame in F1. now inversion F1. }
      split; [rewrite R; exact L3|].
      split; [exact L4|].
      split.
      { pose proof (Advances_units _ _ Ad). lia. }
      repeat split; congruence.
Qed.

(** One [update], in whole milliseconds. *)
Lemma update_whole (c a d : Z) m fuel :
  (0 < c < 2 ^ 53)%Z ->
  Inv m -> charRevealTime m = Double.ofZ c ->
  isTypingComplete m = false ->
  lineRevealAccumulator m = Double.ofZ a ->
  (0 <= a)%Z -> (0 <= d)%Z -> (a + d < 2 ^ 53)%Z ->
  (Z.to_nat ((a + d) / c) <= fuel)%nat ->
  exists m',
    update fuel (Double.ofZ d) m = Some m'
    /\ typingOf m'
       = typingOf (Nat.iter (Z.to_nat ((a + d) / c)) advanceTyping m)
    /\ lineRevealAccumulator m' = Double.ofZ ((a + d) mod c)
    /\ Inv m'
    /\ (revealedUnits m <= revealedUnits m')%nat
    /\ dialogue m' = dialogue m
    /\ emojiTextures m' = emojiTextures m
    /\ styles m' = styles m.
Proof.
  intros Hc I Crt C A Ha Hd B Hf. unfold update. rewrite C.
  set (m1 := set_accumulator
               (Double.add (lineRevealAccumulator m) (Double.ofZ d)) m).
  change (charRevealTime m1) with (charRevealTime m). rewrite Crt.
  assert (I1 : Inv m1) by (apply (Inv_frame m); [reflexivity|exact I]).
  assert (A1 : lineRevealAccumulator m1 = Double.ofZ (a + d)).
  { unfold m1. cbn [lineRevealAccumulator set_accumulator].
    rewrite A. apply DoubleFacts.add_ofZ; lia. }
  assert (Q0 : (0 <= (a + d) / c)%Z) by (apply Z.div_pos; lia).
  destruct (typingLoop_whole c Hc (Z.to_nat ((a + d) / c)) (a + d)%Z m1 fuel
              I1 A1)
    as (m2 & L1 & L2 & L3 & L4 & L5 & L6 & L7 & L8 & _).
  { rewrite Nat2Z.inj_succ, Z2Nat.id by exact Q0.
    pose proof (Z.div_mod (a + d) c ltac:(lia)) as DM.
    pose proof (Z.mod_pos_bound (a + d) c ltac:(lia)) as MB. nia. }
  { exact B. }
  { exact Hf. }
  rewrite L1. eexists. split; [reflexivity|].
  assert (T : typingOf m2
              = typingOf (Nat.iter (Z.to_nat ((a + d) / c)) advanceTyping m)).
  { rewrite L2. apply iter_typingOf. reflexivity. }
  split; [destruct (negb _); exact T|].
  split; [destruct (negb _); exact L3|].
  split; [destruct (negb _); apply (Inv_frame m2); auto; reflexivity|].
  split; [destruct (negb _); exact L5|].
  split; [destruct (negb _); exact L6|].
  split; [destruct (negb _); exact L7|].
  destruct (negb _); exact L8.
Qed.

(** The engine [m] is where [t] whole milliseconds of ticks take [m0]
    with a time slice of [c] whole milliseconds: some [k] typing steps
    on, all of them paid for, and, while typing is in progress, with
    the rest of the time in the accumulator. *)
Definition Tracks (c : Z) (m0 m : DialogueManager) (t : Z) : Prop :=
  Inv m
  /\ charRevealTime m = Double.ofZ c
  /\ exists k : nat,
       typingOf m = typingOf (Nat.iter k advanceTyping m0)
       /\ (Z.of_nat k * c <= t)%Z
       /\ (isTypingComplete m = false ->
           lineRevealAccumulator m = Double.ofZ (t - Z.of_nat k * c)
           /\ (t - Z.of_nat k * c < c)%Z).

Lemma typingOf_complete m1 m2 :
  typingOf m1 = typingOf m2 -> isTypingComplete m1 = isTypingComplete m2.
Proof. unfold typingOf. intros H. now inversion H. Qed.

Lemma Tracks_steps c m0 m t :
  (0 < c)%Z -> Tracks c m0 m t ->
  typingOf m = typingOf (Nat.iter (Z.to_nat (t / c)) advanceTyping m0).
Proof.
  intros Hc (_ & _ & k & K1 & K2 & K3).
  destruct (isTypingComplete m) eqn:C.
  - assert (L : (Z.of_nat k <= t / c)%Z)
      by (apply Z.div_le_lower_bound; lia).
    replace (Z.to_nat (t / c)) with ((Z.to_nat (t / c) - k) + k)%nat by lia.
    rewrite Nat.iter_add, iter_complete; [exact K1|].
    rewrite <- (typingOf_complete _ _ K1). exact C.
  - destruct (K3 eq_refl) as (_ & A1).
    assert (E : (t / c = Z.of_nat k)%Z).
    { symmetry. apply (Z.div_unique_pos t c _ (t - Z.of_nat k * c)); lia. }
    rewrite E, Nat2Z.id. exact K1.
Qed.

Lemma Tracks_step c m0 m t d fuel :
  (0 < c < 2 ^ 53)%Z -> Tracks c m0 m t -> (0 <= d)%Z ->
  (t + d < 2 ^ 53)%Z ->
  (Z.to_nat ((t + d) / c) <= fuel)%nat ->
  exists m',
    update fuel (Double.ofZ d) m = Some m'
    /\ Tracks c m0 m' (t + d)
    /\ (revealedUnits m <= revealedUnits m')%nat.
Proof.
  intros Hc (I & S & k & K1 & K2 & K3) Hd B Hf.
  destruct (isTypingComplete m) eqn:C.
  - exists (tickScroll (Double.ofZ d) m).
    split; [unfold update; rewrite C; reflexivity|].
    split; [|apply Nat.le_refl].
    split; [apply (Inv_frame m); [reflexivity|exact I]|].
    split; [exact S|]. exists k. split; [exact K1|]. split; [lia|].
    intros C'. cbn in C'. congruence.
  - destruct (K3 eq_refl) as (A & A1).
    set (a := (t - Z.of_nat k * c)%Z) in *.
    assert (Q : ((a + d) / c <= (t + d) / c)%Z)
      by (apply Z.div_le_mono; lia).
    assert (Q0 : (0 <= (a + d) / c)%Z) by (apply Z.div_pos; lia).
    destruct (update_whole c a d m fuel Hc I S C A)
      as (m' & U1 & U2 & U3 & U4 & U5 & U6 & U7 & U8); try lia.
    exists m'. split; [exact U1|]. split; [|exact U5].
    split; [exact U4|].
    split; [unfold charRevealTime in *; now rewrite U8|].
    exists (Z.to_nat ((a + d) / c) + k)%nat.
    pose proof (Z.div_mod (a + d) c ltac:(lia)) as DM.
    pose proof (Z.mod_pos_bound (a + d) c ltac:(lia)) as MB.
    assert (E : (Z.of_nat (Z.to_nat ((a + d) / c) + k)
                 = (a + d) / c + Z.of_nat k)%Z)
      by (rewrite Nat2Z.inj_add, Z2Nat.id by exact Q0; reflexivity).
    split.
    + rewrite U2, Nat.iter_add. apply iter_typingOf. exact K1.
    + rewrite E. split; [unfold a in *; nia|]. intros _.
      split; [|unfold a in *; nia].
      rewrite U3. f_equal. unfold a in *. nia.
Qed.

Lemma total_nonneg deltas : Forall (Z.le 0) deltas -> (0 <= total deltas)%Z.
Proof.
  induction 1 as [|d ds Hd _ IH]; [apply Z.le_refl|].
  change (0 <= d + total ds)%Z. lia.
Qed.

Lemma Tracks_run c m0 fuel deltas :
  (0 < c < 2 ^ 53)%Z ->
  forall m t,
    Tracks c m0 m t ->
    Forall (Z.le 0) deltas ->
    (t + total deltas < 2 ^ 53)%Z ->
    (Z.to_nat ((t + total deltas) / c) <= fuel)%nat ->
    exists m',
      run fuel (map Double.ofZ deltas) m = Some m'
      /\ Tracks c m0 m' (t + total deltas)
      /\ (revealedUnits m <= revealedUnits m')%nat.
Proof.
  intros Hc. induction deltas as [|d ds IH]; intros m t T F B Hf.
  - exists m. split; [reflexivity|]. split; [|lia].
    cbn [total fold_right]. now rewrite Z.add_0_r.
  - inversion F as [|x xs Hd Hds]; subst.
    pose proof (total_nonneg ds Hds) as Tot.
    cbn [total fold_right] in B, Hf. fold (total ds) in B, Hf.
    assert (T0 : (0 <= t)%Z).
    { destruct T as (_ & _ & k & _ & K2 & _). nia. }
    destruct (Tracks_step c m0 m t d fuel Hc T Hd) as (m1 & U & T1 & L1).
    { lia. }
    { etransitivity; [|exact Hf]. apply Z2Nat.inj_le.
      - apply Z.div_pos; lia.
      - apply Z.div_pos; lia.
      - apply Z.div_le_mono; lia. }
    destruct (IH m1 (t + d)%Z T1 Hds) as (m2 & R & T2 & L2).
    { lia. }
    { now rewrite <- Z.add_assoc. }
    exists m2. cbn [run map]. rewrite U. split; [exact R|]. split; [|lia].
    cbn [total fold_right]. fold (total ds). now rewrite Z.add_assoc.
Qed.

(** With a speed of [s] characters a second that divides 1000, the time
    slice is the whole number [1000 / s], and the slices in [t]
    milliseconds are its multiples. *)
Lemma slices_of_divisor (s t : Z) :
  (0 < s)%Z -> (1000 mod s = 0)%Z ->
  (0 < 1000 / s < 2 ^ 53)%Z /\ slices s t = Z.to_nat (t / (1000 / s)).
Proof.
  intros Hs Hm.
  pose proof (Z.div_mod 1000 s ltac:(lia)) as DM. rewrite Hm, Z.add_0_r in DM.
  assert (C0 : (0 < 1000 / s)%Z) by nia.
  assert (C1 : (1000 / s <= 1000)%Z) by nia.
  split; [split; [exact C0|]|].
  - apply Z.le_lt_trans with 1000%Z; [exact C1|reflexivity].
  - unfold slices. f_equal. rewrite DM at 1.
    apply Z.div_mul_cancel_l; lia.
Qed.

(** *** Typing comes to an end *)

(** The parts of every line, which are all that a typing step reads of
    the lines. *)
Definition script (m : DialogueManager) : list (list DialoguePart) :=
  map parts (linesData m).

(** The typing steps left in a part from character [cI] on, in a line
    from part [pI] on, and in the whole dialogue. *)
Definition partCost (p : DialoguePart) (cI : nat) : nat :=
  match type p with
  | text => S (length (content p) - cI)
  | _ => 1
  end.

Definition restCost (ps : list DialoguePart) : nat :=
  list_sum (map (fun p => partCost p 0) ps).

Definition lineCostAt (ps : list DialoguePart) (pI cI : nat) : nat :=
  match nth_error ps pI with
  | None => 1
  | Some p => partCost p cI + restCost (skipn (S pI) ps)
  end.

Definition laterCost (sc : list (list DialoguePart)) : nat :=
  list_sum (map (fun ps => lineCostAt ps 0 0) sc).

Definition pending (m : DialogueManager) : nat :=
  if isTypingComplete m then 0
  else
    match nth_error (script m) (currentLineIndex m) with
    | None => 1
    | Some ps =>
        lineCostAt ps (currentPartIndex m) (currentCharacterIndex m)
        + laterCost (skipn (S (currentLineIndex m)) (script m)) + 1
    end.

(** The cursor and the completion flag after a typing step, read off
    the script. *)
Definition nextLine (sc : list (list DialoguePart)) (lI : nat)
  : nat * nat * nat * bool :=
  (S lI, 0, 0, Nat.leb (length sc) (S lI))%nat.

Definition next (sc : list (list DialoguePart)) (lI pI cI : nat)
  : nat * nat * nat * bool :=
  match nth_error sc lI with
  | None => (lI, pI, cI, true)
  | Some ps =>
      match nth_error ps pI with
      | None => nextLine sc lI
      | Some p =>
          let pc := revealCursor p pI cI in
          if Nat.leb (length ps) (fst pc) then nextLine sc lI
          else (lI, fst pc, snd pc, false)
      end
  end.

Lemma script_showLine idx pI cI m : script (showLine idx pI cI m) = script m.
Proof.
  unfold script. apply nth_error_ext. intros j. rewrite !nth_error_map.
  destruct (showLine_lines idx pI cI m) as (_ & _ & _ & _ & _ & _ & _ & _ & Sh).
  rewrite Sh. destruct (Nat.eqb j idx); [|reflexivity].
  destruct (nth_error (linesData m) j); reflexivity.
Qed.

Lemma script_lookup m idx :
  nth_error (script m) idx = option_map parts (nth_error (linesData m) idx).
Proof. unfold script. apply nth_error_map. Qed.

Lemma script_length m : length (script m) = length (linesData m).
Proof. unfold script. apply length_map. Qed.

Lemma advanceTyping_next m :
  isTypingComplete m = false ->
  script (advanceTyping m) = script m
  /\ (currentLineIndex (advanceTyping m), currentPartIndex (advanceTyping m),
      currentCharacterIndex (advanceTyping m),
      isTypingComplete (advanceTyping m))
     = next (script m) (currentLineIndex m) (currentPartIndex m)
            (currentCharacterIndex m).
Proof.
  intros C. unfold advanceTyping, next. rewrite C, script_lookup.
  destruct (nth_error (linesData m) (currentLineIndex m)) as [l|];
    cbn [option_map]; [|split; reflexivity].
  destruct (nth_error (parts l) (currentPartIndex m)) as [p|].
  - set (pc := revealCursor p (currentPartIndex m) (currentCharacterIndex m)).
    set (m1 := match type p with text => _ | emoji => _ | _ => m end).
    assert (F : script m1 = script m
                /\ currentLineIndex m1 = currentLineIndex m
                /\ currentPartIndex m1 = fst pc
                /\ currentCharacterIndex m1 = snd pc
                /\ isTypingComplete m1 = false).
    { subst m1 pc. unfold revealCursor.
      destruct (type p); [destruct (Nat.ltb _ _)| | |]; cbn; auto. }
    clearbody m1. destruct F as (F0 & F1 & F2 & F3 & F4).
    destruct (showLine_lines (currentLineIndex m1) (currentPartIndex m1)
                (currentCharacterIndex m1) m1)
      as (_ & _ & S3 & S4 & S5 & S6 & _ & S8 & _).
    pose proof (script_showLine (currentLineIndex m1) (currentPartIndex m1)
                  (currentCharacterIndex m1) m1) as S0.
    set (m2 := showLine _ _ _ m1) in *. clearbody m2.
    rewrite S4, F2. unfold nextLine. rewrite script_length.
    destruct (Nat.leb (length (parts l)) (fst pc)).
    + cbn [currentLineIndex set_cursor linesData].
      rewrite S3, F1.
      assert (L : length (linesData m2) = length (linesData m))
        by (rewrite <- !script_length; congruence).
      rewrite L.
      destruct (Nat.leb (length (linesData m)) (S (currentLineIndex m)));
        (split; [unfold script in *; cbn; congruence|cbn]).
      * reflexivity.
      * rewrite S6, F4. reflexivity.
    + split; [congruence|]. rewrite S3, S4, S5, S6, F1, F2, F3, F4.
      reflexivity.
  - unfold nextLine. rewrite script_length.
    cbn [currentLineIndex set_cursor linesData].
    destruct (Nat.leb (length (linesData m)) (S (currentLineIndex m))).
    + split; reflexivity.
    + match goal with
      | |- context [showLine ?i ?a ?b ?x] =>
          destruct (showLine_lines i a b x)
            as (_ & _ & S3 & S4 & S5 & S6 & _ & _ & _);
          pose proof (script_showLine i a b x) as S0;
          set (m2 := showLine i a b x) in *
      end.
      clearbody m2. cbn in S0, S3, S4, S5, S6.
      split; [exact S0|]. rewrite S3, S4, S5, S6, C. reflexivity.
Qed.

Lemma partCost_pos p cI : (1 <= partCost p cI)%nat.
Proof. unfold partCost. destruct (type p); lia. Qed.

Lemma partCost_mono p cI : (partCost p cI <= partCost p 0)%nat.
Proof. unfold partCost. destruct (type p); lia. Qed.

Lemma lineCostAt_pos ps pI cI : (1 <= lineCostAt ps pI cI)%nat.
Proof.
  unfold lineCostAt. destruct (nth_error ps pI) as [p|]; [|lia].
  pose proof (partCost_pos p cI). lia.
Qed.

Lemma skipn_step {A} (l : list A) n x :
  nth_error l n = Some x -> skipn n l = x :: skipn (S n) l.
Proof.
  revert n. induction l as [|a l IH]; intros [|n] H; cbn in *;
    try discriminate.
  - now inversion H.
  - apply IH, H.
Qed.

Lemma restCost_step ps pI p :
  nth_error ps pI = Some p ->
  restCost (skipn pI ps) = (partCost p 0 + restCost (skipn (S pI) ps))%nat.
Proof. intros H. rewrite (skipn_step ps pI p H). reflexivity. Qed.

Lemma laterCost_step sc lI ps :
  nth_error sc lI = Some ps ->
  laterCost (skipn lI sc)
  = (lineCostAt ps 0 0 + laterCost (skipn (S lI) sc))%nat.
Proof. intros H. rewrite (skipn_step sc lI ps H). reflexivity. Qed.

(** After the last part of a line the cursor moves to the next line, or
    typing is complete: either way fewer steps are left. *)
Lemma pending_nextLine m m' n :
  isTypingComplete m = false ->
  script m' = script m ->
  (currentLineIndex m', currentPartIndex m', currentCharacterIndex m',
   isTypingComplete m') = nextLine (script m) (currentLineIndex m) ->
  (2 + laterCost (skipn (S (currentLineIndex m)) (script m)) <= n)%nat ->
  (pending m' < n)%nat.
Proof.
  intros C Sc E Hn. unfold nextLine in E.
  pose proof (f_equal (fun x => fst (fst (fst x))) E) as E1.
  pose proof (f_equal (fun x => snd (fst (fst x))) E) as E2.
  pose proof (f_equal (fun x => snd (fst x)) E) as E3.
  pose proof (f_equal snd E) as E4. cbn [fst snd] in E1, E2, E3, E4.
  unfold pending. rewrite E4, Sc, E1, E2, E3.
  destruct (Nat.leb_spec (length (script m)) (S (currentLineIndex m)))
    as [L|L]; cbv beta iota; [lia|].
  destruct (nth_error (script m) (S (currentLineIndex m))) as [ps|] eqn:N;
    [|apply nth_error_None in N; lia].
  rewrite (laterCost_step _ _ _ N) in Hn. lia.
Qed.

Lemma pending_decreases m :
  Forall (Forall ParserFacts.textOrEmoji) (script m) ->
  isTypingComplete m = false ->
  (pending (advanceTyping m) < pending m)%nat.
Proof.
  intros Ty C. destruct (advanceTyping_next m C) as [Sc E].
  unfold next in E. unfold pending at 2. rewrite C.
  destruct (nth_error (script m) (currentLineIndex m)) as [ps|] eqn:L.
  2:{ pose proof (f_equal snd E) as E4. cbn [snd] in E4.
      unfold pending. rewrite E4. lia. }
  assert (Tps : Forall ParserFacts.textOrEmoji ps).
  { apply (proj1 (Forall_forall _ _) Ty), (nth_error_In _ _ L). }
  unfold lineCostAt.
  destruct (nth_error ps (currentPartIndex m)) as [p|] eqn:P.
  2:{ apply (pending_nextLine m _ _ C Sc E). lia. }
  assert (Tp : ParserFacts.textOrEmoji p).
  { apply (proj1 (Forall_forall _ _) Tps), (nth_error_In _ _ P). }
  pose proof (partCost_pos p (currentCharacterIndex m)) as Pp.
  set (pc := revealCursor p (currentPartIndex m) (currentCharacterIndex m))
    in *.
  destruct (Nat.leb_spec (length ps) (fst pc)) as [Last|More].
  { apply (pending_nextLine m _ _ C Sc E). lia. }
  pose proof (f_equal (fun x => fst (fst (fst x))) E) as E1.
  pose proof (f_equal (fun x => snd (fst (fst x))) E) as E2.
  pose proof (f_equal (fun x => snd (fst x)) E) as E3.
  pose proof (f_equal snd E) as E4. cbn [fst snd] in E1, E2, E3, E4.
  unfold pending.
  rewrite E4, Sc, E1, L, E2, E3. unfold lineCostAt.
  apply Nat.add_lt_mono_r, Nat.add_lt_mono_r.
  subst pc. unfold revealCursor in *. unfold partCost at 2.
  destruct Tp as [T|T]; rewrite T in *.
  - destruct (Nat.ltb_spec (length (content p))
                (S (currentCharacterIndex m))) as [Past|Within];
      cbn [fst snd] in *.
    + destruct (nth_error ps (S (currentPartIndex m))) as [q|] eqn:Q;
        [|apply nth_error_None in Q; lia].
      rewrite (restCost_step ps _ q Q). lia.
    + rewrite P. unfold partCost. rewrite T. lia.
  - cbn [fst snd] in *.
    destruct (nth_error ps (S (currentPartIndex m))) as [q|] eqn:Q;
      [|apply nth_error_None in Q; lia].
    rewrite (restCost_step ps _ q Q).
    pose proof (partCost_mono q 1). lia.
Qed.

Lemma typing_ends n :
  forall m,
    Forall (Forall ParserFacts.textOrEmoji) (script m) ->
    (pending m <= n)%nat ->
    isTypingComplete (Nat.iter n advanceTyping m) = true.
Proof.
  induction n as [|n IH]; intros m Ty Hn.
  - cbn. unfold pending in Hn. destruct (isTypingComplete m); [reflexivity|].
    destruct (nth_error (script m) (currentLineIndex m)); lia.
  - destruct (isTypingComplete m) eqn:C.
    + now rewrite iter_complete.
    + rewrite Nat.iter_succ_r. apply IH.
      * destruct (advanceTyping_next m C) as [Sc _]. now rewrite Sc.
      * pose proof (pending_decreases m Ty C). lia.
Qed.

(** *** Ticks and the scroll target *)

Lemma typingLoop_scroll crt fuel :
  forall m m',
    typingLoop fuel crt m = Some m' ->
    scrollManager m' = scrollManager m /\ dialogueMask m' = dialogueMask m.
Proof.
  induction fuel as [|fuel IH]; intros m m'; cbn [typingLoop];
    destruct (Double.geb (lineRevealAccumulator m) crt);
    intros H; try discriminate H;
    try (inversion H; subst; split; reflexivity).
  apply IH in H as [H1 H2].
  destruct (advanceTyping_rest
              (set_accumulator
                 (Double.sub (lineRevealAccumulator m) crt) m))
    as (_ & _ & R3 & R4).
  rewrite H1, H2, R3, R4. split; reflexivity.
Qed.

(** X14.  A tick moves the scroll target only to follow the typing.
    Whatever a call of [update] types, it leaves the pause flag and the
    content height of the scroll controller alone and eases the content
    one frame toward the target; the target itself is untouched while
    auto-scroll is paused and once typing is complete, and is put on
    the bottom of the content otherwise. *)
Theorem update_follows_the_bottom_unless_paused
  (fuel : nat) (d : Double.number) (m m' : DialogueManager) :
  update fuel d m = Some m' ->
  let s := scrollManager m in
  let s' := scrollManager m' in
  Scroll.isScrollingPaused s' = Scroll.isScrollingPaused s
  /\ Scroll.dialogueContentHeight s' = Scroll.dialogueContentHeight s
  /\ Scroll.currentScrollY s' = Scroll.currentScrollY (Scroll.updateScroll d s)
  /\ snd (dialogueContainer m') = Scroll.currentScrollY s'
  /\ (Scroll.isScrollingPaused s = true ->
      Scroll.targetScrollY s' = Scroll.targetScrollY s)
  /\ (isTypingComplete m' = true ->
      Scroll.targetScrollY s' = Scroll.targetScrollY s)
  /\ (Scroll.isScrollingPaused s = false -> isTypingComplete m' = false ->
      Scroll.targetScrollY s' = - Scroll.getMaxScroll (maskHeight m) s).
Proof.
  unfold update. destruct (isTypingComplete m) eqn:C.
  { intros H. inversion H; subst m'. cbn.
    do 4 (split; [reflexivity|]).
    split; [intros _; reflexivity|]. split; [intros _; reflexivity|].
    intros _ X. rewrite C in X. discriminate X. }
  set (m1 := set_accumulator (Double.add (lineRevealAccumulator m) d) m).
  destruct (typingLoop fuel (charRevealTime m1) m1) as [m2|] eqn:E;
    [|discriminate].
  assert (F : scrollManager m2 = scrollManager m
              /\ dialogueMask m2 = dialogueMask m)
    by apply (typingLoop_scroll _ fuel m1 m2 E).
  destruct F as [F1 F2]. intros H. inversion H; subst m'. clear H.
  assert (M : maskHeight (tickScroll d m2) = maskHeight m)
    by (unfold maskHeight; cbn; now rewrite F2).
  rewrite M. cbv zeta. unfold tickScroll.
  cbn [isTypingComplete set_container_pos set_scroll scrollManager].
  rewrite F1.
  destruct (isTypingComplete m2) eqn:C2; cbn [negb scrollManager set_scroll
    set_container_pos dialogueContainer snd isTypingComplete].
  - do 4 (split; [reflexivity|]).
    split; [intros _; reflexivity|]. split; [intros _; reflexivity|].
    intros _ X. rewrite C2 in X. discriminate X.
  - unfold Scroll.scrollToBottom.
    change (Scroll.isScrollingPaused
              (Scroll.updateScroll d (scrollManager m)))
      with (Scroll.isScrollingPaused (scrollManager m)).
    destruct (Scroll.isScrollingPaused (scrollManager m)) eqn:P;
      cbn [scrollManager set_scroll dialogueContainer snd];
      (split; [exact P|]).
    + do 3 (split; [reflexivity|]).
      split; [intros _; reflexivity|].
      split; [intros X; rewrite C2 in X; discriminate X|].
      intros X; discriminate X.
    + do 3 (split; [reflexivity|]).
      split; [intros X; discriminate X|].
      split; [intros X; rewrite C2 in X; discriminate X|].
      intros _ _. reflexivity.
Qed.

(** *** The typing speed at its bounds *)

(** A time slice that is not positive never ends the loop. *)
Lemma loop_never_ends crt fuel :
  DoubleFacts.NonPos crt ->
  forall m,
    DoubleFacts.NonNeg (lineRevealAccumulator m) ->
    typingLoop fuel crt m = None.
Proof.
  intros Hc. induction fuel as [|fuel IH]; intros m A; cbn [typingLoop];
    rewrite (DoubleFacts.geb_by_sign _ _ A Hc); [reflexivity|].
  apply IH.
  destruct (advanceTyping_rest
              (set_accumulator
                 (Double.sub (lineRevealAccumulator m) crt) m))
    as (R1 & _).
  rewrite R1. cbn [lineRevealAccumulator set_accumulator].
  apply DoubleFacts.sub_by_sign; assumption.
Qed.

(** X15.  A typing speed of zero.  With the speed [+0] the time slice is
    [Infinity] and nothing is typed: the tick returns, and the lines,
    the cursor and the completion flag are what they were.  With the
    speed [-0] the time slice is [-Infinity], and the tick of an engine
    that is still typing never returns.  Both for an accumulated time
    that is not negative and not infinite. *)
Theorem zero_speed_never_types
  (fuel : nat) (d : Double.number) (m : DialogueManager) :
  isTypingComplete m = false ->
  Double.leb Double.zero (Double.add (lineRevealAccumulator m) d) = true ->
  Double.add (lineRevealAccumulator m) d <> Double.infinity ->
  (typingSpeed (styles m) = Double.zero ->
   exists m', update fuel d m = Some m' /\ typingOf m' = typingOf m)
  /\ (typingSpeed (styles m) = Double.negZero -> update fuel d m = None).
Proof.
  intros C A F. unfold update. rewrite C. unfold charRevealTime.
  cbn [styles set_accumulator]. split; intros Z; rewrite Z.
  - destruct DoubleFacts.slice_of_zero_speed as (-> & _).
    rewrite typingLoop_done
      by (cbn [lineRevealAccumulator set_accumulator];
          apply DoubleFacts.geb_infinity, F).
    eexists. split; [reflexivity|].
    cbn [tickScroll isTypingComplete set_container_pos set_scroll
         set_accumulator]. rewrite C. reflexivity.
  - destruct DoubleFacts.slice_of_zero_speed as (_ & -> & _).
    rewrite loop_never_ends; [reflexivity|reflexivity|exact A].
Qed.

(** X16.  With a negative typing speed a tick of an engine that is still
    typing never returns: the time slice is negative (or [-0], for the
    speed [-Infinity]), the accumulated time is not negative after any
    round of the loop, and the loop does not look at the completion
    flag; no number of rounds ends it. *)
Theorem negative_speed_never_returns
  (d : Double.number) (m : DialogueManager) :
  Double.ltb (typingSpeed (styles m)) Double.zero = true ->
  isTypingComplete m = false ->
  Double.leb Double.zero (Double.add (lineRevealAccumulator m) d) = true ->
  forall fuel, update fuel d m = None.
Proof.
  intros Hs C A fuel. unfold update. rewrite C.
  rewrite loop_never_ends; [reflexivity| |exact A].
  apply DoubleFacts.slice_of_negative_speed, Hs.
Qed.

Section WithPlatform.
Context {pf : Platform}.

Lemma buildLines_ok eT aT w ds st y acc :
  exists new st' y',
    buildLines eT aT w ds st y acc = Normal (acc ++ new, st', y')
    /\ Forall2 (fun d l => LineOk eT d l (0%nat, 0%nat)) ds new
    /\ look st' = look st.
Proof.
  revert st y acc. induction ds as [|d ds IH]; intros st y acc.
  - exists [], st, y. cbn. rewrite app_nil_r. auto.
  - cbn [buildLines].
    destruct (created_line st eT aT d w)
      as (ld & st' & E & K1 & K2 & K3 & K4).
    rewrite E.
    destruct (IH st'
                (y + (container_height (container (set_container_y y ld))
                      + lineSpacing st'))
                (acc ++ [updateLineVisibility (set_container_y y ld) 0 0]))
      as (new & st2 & y2 & E2 & F2 & L2).
    exists (updateLineVisibility (set_container_y y ld) 0 0 :: new), st2, y2.
    split; [|split].
    + rewrite E2. now rewrite <- app_assoc.
    + constructor; [|exact F2]. apply vis_fresh; assumption.
    + congruence.
Qed.

Lemma construct_inv screen ds eT aT st m :
  construct screen ds eT aT st = Normal m ->
  Inv m /\ dialogue m = ds /\ emojiTextures m = eT
  /\ currentLineIndex m = 0%nat /\ currentPartIndex m = 0%nat
  /\ currentCharacterIndex m = 0%nat /\ isTypingComplete m = false
  /\ lineRevealAccumulator m = Double.zero
  /\ typingSpeed (styles m) = typingSpeed st.
Proof.
  unfold construct, initializeDialogue.
  cbn [linesData dialogue styles emojiTextures avatarTextures appScreen
       updateMask set_container_pos set_mask].
  match goal with
  | |- context [buildLines ?a ?b ?c ?d ?e ?f ?g] =>
      destruct (buildLines_ok a b c d e f g) as (new & st' & y' & E & F & L)
  end.
  cbn [app] in E. (* the accumulator starts empty *)
  match goal with
  | |- context [buildLines ?a ?b ?c ?d ?e ?f ?g] =>
      change (buildLines a b c d e f g) with (buildLines a b c d e f g);
      rewrite E
  end.
  intros H. inversion H; subst m. clear H.
  cbn. repeat split; auto.
  - apply (Forall2_length F).
  - discriminate.
  - intros idx l Hl. destruct (Forall2_nth_error_r _ _ _ _ _ F Hl) as (d & D & O).
    exists d. split; [exact D|]. unfold cursorAt. cbn.
    destruct idx; exact O.
  - apply (look_speed _ _ L).
Qed.

(** The rebuilt lines of [resize]: one for every old line, each showing
    what the cursor of its index has revealed. *)
Lemma relayoutLines_ok m w sp idx old st y acc :
  (idx + length old <= length (dialogue m))%nat ->
  exists new st' y',
    relayoutLines m w sp idx old st y acc = Normal (acc ++ new, st', y')
    /\ length new = length old
    /\ look st' = look st
    /\ forall j l,
         nth_error new j = Some l ->
         exists d, nth_error (dialogue m) (idx + j) = Some d
                   /\ LineOk (emojiTextures m) d l (cursorAt m (idx + j) l).
Proof.
  revert idx st y acc. induction old as [|o old IH]; intros idx st y acc H.
  - exists [], st, y. cbn. rewrite app_nil_r. repeat split; auto.
    intros [|j] l; discriminate.
  - cbn [relayoutLines length] in *.
    destruct (nth_error (dialogue m) idx) as [d|] eqn:D.
    2:{ apply nth_error_None in D. lia. }
    destruct (created_line st (emojiTextures m) (avatarTextures m) d w)
      as (ld & st' & E & K1 & K2 & K3 & K4).
    rewrite E.
    set (nl := set_container_y y ld).
    assert (N1 : parts nl = parseLine (or_default (line_text d) []))
      by exact K1.
    assert (N3 : map shown (partObjects nl) = fresh (emojiTextures m) (parts nl))
      by exact K3.
    set (shownLine :=
           if Nat.ltb idx (currentLineIndex m)
           then updateLineVisibility nl (length (parts nl)) 0
           else if Nat.eqb idx (currentLineIndex m)
                then updateLineVisibility nl (currentPartIndex m)
                                          (currentCharacterIndex m)
                else updateLineVisibility nl 0 0).
    assert (O : LineOk (emojiTextures m) d shownLine
                       (cursorAt m idx shownLine)).
    { subst shownLine. unfold cursorAt.
      destruct (Nat.ltb idx (currentLineIndex m));
        [|destruct (Nat.eqb idx (currentLineIndex m))];
        apply vis_fresh; assumption. }
    destruct (IH (S idx) st'
                (y + (container_height (container nl) + sp))
                (acc ++ [shownLine]))
      as (new & st2 & y2 & E2 & L2 & K5 & F2); [lia|].
    exists (shownLine :: new), st2, y2.
    split; [rewrite E2; now rewrite <- app_assoc|].
    split; [cbn; now rewrite L2|]. split; [congruence|].
    intros [|j] l Hl; cbn in Hl.
    + inversion Hl; subst l. exists d. rewrite Nat.add_0_r. auto.
    + destruct (F2 j l Hl) as (d' & D' & O').
      exists d'. replace (idx + S j)%nat with (S idx + j)%nat by lia. auto.
Qed.

(** [resize] on a state that satisfies the invariant: it returns, the
    typing state apart from the lines is untouched, the invariant holds
    again, and so the reveal state of every line is what it was. *)
Lemma resize_inv w h m :
  Inv m ->
  exists m',
    resize w h m = Normal m'
    /\ Inv m'
    /\ dialogue m' = dialogue m
    /\ emojiTextures m' = emojiTextures m
    /\ currentLineIndex m' = currentLineIndex m
    /\ currentPartIndex m' = currentPartIndex m
    /\ currentCharacterIndex m' = currentCharacterIndex m
    /\ isTypingComplete m' = isTypingComplete m
    /\ lineRevealAccumulator m' = lineRevealAccumulator m
    /\ typingSpeed (styles m') = typingSpeed (styles m)
    /\ map revealOf (linesData m') = map revealOf (linesData m).
Proof.
  intros (I1 & I2 & I3). unfold resize.
  set (m1 := updateMask w h m).
  destruct (relayoutLines_ok m1
              (w - dialoguePadding (styles m1) * 2)
              (lineSpacing (styles m1) * Qmin 1 (Qmax (8 # 10) (w / 800)))
              0 (linesData m1) (styles m1) 0 [])
    as (new & st' & y' & E & L & K & F).
  { cbn. rewrite I1. lia. }
  cbn [app] in E. rewrite E.
  match goal with
  | |- context [Normal ?x] => exists x
  end.
  split; [reflexivity|].
  assert (P : forall (x : DialogueManager),
             linesData x = new -> dialogue x = dialogue m ->
             emojiTextures x = emojiTextures m ->
             currentLineIndex x = currentLineIndex m ->
             currentPartIndex x = currentPartIndex m ->
             currentCharacterIndex x = currentCharacterIndex m ->
             isTypingComplete x = isTypingComplete m ->
             Inv x /\ map revealOf (linesData x) = map revealOf (linesData m)).
  { intros x X1 X2 X3 X4 X5 X6 X7.
    assert (C : forall idx l, cursorAt x idx l = cursorAt m1 idx l).
    { intros. unfold cursorAt. rewrite X4, X5, X6. reflexivity. }
    split.
    - split; [|split].
      + rewrite X1, X2, L. exact I1.
      + rewrite X1, X4, X7, L. exact I2.
      + intros idx l Hl. rewrite X1 in Hl.
        destruct (F idx l Hl) as (d & D & O). cbn in D, O.
        exists d. rewrite X2, X3, C. auto.
    - rewrite X1. apply nth_error_ext. intros n.
      rewrite !nth_error_map.
      destruct (nth_error new n) as [l'|] eqn:N'.
      + destruct (F n l' N') as (d & D & O'). cbn in D, O'.
        assert (n < length (linesData m))%nat
          by (rewrite <- I1; apply nth_error_Some; congruence).
        destruct (nth_error (linesData m) n) as [l|] eqn:N;
          [|apply nth_error_None in N; lia].
        destruct (I3 n l N) as (d0 & D0 & O).
        assert (d0 = d) by congruence. subst d0.
        destruct O as (O1 & O2 & O3). destruct O' as (O1' & O2' & O3').
        cbn. unfold revealOf. rewrite O2, O2', O3, O3'.
        assert (EP : parts l' = parts l) by congruence.
        assert (EC : cursorAt m1 n l' = cursorAt m n l)
          by (unfold cursorAt; rewrite EP; reflexivity).
        now rewrite EC, EP.
      + apply nth_error_None in N'. rewrite L in N'. cbn in N'.
        apply nth_error_None in N'. rewrite N'. reflexivity. }
  match goal with
  | |- context [if ?b then _ else _] => destruct b
  end;
    (match goal with
     | |- Inv ?x /\ _ =>
         destruct (P x) as (P1 & P2); try reflexivity
     end;
     split; [exact P1|]; repeat (split; [reflexivity|]);
     split; [|exact P2]; cbn; apply (proj1 (look_speed _ _ K))).
Qed.

(** The typing state that [appendMessage] leaves. *)
Lemma appendMessage_fields line m :
  exists m' nl,
    appendMessage line m = Normal m'
    /\ parts nl = parseLine (or_default (line_text line) [])
    /\ map shown (partObjects nl) = fresh (emojiTextures m) (parts nl)
    /\ linesData m' = linesData m ++ [updateLineVisibility nl 0 0]
    /\ dialogue m' = dialogue m ++ [line]
    /\ emojiTextures m' = emojiTextures m
    /\ currentLineIndex m' = length (linesData m)
    /\ currentPartIndex m' = 0%nat
    /\ currentCharacterIndex m' = 0%nat
    /\ isTypingComplete m' = false.
Proof.
  unfold appendMessage.
  destruct (created_line (styles m) (emojiTextures m) (avatarTextures m) line
              (fst (appScreen m) - dialoguePadding (styles m) * 2))
    as (ld & st' & E & K1 & K2 & K3 & K4).
  rewrite E.
  match goal with
  | |- context [set_container_y ?v ld] => set (y := v)
  end.
  match goal with
  | |- context [showLine ?i ?p ?c ?x] =>
      destruct (showLine_lines i p c x)
        as (S1 & S2 & S3 & S4 & S5 & S6 & S7 & S8 & S9);
      pose proof (AppendFacts.showLine_last (linesData m)
                    (set_container_y y ld) x eq_refl) as F4;
      set (m3 := showLine i p c x) in *
  end.
  cbn [dialogue emojiTextures isTypingComplete set_dialogue set_lines]
    in S1, S2, S6.
  eexists. exists (set_container_y y ld).
  split; [reflexivity|]. split; [exact K1|]. split; [exact K3|].
  unfold forceScrollToBottom.
  cbn [isTypingComplete set_scroll]. rewrite S6.
  destruct (isTypingComplete m);
    cbn [isTypingComplete linesData dialogue emojiTextures currentLineIndex
         currentPartIndex currentCharacterIndex set_cursor set_scroll
         set_accumulator set_complete];
    rewrite F4, S1, S2, ?S6, length_app; cbn [length];
    repeat split; try reflexivity; lia.
Qed.

Lemma append_inv line m :
  Inv m -> isTypingComplete m = true ->
  exists m', appendMessage line m = Normal m' /\ Inv m'.
Proof.
  intros (I1 & I2 & I3) C. specialize (I2 C).
  destruct (appendMessage_fields line m)
    as (m' & nl & E & N1 & N2 & A1 & A2 & A3 & A4 & A5 & A6 & A7).
  exists m'. split; [exact E|].
  split; [|split].
  - rewrite A1, A2, !length_app. cbn. lia.
  - rewrite A7. discriminate.
  - intros idx l Hl. rewrite A1 in Hl. rewrite A2, A3.
    unfold cursorAt. rewrite A4, A5, A6.
    destruct (Nat.ltb_spec idx (length (linesData m))) as [H|H].
    + rewrite nth_error_app1 in Hl by exact H.
      destruct (I3 idx l Hl) as (d & D & O).
      exists d. split; [rewrite nth_error_app1 by lia; exact D|].
      unfold cursorAt in O.
      destruct (Nat.ltb_spec idx (currentLineIndex m)); [exact O|lia].
    + assert (idx = length (linesData m)).
      { assert (idx < length (linesData m ++ [updateLineVisibility nl 0 0]))%nat
          by (apply nth_error_Some; congruence).
        rewrite length_app in *. cbn in *. lia. }
      subst idx. rewrite Nat.eqb_refl.
      rewrite nth_error_app2, Nat.sub_diag in Hl by lia.
      cbn in Hl. inversion Hl; subst l.
      exists line. split.
      * rewrite nth_error_app2, I1, Nat.sub_diag by lia. reflexivity.
      * apply vis_fresh; assumption.
Qed.

(** Every state the host scene can bring the engine to satisfies the
    invariant. *)
Lemma Driven_inv m : Driven m -> Inv m.
Proof.
  induction 1 as [screen ds eT aT st m E
                 |fuel d m m' _ IH U
                 |w h m m' _ IH R
                 |line m m' _ IH C A
                 |s m _ IH].
  - apply (construct_inv _ _ _ _ _ _ E).
  - apply (update_inv _ _ _ _ IH U).
  - destruct (resize_inv w h m IH) as (m2 & R2 & I2 & _).
    rewrite R in R2. inversion R2; subst. exact I2.
  - destruct (append_inv line m IH C) as (m2 & A2 & I2).
    rewrite A in A2. inversion A2; subst. exact I2.
  - apply (Inv_frame m); [reflexivity|exact IH].
Qed.

(** *** What the bubbles hold *)

(** The bubble of a line and the segments it was laid out from; the
    typing animation touches neither. *)
Definition bubbleOf (l : LineRenderData) := (layout (container l), parts l).

(** The bubble of a line holds the nodes of all the segments of the
    line. *)
Definition LaidOut (leftMode : bool) (l : LineRenderData) : Prop :=
  map node (bubbleNodes l) = nodesFrom leftMode 0 (parts l).

Definition Laid (m : DialogueManager) : Prop :=
  Forall (LaidOut (isLeft (emojiPosition (styles m)))) (linesData m).

Lemma LaidOut_bubble lm l l' :
  bubbleOf l' = bubbleOf l -> LaidOut lm l -> LaidOut lm l'.
Proof.
  unfold LaidOut, bubbleNodes. intros H.
  pose proof (f_equal fst H) as H1. pose proof (f_equal snd H) as H2.
  cbn [bubbleOf fst snd] in H1, H2. now rewrite H1, H2.
Qed.

Lemma Forall_bubble lm ls :
  forall ls',
    map bubbleOf ls' = map bubbleOf ls ->
    Forall (LaidOut lm) ls -> Forall (LaidOut lm) ls'.
Proof.
  induction ls as [|l ls IH]; intros [|l' ls'] E F; try discriminate E;
    [constructor|].
  pose proof (f_equal (@tl _) E) as E2.
  pose proof (f_equal (fun x => nth_error x 0) E) as E1.
  cbn [map tl nth_error] in E1, E2.
  assert (E0 : bubbleOf l' = bubbleOf l) by congruence.
  inversion F; subst.
  constructor; [apply (LaidOut_bubble lm l); assumption|].
  apply IH; assumption.
Qed.

Lemma replaceAt_bubble idx (v x : LineRenderData) l :
  nth_error l idx = Some x -> bubbleOf v = bubbleOf x ->
  map bubbleOf (replaceAt idx v l) = map bubbleOf l.
Proof.
  revert idx. induction l as [|a r IH]; intros [|i] N E;
    cbn [nth_error replaceAt map] in *; try discriminate.
  - inversion N; subst. now rewrite E.
  - f_equal. now apply IH.
Qed.

Lemma showLine_bubble idx pI cI m :
  map bubbleOf (linesData (showLine idx pI cI m))
  = map bubbleOf (linesData m).
Proof.
  unfold showLine.
  destruct (nth_error (linesData m) idx) as [l|] eqn:E; [|reflexivity].
  cbn [linesData set_lines].
  apply (replaceAt_bubble idx _ l); [exact E|reflexivity].
Qed.

Lemma advanceTyping_bubble m :
  map bubbleOf (linesData (advanceTyping m)) = map bubbleOf (linesData m).
Proof.
  unfold advanceTyping.
  destruct (isTypingComplete m); [reflexivity|].
  destruct (nth_error (linesData m) (currentLineIndex m)) as [l|];
    [|reflexivity].
  destruct (nth_error (parts l) (currentPartIndex m)) as [part|].
  - set (m1 := match type part with
               | text => _ | emoji => _ | _ => m end).
    assert (F : linesData m1 = linesData m).
    { subst m1.
      destruct (type part); [destruct (Nat.ltb _ _)| | |]; reflexivity. }
    clearbody m1.
    pose proof (showLine_bubble (currentLineIndex m1) (currentPartIndex m1)
                  (currentCharacterIndex m1) m1) as S.
    rewrite F in S.
    set (m2 := showLine _ _ _ m1) in *. clearbody m2.
    destruct (Nat.leb _ _); [destruct (Nat.leb _ _)|]; exact S.
  - destruct (Nat.leb _ _); [reflexivity|].
    match goal with
    | |- context [showLine ?i ?p ?c ?x] => exact (showLine_bubble i p c x)
    end.
Qed.

Lemma iter_bubble k m :
  map bubbleOf (linesData (Nat.iter k advanceTyping m))
  = map bubbleOf (linesData m).
Proof.
  induction k as [|k IH]; [reflexivity|].
  change (Nat.iter (S k) advanceTyping m)
    with (advanceTyping (Nat.iter k advanceTyping m)).
  now rewrite advanceTyping_bubble.
Qed.

Lemma typingOf_lines m1 m2 :
  typingOf m1 = typingOf m2 -> linesData m1 = linesData m2.
Proof. unfold typingOf. intros H. now inversion H. Qed.

(** A tick moves no bubble and lays out none. *)
Lemma update_bubble fuel d m m' :
  Inv m -> update fuel d m = Some m' ->
  map bubbleOf (linesData m') = map bubbleOf (linesData m)
  /\ styles m' = styles m.
Proof.
  intros I U. destruct (isTypingComplete m) eqn:C.
  - unfold update in U. rewrite C in U. inversion U; subst.
    split; reflexivity.
  - destruct (update_steps fuel d m m' I C U)
      as (k & _ & T & _ & _ & _ & _ & _ & _ & _ & S).
    split; [|exact S]. rewrite (typingOf_lines _ _ T). apply iter_bubble.
Qed.

Lemma created_laid st eT aT d w :
  exists ld st',
    createDialogueLine st eT aT (Some d) w = Normal (ld, st')
    /\ LaidOut (isLeft (emojiPosition st)) ld
    /\ emojiPosition st' = emojiPosition st.
Proof.
  destruct (createDialogueLine_nodes st eT aT d w)
    as (ld & st' & g & E & G & N).
  destruct (created_line st eT aT d w) as (ld' & st'' & E' & K1 & _ & _ & L).
  rewrite E in E'. inversion E'; subst ld' st''.
  exists ld, st'. split; [exact E|]. split.
  - unfold LaidOut, bubbleNodes. rewrite G, K1. exact N.
  - destruct (look_inv _ _ L) as (_ & _ & _ & _ & _ & _ & P & _). exact P.
Qed.

Lemma buildLines_laid eT aT w lm ds :
  forall st y acc out st' y',
    isLeft (emojiPosition st) = lm ->
    Forall (LaidOut lm) acc ->
    buildLines eT aT w ds st y acc = Normal (out, st', y') ->
    Forall (LaidOut lm) out /\ emojiPosition st' = emojiPosition st.
Proof.
  induction ds as [|d ds IH]; intros st y acc out st' y' P F;
    cbn [buildLines].
  - intros H. inversion H; subst. auto.
  - destruct (created_laid st eT aT d w) as (ld & st1 & E & L & Q).
    rewrite E. intros H. apply IH in H.
    + destruct H as [H1 H2]. split; [exact H1|congruence].
    + now rewrite Q.
    + apply Forall_app. split; [exact F|]. constructor; [|constructor].
      rewrite P in L. apply (LaidOut_bubble lm ld); [reflexivity|exact L].
Qed.

Lemma relayoutLines_laid m w sp lm old :
  forall idx st y acc out st' y',
    isLeft (emojiPosition st) = lm ->
    Forall (LaidOut lm) acc ->
    relayoutLines m w sp idx old st y acc = Normal (out, st', y') ->
    Forall (LaidOut lm) out /\ emojiPosition st' = emojiPosition st.
Proof.
  induction old as [|o old IH]; intros idx st y acc out st' y' P F;
    cbn [relayoutLines].
  - intros H. inversion H; subst. auto.
  - destruct (nth_error (dialogue m) idx) as [d|];
      [|intros H; discriminate H].
    destruct (created_laid st (emojiTextures m) (avatarTextures m) d w)
      as (ld & st1 & E & L & Q).
    rewrite E. intros H. apply IH in H.
    + destruct H as [H1 H2]. split; [exact H1|congruence].
    + now rewrite Q.
    + apply Forall_app. split; [exact F|]. constructor; [|constructor].
      rewrite P in L.
      destruct (Nat.ltb _ _); [|destruct (Nat.eqb _ _)];
        apply (LaidOut_bubble lm ld); try reflexivity; exact L.
Qed.

Lemma construct_laid screen ds eT aT st m :
  construct screen ds eT aT st = Normal m ->
  Laid m /\ emojiPosition (styles m) = emojiPosition st.
Proof.
  unfold construct, initializeDialogue.
  cbn [linesData dialogue styles emojiTextures avatarTextures appScreen
       updateMask set_container_pos set_mask].
  match goal with
  | |- context [buildLines ?a ?b ?c ?d ?e ?f ?g] =>
      destruct (buildLines a b c d e f g) as [[[out st'] y']|err] eqn:E;
      [|discriminate]
  end.
  apply (buildLines_laid _ _ _ (isLeft (emojiPosition st))) in E;
    [|reflexivity|constructor].
  destruct E as [F Q]. intros H. inversion H; subst m. clear H.
  unfold Laid. cbn [styles linesData set_lines set_scroll].
  rewrite Q. auto.
Qed.

Lemma resize_laid w h m m' :
  resize w h m = Normal m' ->
  Laid m' /\ emojiPosition (styles m') = emojiPosition (styles m).
Proof.
  unfold resize. set (m1 := updateMask w h m).
  match goal with
  | |- context [relayoutLines ?a ?b ?c ?d ?e ?f ?g ?i] =>
      destruct (relayoutLines a b c d e f g i) as [[[out st'] y']|err] eqn:E;
      [|discriminate]
  end.
  apply (relayoutLines_laid _ _ _ (isLeft (emojiPosition (styles m)))) in E;
    [|reflexivity|constructor].
  destruct E as [F Q]. intros H. inversion H; subst m'. clear H.
  unfold Laid.
  destruct (_ && _); cbn [styles linesData set_lines set_scroll];
    rewrite Q; auto.
Qed.

Lemma append_laid line m m' :
  Laid m -> appendMessage line m = Normal m' ->
  Laid m' /\ emojiPosition (styles m') = emojiPosition (styles m).
Proof.
  unfold Laid, appendMessage. intros F.
  destruct (created_laid (styles m) (emojiTextures m) (avatarTextures m) line
              (fst (appScreen m) - dialoguePadding (styles m) * 2))
    as (ld & st' & E & L & Q).
  rewrite E.
  match goal with
  | |- context [set_container_y ?v ld] => set (y := v)
  end.
  match goal with
  | |- context [showLine ?i ?p ?c ?x] =>
      pose proof (showLine_bubble i p c x) as B;
      destruct (showLine_rest i p c x) as (_ & S2 & _);
      destruct (showLine_lines i p c x) as (_ & _ & _ & _ & _ & S6 & _);
      set (m3 := showLine i p c x) in *
  end.
  cbn [linesData styles isTypingComplete set_dialogue set_lines] in B, S2, S6.
  intros H. inversion H; subst m'. clear H.
  unfold forceScrollToBottom. cbn [isTypingComplete set_scroll].
  assert (G : Forall (LaidOut (isLeft (emojiPosition (styles m))))
                     (linesData m3)).
  { apply (Forall_bubble _ _ _ B). apply Forall_app. split; [exact F|].
    constructor; [|constructor].
    apply (LaidOut_bubble _ ld); [reflexivity|exact L]. }
  destruct (isTypingComplete m3);
    cbn [styles linesData set_cursor set_scroll set_accumulator set_complete];
    rewrite S2, Q; auto.
Qed.

(** In every state the host scene can bring the engine to, the bubble
    of every line holds the nodes of all the segments of the line. *)
Lemma Driven_laid m : Driven m -> Laid m.
Proof.
  induction 1 as [screen ds eT aT st m E
                 |fuel d m m' D IH U
                 |w h m m' _ IH R
                 |line m m' _ IH C A
                 |s m _ IH].
  - apply (construct_laid _ _ _ _ _ _ E).
  - destruct (update_bubble _ _ _ _ (Driven_inv m D) U) as [B S].
    unfold Laid. rewrite S. apply (Forall_bubble _ _ _ B). exact IH.
  - apply (resize_laid _ _ _ _ R).
  - apply (append_laid _ _ _ IH A).
  - exact IH.
Qed.

Lemma words_nodesFrom lm ps :
  forall idx, flat_map nodeWords (nodesFrom lm idx ps) = wordsOf ps.
Proof.
  induction ps as [|p ps IH]; intros idx; [reflexivity|].
  change (wordsOf (p :: ps))
    with (match type p with
          | text => split_on SPACE (content p)
          | _ => []
          end ++ wordsOf ps).
  cbn [nodesFrom]. rewrite flat_map_app, IH. f_equal.
  unfold nodesOf. destruct (type p); try reflexivity.
  - induction (split_on SPACE (content p)) as [|x xs IHx]; [reflexivity|].
    cbn [map flat_map nodeWords app]. now rewrite IHx.
  - destruct lm; reflexivity.
Qed.

Lemma LaidOut_words lm l : LaidOut lm l -> bubbleWords l = wordsOf (parts l).
Proof.
  unfold LaidOut, bubbleWords. intros ->. apply words_nodesFrom.
Qed.

Lemma nodesFrom_emoji lm ps :
  forall idx i,
    In (EmojiSprite i) (nodesFrom lm idx ps) ->
    (idx <= i < idx + length ps)%nat.
Proof.
  induction ps as [|p ps IH]; intros idx i H; [contradiction|].
  cbn [nodesFrom] in H. apply in_app_or in H as [H|H].
  - unfold nodesOf in H. destruct (type p).
    + apply in_map_iff in H as (x & E & _). discriminate E.
    + destruct lm; [contradiction|].
      destruct H as [E|[]]. inversion E; subst. cbn [length]. lia.
    + contradiction.
    + contradiction.
  - apply IH in H. cbn [length]. lia.
Qed.

Lemma revealAll_full_flags pI cI ps :
  forall idx vs i v,
    (idx + length ps <= pI)%nat -> length vs = length ps ->
    nth_error (revealAll pI cI idx ps vs) i = Some v -> fst v = true.
Proof.
  induction ps as [|p ps IH]; intros idx [|v0 vs] i v H L N;
    cbn [length] in *; try discriminate.
  - destruct i; discriminate N.
  - cbn [revealAll] in N. destruct i as [|i]; cbn [nth_error] in N.
    + inversion N; subst. unfold revealShown.
      destruct (Nat.ltb_spec idx pI); [reflexivity|lia].
    + apply (IH (S idx) vs i v); try lia. exact N.
Qed.

Lemma revealAll_length pI cI ps :
  forall idx vs, length (revealAll pI cI idx ps vs) = length vs.
Proof.
  induction ps as [|p ps IH]; intros idx [|v vs]; cbn [revealAll length];
    try reflexivity. now rewrite IH.
Qed.

(** When all of a line has been revealed, every node of its bubble is
    displayed. *)
Lemma full_line_visible eT lm l :
  LaidOut lm l ->
  map shown (partObjects l) = expected eT (parts l) (length (parts l)) 0 ->
  forall p, In p (bubbleNodes l) -> nodeVisible l p = true.
Proof.
  intros L S p Hp. unfold nodeVisible.
  destruct (node p) as [word|i] eqn:Np; [reflexivity|].
  assert (Hi : In (EmojiSprite i) (nodesFrom lm 0 (parts l))).
  { rewrite <- L, <- Np. apply in_map. exact Hp. }
  apply nodesFrom_emoji in Hi.
  assert (Len : length (partObjects l) = length (parts l)).
  { apply (f_equal (@length _)) in S. rewrite length_map in S.
    rewrite S. unfold expected, fresh.
    now rewrite revealAll_length, length_map. }
  destruct (nth_error (partObjects l) i) as [o|] eqn:N;
    [|apply nth_error_None in N; lia].
  pose proof (map_nth_error shown _ _ N) as M. rewrite S in M.
  unfold expected in M.
  apply revealAll_full_flags in M; [exact M|cbn; lia|].
  unfold fresh. now rewrite length_map.
Qed.



(** The part objects of a line whose cursor is at its start record no
    reveal unit. *)
Lemma unitsIn_hidden k ps vs : unitsIn ps (revealAll 0 0 k ps vs) = 0%nat.
Proof.
  revert k vs. induction ps as [|p ps IH]; intros k [|v vs];
    cbn [revealAll unitsIn]; try reflexivity.
  rewrite IH, Nat.add_0_r. unfold unitsOf, revealShown.
  destruct k; cbn; destruct (type p); cbn; try reflexivity;
    destruct (snd v); reflexivity.
Qed.



(** An engine as constructed tracks itself at time 0. *)
Lemma Tracks_start screen ds eT aT st m0 (s : Z) :
  construct screen ds eT aT st = Normal m0 ->
  typingSpeed st = Double.ofZ s ->
  (0 < s)%Z -> (1000 mod s = 0)%Z ->
  Tracks (1000 / s) m0 m0 0.
Proof.
  intros E Sp Hs Hm.
  destruct (construct_inv _ _ _ _ _ _ E)
    as (I & _ & _ & _ & _ & _ & _ & A & S).
  destruct (slices_of_divisor s 0 Hs Hm) as [Hc _].
  split; [exact I|]. split.
  { unfold charRevealTime. rewrite S, Sp.
    apply DoubleFacts.slice_of_divisor; assumption. }
  exists 0%nat. split; [reflexivity|].
  change (Z.of_nat 0 * (1000 / s))%Z with 0%Z.
  split; [lia|]. intros _. split; [|lia].
  rewrite A. symmetry. apply DoubleFacts.ofZ_0.
Qed.


(** *** The engine from construction to completion *)

Lemma Inv_script m :
  Inv m -> Forall (Forall ParserFacts.textOrEmoji) (script m).
Proof.
  intros (_ & _ & I3). apply Forall_forall. intros ps Hps.
  unfold script in Hps. apply in_map_iff in Hps as (l & <- & Hl).
  apply In_nth_error in Hl as [idx Hl].
  destruct (I3 idx l Hl) as (d & _ & -> & _).
  apply ParserFacts.parseLine_types.
Qed.

Lemma list_sum_zero {A} (f : A -> nat) l :
  (forall x, In x l -> f x = 0%nat) -> list_sum (map f l) = 0%nat.
Proof.
  induction l as [|a l IH]; intros H; [reflexivity|].
  change (f a + list_sum (map f l) = 0)%nat.
  rewrite (H a (or_introl eq_refl)), IH; [reflexivity|].
  intros x Hx. apply H. now right.
Qed.

Lemma construct_returns screen ds eT aT st :
  exists m, construct screen ds eT aT st = Normal m.
Proof.
  unfold construct, initializeDialogue.
  cbn [linesData dialogue styles emojiTextures avatarTextures appScreen
       updateMask set_container_pos set_mask].
  match goal with
  | |- context [buildLines ?a ?b ?c ?d ?e ?f ?g] =>
      destruct (buildLines_ok a b c d e f g) as (new & st' & y' & E & _)
  end.
  rewrite E. eauto.
Qed.

(** X10.  Construction from a list of line records never throws, and
    the engine it returns has one rendered line for every record and
    is ready to type from the start of the first line: cursor (0, 0, 0),
    typing not complete, no time accumulated, and no reveal unit
    recorded in any part object (the text objects carry no character,
    the emoji objects are flagged hidden).  The bubbles are complete
    all the same: the label of every line is visible, and the bubble
    of every line holds a node for every word of the text segments of
    the line and, with emojis in line, the object of every emoji. *)
Theorem constructed_engine_has_typed_nothing (screen : Q * Q)
  (ds : list DialogueLine) (eT aT : TextureMap) (st : DialogueStyles) :
  exists m,
    construct screen ds eT aT st = Normal m
    /\ dialogue m = ds
    /\ length (linesData m) = length ds
    /\ revealedUnits m = 0%nat
    /\ typingCursor m = (0, 0, 0)%nat
    /\ isTypingComplete m = false
    /\ lineRevealAccumulator m = Double.zero
    /\ forall l,
         In l (linesData m) ->
         Text_visible (characterText l) = true
         /\ map node (bubbleNodes l)
            = nodesFrom (isLeft (emojiPosition st)) 0 (parts l)
         /\ bubbleWords l = wordsOf (parts l).
Proof.
  destruct (construct_returns screen ds eT aT st) as (m & E).
  destruct (construct_inv _ _ _ _ _ _ E)
    as ((I1 & I2 & I3) & A1 & A2 & A3 & A4 & A5 & A6 & A7 & _).
  destruct (construct_laid _ _ _ _ _ _ E) as [L P].
  exists m. split; [exact E|]. split; [exact A1|].
  split; [rewrite <- I1, A1; reflexivity|].
  split; [|split; [unfold typingCursor; now rewrite A3, A4, A5|]].
  - unfold revealedUnits.
    assert (Z : forall l, In l (linesData m) -> lineUnits l = 0%nat).
    { intros l Hl. apply In_nth_error in Hl as [idx Hl].
      destruct (I3 idx l Hl) as (d & _ & _ & _ & O3).
      unfold lineUnits. rewrite O3. unfold cursorAt. rewrite A3, A4, A5.
      destruct idx; cbn [Nat.ltb Nat.leb Nat.eqb fst snd];
        apply unitsIn_hidden. }
    apply list_sum_zero, Z.
  - split; [exact A6|]. split; [exact A7|].
    intros l Hl.
    pose proof (proj1 (Forall_forall _ _) L l Hl) as Ll. rewrite P in Ll.
    pose proof Hl as Hn. apply In_nth_error in Hn as [idx Hn].
    destruct (I3 idx l Hn) as (d & _ & _ & O2 & _).
    split; [exact O2|]. split; [exact Ll|].
    apply (LaidOut_words _ _ Ll).
Qed.

(** X11.  Typing comes to an end.  In every state the engine reaches
    when it is driven as its host drives it, [pending] typing steps
    complete the typing: one step for every character of a text
    segment, one more to close the segment, one for every emoji, and
    one at the very end of an empty dialogue. *)
Theorem typing_comes_to_an_end (m : DialogueManager) :
  Driven m ->
  isTypingComplete (Nat.iter (pending m) advanceTyping m) = true.
Proof.
  intros D. apply typing_ends; [|apply Nat.le_refl].
  apply Inv_script, Driven_inv, D.
Qed.

(** The units of a line when all of its parts are revealed. *)
Definition allUnits (ps : list DialoguePart) : nat :=
  list_sum (map (fun p => match type p with
                          | text => length (content p)
                          | _ => 1%nat
                          end) ps).

Lemma unitsIn_all eT pI cI ps :
  forall idx,
    (idx + length ps <= pI)%nat ->
    unitsIn ps (revealAll pI cI idx ps (fresh eT ps)) = allUnits ps.
Proof.
  induction ps as [|p ps IH]; intros idx H; [reflexivity|].
  cbn [fresh map revealAll unitsIn length] in *.
  fold (fresh eT ps). rewrite IH by lia.
  unfold allUnits. cbn [map list_sum]. f_equal.
  unfold revealShown, unitsOf.
  destruct (Nat.ltb_spec idx pI) as [_|X]; [|lia]. cbn [fst snd].
  unfold shapeOf. destruct (type p); reflexivity.
Qed.

(** X12.  When typing is complete every part is revealed and every
    node of every bubble is displayed.  In every driven state whose
    typing is complete, each line has its label visible and all of its
    part objects revealed, every character of every text segment and
    every emoji; its bubble holds a node for every word of its text
    segments and, with emojis in line, the object of every emoji (with
    emojis in the left column the bubble holds the words only, and the
    emoji objects are in no container); and every node in the bubble
    is displayed. *)
Theorem complete_typing_reveals_every_part (m : DialogueManager) :
  Driven m -> isTypingComplete m = true ->
  forall idx l,
    nth_error (linesData m) idx = Some l ->
    Text_visible (characterText l) = true
    /\ lineUnits l = allUnits (parts l)
    /\ (exists d, nth_error (dialogue m) idx = Some d
                  /\ parts l = parseLine (or_default (line_text d) []))
    /\ map node (bubbleNodes l)
       = nodesFrom (isLeft (emojiPosition (styles m))) 0 (parts l)
    /\ bubbleWords l = wordsOf (parts l)
    /\ forall p, In p (bubbleNodes l) -> nodeVisible l p = true.
Proof.
  intros D C idx l Hl. destruct (Driven_inv m D) as (_ & I2 & I3).
  pose proof (proj1 (Forall_forall _ _) (Driven_laid m D) l
                (nth_error_In _ _ Hl)) as L.
  specialize (I2 C). destruct (I3 idx l Hl) as (d & Hd & O1 & O2 & O3).
  assert (idx < length (linesData m))%nat
    by (apply nth_error_Some; congruence).
  unfold cursorAt in O3.
  destruct (Nat.ltb_spec idx (currentLineIndex m)) as [_|X]; [|lia].
  cbn [fst snd] in O3.
  split; [exact O2|]. split.
  { unfold lineUnits. rewrite O3. apply unitsIn_all. lia. }
  split; [eauto|]. split; [exact L|].
  split; [apply (LaidOut_words _ _ L)|].
  apply (full_line_visible (emojiTextures m) _ l L O3).
Qed.

(** X13.  Typing is done in time.  Tick an engine as constructed, with
    a typing speed that divides 1000, with deltas that are whole,
    non-negative numbers of milliseconds, fewer than 2^53 in all: as
    soon as the time slices of the elapsed time are as many as the
    typing steps pending at the start, typing is complete. *)
Theorem typing_completes_in_time screen ds eT aT st m0
  (s : Z) (deltas : list Z) (fuel : nat) :
  construct screen ds eT aT st = Normal m0 ->
  typingSpeed st = Double.ofZ s ->
  (0 < s)%Z -> (1000 mod s = 0)%Z ->
  Forall (Z.le 0) deltas ->
  (total deltas < 2 ^ 53)%Z ->
  (pending m0 <= slices s (total deltas))%nat ->
  (slices s (total deltas) <= fuel)%nat ->
  exists m,
    run fuel (map Double.ofZ deltas) m0 = Some m
    /\ isTypingComplete m = true.
Proof.
  intros E Sp Hs Hm F B Hp Hf.
  pose proof (Tracks_start _ _ _ _ _ _ _ E Sp Hs Hm) as T0.
  pose proof T0 as (I & _).
  destruct (slices_of_divisor s (total deltas) Hs Hm) as [Hc Z1].
  set (c := (1000 / s)%Z) in *.
  destruct (Tracks_run c m0 fuel deltas Hc m0 0%Z T0 F)
    as (m & R & T1 & _).
  { rewrite Z.add_0_l. exact B. }
  { rewrite Z.add_0_l, <- Z1. exact Hf. }
  rewrite Z.add_0_l in T1.
  exists m. split; [exact R|].
  pose proof (Tracks_steps _ _ _ _ (proj1 Hc) T1) as TS. rewrite <- Z1 in TS.
  rewrite (typingOf_complete _ _ TS).
  apply typing_ends; [apply Inv_script, I|exact Hp].
Qed.

(** X29.  One tick, in the arithmetic of the program.  When [update]
    returns on a driven engine that is still typing, it has added the
    delta to the accumulated time and made some number [k] of typing
    steps: before each of them the accumulated time was at least one
    time slice [1000 / typingSpeed], each took one slice off, and the
    time left is less than a slice, all in double arithmetic with its
    rounding.  The reveal units recorded in the part objects have not
    decreased. *)
Theorem tick_types_while_a_slice_is_paid (fuel : nat) (d : Double.number)
  (m m' : DialogueManager) :
  Driven m -> isTypingComplete m = false -> update fuel d m = Some m' ->
  exists k,
    (k <= fuel)%nat
    /\ typingOf m' = typingOf (Nat.iter k advanceTyping m)
    /\ lineRevealAccumulator m'
       = drained (charRevealTime m) k
                 (Double.add (lineRevealAccumulator m) d)
    /\ (forall j, (j < k)%nat ->
        Double.geb (drained (charRevealTime m) j
                            (Double.add (lineRevealAccumulator m) d))
                   (charRevealTime m) = true)
    /\ Double.geb (lineRevealAccumulator m') (charRevealTime m) = false
    /\ (revealedUnits m <= revealedUnits m')%nat.
Proof.
  intros D C U.
  destruct (update_steps fuel d m m' (Driven_inv m D) C U)
    as (k & K1 & K2 & K3 & K4 & K5 & _ & K7 & _).
  exists k. auto 10.
Qed.

(** X30.  The words of a line are in its bubble from the start.  In
    every state the engine reaches when it is driven as its host
    drives it, wherever the cursor is, the bubble of every line holds,
    in reading order, a node for every word of every text segment of
    the text of its payload entry and, with emojis in line, the object
    of every emoji segment.  A word node is a new [Text], visible from
    the moment it is made, and the typing goes on in the part objects:
    it does not change what text a bubble holds. *)
Theorem bubbles_hold_every_word_from_the_start (m : DialogueManager) :
  Driven m ->
  forall idx l,
    nth_error (linesData m) idx = Some l ->
    exists d,
      nth_error (dialogue m) idx = Some d
      /\ parts l = parseLine (or_default (line_text d) [])
      /\ map node (bubbleNodes l)
         = nodesFrom (isLeft (emojiPosition (styles m))) 0 (parts l)
      /\ bubbleWords l = wordsOf (parts l).
Proof.
  intros D idx l Hl. destruct (Driven_inv m D) as (_ & _ & I3).
  pose proof (proj1 (Forall_forall _ _) (Driven_laid m D) l
                (nth_error_In _ _ Hl)) as L.
  destruct (I3 idx l Hl) as (d & Hd & O1 & _).
  exists d. split; [exact Hd|]. split; [exact O1|]. split; [exact L|].
  apply (LaidOut_words _ _ L).
Qed.

(** *** Appending and resizing *)

(** X17.  [appendMessage] adds below and touches nothing above: the
    rendered lines and the payload are the old ones with the new line
    at the end; the new line has its label visible, no reveal unit
    recorded in its part objects yet, and a bubble that already holds
    a node for every word of its text segments and, with emojis in
    line, the object of every emoji; it sits one line spacing under
    the lower edge of the line that was last (at the top when there
    was none); and the content height reported to the scroll
    controller is the lower edge of the new line. *)
Theorem appendMessage_adds_below (line : DialogueLine) (m : DialogueManager) :
  exists m' nl,
    appendMessage line m = Normal m'
    /\ linesData m' = linesData m ++ [nl]
    /\ dialogue m' = dialogue m ++ [line]
    /\ parts nl = parseLine (or_default (line_text line) [])
    /\ lineUnits nl = 0%nat
    /\ map node (bubbleNodes nl)
       = nodesFrom (isLeft (emojiPosition (styles m))) 0 (parts nl)
    /\ bubbleWords nl = wordsOf (parts nl)
    /\ Text_visible (characterText nl) = true
    /\ container_y (container nl)
       = match last (map Some (linesData m)) None with
         | Some lastLine =>
             container_y (container lastLine)
             + container_height (container lastLine)
             + lineSpacing (styles m)
         | None => 0
         end
    /\ Scroll.dialogueContentHeight (scrollManager m')
       = container_y (container nl) + container_height (container nl).
Proof.
  unfold appendMessage.
  destruct (created_line (styles m) (emojiTextures m) (avatarTextures m) line
              (fst (appScreen m) - dialoguePadding (styles m) * 2))
    as (ld & st' & E & K1 & K2 & K3 & K4).
  destruct (created_laid (styles m) (emojiTextures m) (avatarTextures m) line
              (fst (appScreen m) - dialoguePadding (styles m) * 2))
    as (ld2 & st2 & E2 & L2 & _).
  rewrite E in E2. inversion E2; subst ld2 st2. clear E2.
  rewrite E.
  match goal with
  | |- context [set_container_y ?v ld] => set (y := v)
  end.
  match goal with
  | |- context [showLine ?i ?p ?c ?x] =>
      destruct (showLine_lines i p c x)
        as (S1 & S2 & S3 & S4 & S5 & S6 & S7 & S8 & S9);
      destruct (showLine_rest i p c x) as (_ & _ & R3 & R4);
      pose proof (AppendFacts.showLine_last (linesData m)
                    (set_container_y y ld) x eq_refl) as F4;
      set (m3 := showLine i p c x) in *
  end.
  cbn [dialogue emojiTextures isTypingComplete set_dialogue set_lines]
    in S1, S2, S6.
  destruct (vis_fresh (emojiTextures m) line (set_container_y y ld) 0 0
              K1 K3) as (V1 & V2 & V3).
  eexists. exists (updateLineVisibility (set_container_y y ld) 0 0).
  split; [reflexivity|].
  unfold forceScrollToBottom.
  cbn [isTypingComplete set_scroll]. rewrite S6.
  assert (U : lineUnits (updateLineVisibility (set_container_y y ld) 0 0)
              = 0%nat).
  { unfold lineUnits. rewrite V3. apply unitsIn_hidden. }
  assert (L : LaidOut (isLeft (emojiPosition (styles m)))
                      (updateLineVisibility (set_container_y y ld) 0 0)).
  { apply (LaidOut_bubble _ ld); [reflexivity|exact L2]. }
  destruct (isTypingComplete m);
    cbn [isTypingComplete linesData dialogue emojiTextures currentLineIndex
         currentPartIndex currentCharacterIndex set_cursor set_scroll
         set_accumulator set_complete scrollManager];
    rewrite F4, S1, AppendFacts.forceScrollToBottom_content,
      AppendFacts.updateContentHeight_content;
    (split; [reflexivity|]); (split; [reflexivity|]);
    (split; [exact V1|]); (split; [exact U|]);
    (split; [exact L|]); (split; [exact (LaidOut_words _ _ L)|]);
    (split; [exact V2|]);
    split; reflexivity.
Qed.

(** X18.  A resize in the middle of typing takes over the scroll
    position: when typing is in progress on one of the lines, [resize]
    aims the view at the cursor line, a third of the mask height from
    the top as far as the scroll bounds allow, pauses auto-scroll and
    schedules the timer that resumes it. *)
Theorem resize_while_typing_aims_at_cursor_line
  (w h : Q) (m : DialogueManager) :
  Driven m ->
  isTypingComplete m = false ->
  (currentLineIndex m < length (linesData m))%nat ->
  exists m' l,
    resize w h m = Normal m'
    /\ nth_error (linesData m') (currentLineIndex m) = Some l
    /\ Scroll.isScrollingPaused (scrollManager m') = true
    /\ Scroll.scrollPauseTimeout (scrollManager m') = true
    /\ Scroll.targetScrollY (scrollManager m')
       = Scroll.clamp (maskHeight m') (scrollManager m')
           (- container_y (container l) + maskHeight m' / 3).
Proof.
  intros D C Hlt. destruct (Driven_inv m D) as (I1 & I2 & I3).
  unfold resize.
  set (m1 := updateMask w h m).
  destruct (relayoutLines_ok m1
              (w - dialoguePadding (styles m1) * 2)
              (lineSpacing (styles m1) * Qmin 1 (Qmax (8 # 10) (w / 800)))
              0 (linesData m1) (styles m1) 0 [])
    as (new & st' & y' & E & L & K & F).
  { cbn. rewrite I1. lia. }
  cbn [app] in E. rewrite E.
  cbn [isTypingComplete currentLineIndex linesData set_scroll set_lines
       m1 updateMask set_container_pos set_mask].
  rewrite C. cbn [negb andb].
  assert (Ln : length new = length (linesData m)) by exact L.
  rewrite Ln. rewrite (proj2 (Nat.ltb_lt _ _) Hlt).
  destruct (nth_error new (currentLineIndex m)) as [l|] eqn:N;
    [|apply nth_error_None in N; lia].
  eexists. exists l. split; [reflexivity|].
  cbn [linesData set_scroll set_lines scrollManager maskHeight dialogueMask
       set_container_pos set_mask m1 updateMask].
  split; [exact N|]. split; [reflexivity|]. split; [reflexivity|].
  reflexivity.
Qed.

(** X19.  The rendered lines stay in step with the payload.  In every
    state the engine reaches when it is driven as its host drives it
    there is one rendered line for every payload entry, and line [i]
    has the segments of the text of entry [i], one display object for
    every segment, and a visible label. *)
Theorem lines_stay_in_step_with_payload (m : DialogueManager) :
  Driven m ->
  length (linesData m) = length (dialogue m)
  /\ forall idx l,
       nth_error (linesData m) idx = Some l ->
       exists d,
         nth_error (dialogue m) idx = Some d
         /\ parts l = parseLine (or_default (line_text d) [])
         /\ length (partObjects l) = length (parts l)
         /\ Text_visible (characterText l) = true.
Proof.
  intros D. destruct (Driven_inv m D) as (I1 & _ & I3).
  split; [now rewrite I1|]. intros idx l Hl.
  destruct (I3 idx l Hl) as (d & Hd & O1 & O2 & O3).
  exists d. split; [exact Hd|]. split; [exact O1|]. split; [|exact O2].
  apply (f_equal (@length _)) in O3. rewrite length_map in O3.
  rewrite O3. unfold expected, fresh.
  now rewrite revealAll_length, length_map.
Qed.

End WithPlatform.

(** *** Worked examples *)

Import Sample.



(** An emoji step reveals two units at once: the emoji and the first
    character of the text behind it. *)
Lemma emoji_step_shows_two_units :
  exists m0 m,
    @construct (fixedPitch 10) (830, 600)
               [says "A" "{smile}ab"; says "B" "cd"]
               smileOnly noTextures (sampleStyles 10) = Normal m0
    /\ revealedUnits m0 = 0%nat
    /\ advanceTyping m0 = m
    /\ typingCursor m = (0, 1, 1)%nat
    /\ revealedUnits m = 2%nat.
Proof.
  eexists. eexists. split; [vm_compute; reflexivity|].
  split; [vm_compute; reflexivity|].
  split; [reflexivity|]. split; vm_compute; reflexivity.
Qed.

(** At thirty characters a second the time slice 1000 / 30 is rounded
    up to the double 4691249611844267 * 2^-47, a little more than
    33 1/3 ms: a tick of 100 ms pays for two typing steps, not for the
    three of floor(30 * 100 / 1000), and leaves just under a slice. *)
Lemma thirty_a_second_rounds_the_slice :
  exists m0 m,
    @construct (fixedPitch 10) (830, 600) twoLines noTextures noTextures
               (sampleStyles 30) = Normal m0
    /\ charRevealTime m0 = S754_finite false 4691249611844267 (-47)
    /\ update 5 (Double.ofZ 100) m0 = Some m
    /\ typingOf m = typingOf (Nat.iter 2 advanceTyping m0)
    /\ typingOf m <> typingOf (Nat.iter 3 advanceTyping m0)
    /\ slices 30 100 = 3%nat.
Proof.
  eexists. eexists. split; [vm_compute; reflexivity|].
  split; [vm_compute; reflexivity|].
  split; [vm_compute; reflexivity|].
  split; [vm_compute; reflexivity|].
  split; [vm_compute; discriminate|reflexivity].
Qed.



(** The typing of the text is not on screen.  One tick into the typing
    of [twoLines], before and after a [resize], the part objects of the
    first line carry the one character typed so far and those of the
    second line none, while the bubbles display the whole text of both
    lines: the layout has put a new, visible [Text] into the bubble for
    every word and has left the [Text] objects that are typed into out
    of the scene. *)
Lemma typed_text_is_not_what_the_bubble_displays :
  exists m0 m m',
    opening = Normal m0
    /\ update 1 (Double.ofZ 100) m0 = Some m
    /\ @resize (fixedPitch 10) 500 600 m = Normal m'
    /\ typingCursor m = (0, 0, 1)%nat
    /\ map lineUnits (linesData m) = [1; 0]%nat
    /\ map lineUnits (linesData m') = [1; 0]%nat
    /\ map bubbleWords (linesData m) = [[of_string "ab"]; [of_string "cd"]]
    /\ map bubbleWords (linesData m') = [[of_string "ab"]; [of_string "cd"]]
    /\ map unitsOnScreen (linesData m') = [2; 2]%nat.
Proof.
  do 3 eexists. split; [vm_compute; reflexivity|].
  split; [vm_compute; reflexivity|].
  split; [vm_compute; reflexivity|].
  split; [vm_compute; reflexivity|].
  split; [vm_compute; reflexivity|].
  split; [vm_compute; reflexivity|].
  split; [vm_compute; reflexivity|].
  split; vm_compute; reflexivity.
Qed.

(** Outside the driven states the reveal state is not kept: a message
    appended while the first line is being typed moves the cursor to the
    new line, and a [resize] after it reveals the lines left behind in
    full. *)
Lemma resize_after_early_append_reveals :
  exists m0 m1 m2 m3,
    opening = Normal m0
    /\ update 1 (Double.ofZ 100) m0 = Some m1
    /\ isTypingComplete m1 = false
    /\ @appendMessage (fixedPitch 10) (says "C" "ef") m1 = Normal m2
    /\ @resize (fixedPitch 10) 500 600 m2 = Normal m3
    /\ typingCursor m2 = typingCursor m3
    /\ revealedUnits m2 = 1%nat
    /\ revealedUnits m3 = 4%nat.
Proof.
  do 4 eexists. split; [vm_compute; reflexivity|].
  split; [vm_compute; reflexivity|].
  split; [vm_compute; reflexivity|].
  split; [vm_compute; reflexivity|].
  split; [vm_compute; reflexivity|].
  split; [vm_compute; reflexivity|].
  split; vm_compute; reflexivity.
Qed.

(** The engine of [opening] and its state one tick of [d] ms later, for
    the examples below. *)
Ltac with_opening k :=
  let c := eval vm_compute in opening in
  match c with
  | Normal ?m0 =>
      let E := fresh "E" in
      assert (E : opening = Normal m0) by (vm_compute; reflexivity);
      k m0 E
  end.

Ltac with_tick fuel d k :=
  with_opening ltac:(fun m0 E =>
    let r := eval vm_compute in (update fuel d m0) in
    match r with
    | Some ?m =>
        let U := fresh "U" in
        assert (U : update fuel d m0 = Some m) by (vm_compute; reflexivity);
        let D := fresh "D" in
        assert (D : @Driven (fixedPitch 10) m)
          by exact (@driven_update (fixedPitch 10) fuel d m0 m
                      (@driven_construct (fixedPitch 10) (830, 600) twoLines
                         noTextures noTextures (sampleStyles 10) m0 E) U);
        k m0 m E U D
    end).

Lemma typing_comes_to_an_end_witness :
  exists m0 m,
    opening = Normal m0 /\ update 1 (Double.ofZ 100) m0 = Some m
    /\ pending m = 6%nat
    /\ isTypingComplete (Nat.iter 6 advanceTyping m) = true.
Proof.
  with_tick 1%nat (Double.ofZ 100) ltac:(fun m0 m E U D =>
    exists m0, m; split; [exact E|]; split; [exact U|];
    split; [vm_compute; reflexivity|];
    exact (@typing_comes_to_an_end (fixedPitch 10) m D)).
Defined.

Lemma complete_typing_reveals_every_part_witness :
  exists m0 m l,
    opening = Normal m0 /\ update 10 (Double.ofZ 1000) m0 = Some m
    /\ nth_error (linesData m) 1 = Some l
    /\ lineUnits l = allUnits (parts l)
    /\ allUnits (parts l) = 2%nat
    /\ bubbleWords l = wordsOf (parts l).
Proof.
  with_tick 10%nat (Double.ofZ 1000) ltac:(fun m0 m E U D =>
    let l := eval vm_compute in (nth_error (linesData m) 1) in
    match l with
    | Some ?l =>
        exists m0, m, l; split; [exact E|]; split; [exact U|];
        split; [vm_compute; reflexivity|];
        destruct (@complete_typing_reveals_every_part (fixedPitch 10) m D
                    ltac:(vm_compute; reflexivity) 1%nat l
                    ltac:(vm_compute; reflexivity))
          as (_ & A & _ & _ & B & _);
        split; [exact A|]; split; [vm_compute; reflexivity|exact B]
    end).
Defined.

Lemma typing_completes_in_time_witness :
  exists m0 m,
    opening = Normal m0
    /\ run 8 (map Double.ofZ [400; 400]%Z) m0 = Some m
    /\ isTypingComplete m = true.
Proof.
  with_opening ltac:(fun m0 E =>
    destruct (@typing_completes_in_time (fixedPitch 10) (830, 600) twoLines
                noTextures noTextures (sampleStyles 10) m0 10%Z
                [400; 400]%Z 8%nat E)
      as (m & R & C);
    [ vm_compute; reflexivity
    | reflexivity
    | reflexivity
    | repeat constructor; discriminate
    | reflexivity
    | vm_compute; lia
    | vm_compute; lia
    | exists m0, m; auto ]).
Defined.

Lemma tick_types_while_a_slice_is_paid_witness :
  exists m0 m k,
    opening = Normal m0 /\ update 1 (Double.ofZ 100) m0 = Some m
    /\ (k <= 1)%nat
    /\ typingOf m = typingOf (Nat.iter k advanceTyping m0)
    /\ (revealedUnits m0 <= revealedUnits m)%nat.
Proof.
  with_tick 1%nat (Double.ofZ 100) ltac:(fun m0 m E U D =>
    destruct (@tick_types_while_a_slice_is_paid (fixedPitch 10) 1%nat
                (Double.ofZ 100) m0 m
                (@driven_construct (fixedPitch 10) (830, 600) twoLines
                   noTextures noTextures (sampleStyles 10) m0 E)
                ltac:(vm_compute; reflexivity) U)
      as (k & K1 & K2 & _ & _ & _ & K6);
    exists m0, m, k; auto 10).
Defined.

Lemma bubbles_hold_every_word_from_the_start_witness :
  exists m0 m l,
    opening = Normal m0 /\ update 1 (Double.ofZ 100) m0 = Some m
    /\ typingCursor m = (0, 0, 1)%nat
    /\ nth_error (linesData m) 1 = Some l
    /\ bubbleWords l = wordsOf (parts l)
    /\ wordsOf (parts l) = [of_string "cd"].
Proof.
  with_tick 1%nat (Double.ofZ 100) ltac:(fun m0 m E U D =>
    let l := eval vm_compute in (nth_error (linesData m) 1) in
    match l with
    | Some ?l =>
        exists m0, m, l; split; [exact E|]; split; [exact U|];
        split; [vm_compute; reflexivity|];
        split; [vm_compute; reflexivity|];
        destruct (@bubbles_hold_every_word_from_the_start (fixedPitch 10) m D
                    1%nat l ltac:(vm_compute; reflexivity))
          as (d & _ & _ & _ & B);
        split; [exact B|vm_compute; reflexivity]
    end).
Defined.

Lemma update_follows_the_bottom_unless_paused_witness :
  exists m0 m,
    opening = Normal m0 /\ update 1 (Double.ofZ 100) m0 = Some m
    /\ Scroll.isScrollingPaused (scrollManager m) = false
    /\ Scroll.targetScrollY (scrollManager m)
       = - Scroll.getMaxScroll (maskHeight m0) (scrollManager m0).
Proof.
  with_tick 1%nat (Double.ofZ 100) ltac:(fun m0 m E U D =>
    exists m0, m; split; [exact E|]; split; [exact U|];
    split; [reflexivity|];
    apply (update_follows_the_bottom_unless_paused 1 (Double.ofZ 100) m0 m U);
    reflexivity).
Defined.

Lemma zero_speed_never_types_witness :
  exists m0 m,
    @construct (fixedPitch 10) (830, 600) twoLines noTextures noTextures
               (sampleStyles 0) = Normal m0
    /\ update 0 (Double.ofZ 100000) m0 = Some m /\ typingOf m = typingOf m0.
Proof.
  let c := eval vm_compute in
    (@construct (fixedPitch 10) (830, 600) twoLines noTextures noTextures
                (sampleStyles 0)) in
  match c with
  | Normal ?m0 =>
      destruct (zero_speed_never_types 0 (Double.ofZ 100000) m0)
        as (Z & _);
      [ reflexivity
      | vm_compute; reflexivity
      | vm_compute; discriminate
      | destruct (Z ltac:(vm_compute; reflexivity)) as (m & U & T);
        exists m0, m; split; [vm_compute; reflexivity|]; auto ]
  end.
Defined.

Lemma negative_speed_never_returns_witness :
  exists m0,
    @construct (fixedPitch 10) (830, 600) twoLines noTextures noTextures
               (sampleStyles (-10)) = Normal m0
    /\ forall fuel, update fuel (Double.ofZ 16) m0 = None.
Proof.
  let c := eval vm_compute in
    (@construct (fixedPitch 10) (830, 600) twoLines noTextures noTextures
                (sampleStyles (-10))) in
  match c with
  | Normal ?m0 =>
      exists m0; split; [vm_compute; reflexivity|];
      apply (negative_speed_never_returns (Double.ofZ 16) m0);
      [ vm_compute; reflexivity | reflexivity | vm_compute; reflexivity ]
  end.
Defined.

Lemma resize_while_typing_aims_at_cursor_line_witness :
  exists m0 m m',
    opening = Normal m0 /\ update 1 (Double.ofZ 100) m0 = Some m
    /\ @resize (fixedPitch 10) 500 600 m = Normal m'
    /\ Scroll.isScrollingPaused (scrollManager m') = true
    /\ Scroll.scrollPauseTimeout (scrollManager m') = true.
Proof.
  with_tick 1%nat (Double.ofZ 100) ltac:(fun m0 m E U D =>
    destruct (@resize_while_typing_aims_at_cursor_line (fixedPitch 10)
                500 600 m D)
      as (m' & l & R & N & P & T & Y);
    [ reflexivity
    | vm_compute; lia
    | exists m0, m, m'; split; [exact E|]; split; [exact U|];
      split; [exact R|]; split; [exact P|exact T] ]).
Defined.

Lemma lines_stay_in_step_with_payload_witness :
  exists m0 m,
    opening = Normal m0 /\ update 1 (Double.ofZ 100) m0 = Some m
    /\ length (linesData m) = length (dialogue m).
Proof.
  with_tick 1%nat (Double.ofZ 100) ltac:(fun m0 m E U D =>
    exists m0, m; split; [exact E|]; split; [exact U|];
    apply (@lines_stay_in_step_with_payload (fixedPitch 10) m D)).
Defined.

End TypingFacts.

(** ** The object pool *)

Module PoolFacts.

Import DialogueLineManager ObjectPool.
Import Sample.

Section Pool.

Variable T : Type.
Variable World : Type.
Variable factory : World -> Completion (T * World).
Variable resetFn : T -> Completion T.

Definition size (p : ObjectPool T) : Q := inject_Z (Z.of_nat (length (pool p))).

(** The bound that every operation keeps. *)
Definition withinLimit (p : ObjectPool T) : Prop :=
  0 <= maximumSize p /\ size p < maximumSize p + 1.

Lemma populate_length rounds :
  forall w acc,
    (length (fst (populate factory rounds w acc)) <= length acc + rounds)%nat.
Proof.
  induction rounds as [|n IH]; intros w acc; cbn [populate fst]; [lia|].
  destruct (factory w) as [[obj w']|e]; cbn [fst]; [|lia].
  specialize (IH w' (acc ++ [obj])). rewrite length_app in IH.
  cbn [length] in IH. lia.
Qed.

Lemma rounds_below_limit a limit :
  0 <= limit -> a <= limit ->
  inject_Z (Z.of_nat (roundsBelow a)) < limit + 1.
Proof.
  intros H0 Ha. unfold roundsBelow.
  destruct (Z.le_gt_cases (Qceiling a) 0) as [N|P].
  - assert (Z0 : Z.to_nat (Qceiling a) = 0%nat) by lia.
    rewrite Z0. change (inject_Z (Z.of_nat 0)) with 0. lra.
  - rewrite Z2Nat.id by lia.
    pose proof (Qceiling_lt a) as C.
    unfold Z.sub in C. rewrite inject_Z_plus in C.
    change (inject_Z (- (1))) with (- (1)) in C. lra.
Qed.

Lemma construct_withinLimit initialSize maxSize w :
  withinLimit (fst (ObjectPool.construct factory initialSize maxSize w)).
Proof.
  unfold ObjectPool.construct.
  pose proof (populate_length
                (roundsBelow (Qmin initialSize (Qmax 0 maxSize))) w []) as L.
  destruct (populate _ _ _ _) as [objs w']. cbn [fst length] in *.
  unfold withinLimit, size. cbn [pool maximumSize].
  assert (M : 0 <= Qmax 0 maxSize) by apply Q.le_max_l.
  split; [exact M|].
  pose proof (rounds_below_limit (Qmin initialSize (Qmax 0 maxSize))
                (Qmax 0 maxSize) M (Q.le_min_r _ _)) as R.
  assert (X : inject_Z (Z.of_nat (length objs))
              <= inject_Z (Z.of_nat
                   (roundsBelow (Qmin initialSize (Qmax 0 maxSize))))).
  { rewrite <- Zle_Qle. lia. }
  lra.
Qed.

Lemma release_withinLimit obj p : withinLimit p -> withinLimit (release resetFn obj p).
Proof.
  unfold ObjectPool.release, Qltb. intros [H0 H1].
  destruct (Qle_bool (maximumSize p) _) eqn:E; cbn [negb];
    [split; assumption|].
  destruct (resetFn obj) as [obj'|e]; [|split; assumption].
  unfold withinLimit, size. cbn [pool maximumSize]. split; [exact H0|].
  rewrite length_app. cbn [length]. rewrite Nat2Z.inj_add, inject_Z_plus.
  change (inject_Z (Z.of_nat 1)) with 1.
  assert (~ maximumSize p <= inject_Z (Z.of_nat (length (pool p))))
    by (rewrite <- Qle_bool_iff, E; discriminate).
  lra.
Qed.

Lemma releaseMany_withinLimit objs :
  forall p, withinLimit p -> withinLimit (releaseMany resetFn objs p).
Proof.
  induction objs as [|o objs IH]; intros p H; [exact H|].
  cbn [ObjectPool.releaseMany fold_left]. apply (IH (release resetFn o p)).
  now apply release_withinLimit.
Qed.

Lemma get_withinLimit p w obj p' w' :
  withinLimit p -> ObjectPool.get factory p w = Normal (obj, p', w') -> withinLimit p'.
Proof.
  unfold ObjectPool.get. intros [H0 H1].
  destruct (rev (pool p)) as [|x rest] eqn:R.
  - destruct (factory w) as [[o w1]|e]; intros E; inversion E; subst.
    split; assumption.
  - intros E. inversion E; subst. unfold withinLimit, size in *.
    cbn [pool maximumSize]. split; [exact H0|].
    assert (L : length (pool p) = S (length (rev rest))).
    { rewrite <- (rev_involutive (pool p)), R. cbn [rev].
      rewrite length_app. cbn [length]. lia. }
    rewrite L, Nat2Z.inj_succ, <- Z.add_1_r, inject_Z_plus in H1.
    change (inject_Z 1) with 1 in H1. lra.
Qed.

(** X21.  The pool never holds more than its limit.  After the
    constructor and any sequence of [get], [release], [releaseMany] and
    [clear] calls, whatever the factory and the reset function do, the
    limit is not negative and the number of stored objects is less than
    the limit plus one; for a limit that is a whole number [k] the pool
    holds at most [k] objects. *)
Theorem pool_never_exceeds_its_limit (pw : ObjectPool T * World) :
  Reachable factory resetFn pw ->
  withinLimit (fst pw)
  /\ forall k : nat,
       maximumSize (fst pw) == inject_Z (Z.of_nat k) ->
       (currentSize (fst pw) <= k)%nat.
Proof.
  intros R.
  assert (W : withinLimit (fst pw)).
  { induction R as [i mx w|c [p w] R IH].
    - apply construct_withinLimit.
    - cbn [fst] in IH. destruct c as [|obj|objs|]; cbn [call fst snd].
      + destruct (ObjectPool.get factory p w) as [[[o p'] w']|e] eqn:G; cbn [fst];
          [|exact IH]. apply (get_withinLimit p w o p' w' IH G).
      + now apply release_withinLimit.
      + now apply releaseMany_withinLimit.
      + destruct IH as [H0 _]. split; [exact H0|].
        unfold size, clear. cbn [fst pool maximumSize length].
        change (inject_Z (Z.of_nat 0)) with 0. lra. }
  split; [exact W|]. intros k Hk. destruct W as [_ W].
  unfold size in W. rewrite Hk in W. unfold currentSize.
  change 1 with (inject_Z 1) in W.
  rewrite <- (inject_Z_plus (Z.of_nat k) 1), <- Zlt_Qlt in W. lia.
Qed.

(** X22.  What is released comes back first.  When the pool has room
    and the reset does not throw, a [get] right after [release(obj)]
    returns that object, as the reset left it, without calling the
    factory, and the pool is again what it was before the release. *)
Theorem release_then_get_returns_the_object
  (obj obj' : T) (p : ObjectPool T) (w : World) :
  size p < maximumSize p ->
  resetFn obj = Normal obj' ->
  ObjectPool.get factory (release resetFn obj p) w = Normal (obj', p, w).
Proof.
  intros Room Reset. unfold ObjectPool.release, Qltb, size in *.
  destruct (Qle_bool (maximumSize p) _) eqn:E.
  { apply Qle_bool_iff in E. lra. }
  cbn [negb]. rewrite Reset. unfold ObjectPool.get. cbn [pool maximumSize].
  rewrite rev_app_distr. cbn [rev app]. rewrite rev_involutive.
  destruct p; reflexivity.
Qed.

Lemma populate_total rounds :
  (forall w, exists obj w', factory w = Normal (obj, w')) ->
  forall w acc,
    length (fst (populate factory rounds w acc)) = (length acc + rounds)%nat.
Proof.
  intros Tot. induction rounds as [|n IH]; intros w acc;
    cbn [populate fst]; [lia|].
  destruct (Tot w) as (obj & w' & ->).
  rewrite IH, length_app. cbn [length]. lia.
Qed.

(** X23.  The constructor fills the pool up to the smaller of the two
    sizes: with a factory that does not throw and whole numbers [n]
    for the initial size and [k] for the limit, the new pool holds
    [min n k] objects. *)
Theorem constructor_prepopulates (n k : nat) (w : World) :
  (forall w, exists obj w', factory w = Normal (obj, w')) ->
  currentSize (fst (ObjectPool.construct factory (inject_Z (Z.of_nat n))
                              (inject_Z (Z.of_nat k)) w))
  = Nat.min n k.
Proof.
  intros Tot. unfold ObjectPool.construct.
  pose proof (populate_total
                (roundsBelow (Qmin (inject_Z (Z.of_nat n))
                                   (Qmax 0 (inject_Z (Z.of_nat k)))))
                Tot w []) as L.
  destruct (populate _ _ _ _) as [objs w']. cbn [fst length] in *.
  unfold currentSize. cbn [pool]. rewrite L. cbn [Nat.add].
  unfold roundsBelow.
  assert (E : Qmin (inject_Z (Z.of_nat n)) (Qmax 0 (inject_Z (Z.of_nat k)))
              == inject_Z (Z.of_nat (Nat.min n k))).
  { assert (K : Qmax 0 (inject_Z (Z.of_nat k)) == inject_Z (Z.of_nat k)).
    { apply Q.max_r. change 0 with (inject_Z 0). rewrite <- Zle_Qle. lia. }
    rewrite K. destruct (Nat.le_ge_cases n k) as [H|H].
    - rewrite Nat.min_l by exact H. apply Q.min_l.
      rewrite <- Zle_Qle. lia.
    - rewrite Nat.min_r by exact H. apply Q.min_r.
      rewrite <- Zle_Qle. lia. }
  rewrite (Qceiling_comp _ _ E), Qceiling_Z. apply Nat2Z.id.
Qed.

Lemma release_room (r : T -> T) obj p k :
  (forall o, resetFn o = Normal (r o)) ->
  maximumSize p == inject_Z (Z.of_nat k) ->
  pool (release resetFn obj p)
  = (if Nat.ltb (length (pool p)) k then pool p ++ [r obj] else pool p)
  /\ maximumSize (release resetFn obj p) = maximumSize p.
Proof.
  intros Tot Hk. unfold ObjectPool.release, Qltb. rewrite Tot.
  destruct (Qle_bool (maximumSize p) _) eqn:E; cbn [negb].
  - apply Qle_bool_iff in E. rewrite Hk, <- Zle_Qle in E.
    destruct (Nat.ltb_spec (length (pool p)) k); [lia|]. auto.
  - assert (X : ~ maximumSize p <= inject_Z (Z.of_nat (length (pool p))))
      by (rewrite <- Qle_bool_iff, E; discriminate).
    rewrite Hk, <- Zle_Qle in X.
    destruct (Nat.ltb_spec (length (pool p)) k); [|lia]. auto.
Qed.

(** X24.  [releaseMany] keeps what fits and drops the rest.  With a
    reset that does not throw and a limit that is a whole number [k],
    the objects are stored in the order given, after the ones already
    there, until the pool holds [k]; the remaining ones are dropped
    without being reset into the pool. *)
Theorem releaseMany_keeps_what_fits
  (r : T -> T) (objs : list T) (p : ObjectPool T) (k : nat) :
  (forall o, resetFn o = Normal (r o)) ->
  maximumSize p == inject_Z (Z.of_nat k) ->
  pool (releaseMany resetFn objs p)
  = pool p ++ firstn (k - length (pool p)) (map r objs)
  /\ maximumSize (releaseMany resetFn objs p) = maximumSize p.
Proof.
  intros Tot. revert p. induction objs as [|o objs IH]; intros p Hk.
  - cbn. rewrite firstn_nil, app_nil_r. auto.
  - cbn [ObjectPool.releaseMany fold_left map].
    destruct (release_room r o p k Tot Hk) as [R1 R2].
    destruct (IH (release resetFn o p)) as [I1 I2]; [now rewrite R2|].
    unfold ObjectPool.releaseMany in I1, I2. rewrite I1, I2, R1, R2.
    split; [|reflexivity].
    destruct (Nat.ltb_spec (length (pool p)) k) as [Lt|Ge].
    + rewrite length_app. cbn [length].
      replace (k - length (pool p))%nat
        with (S (k - (length (pool p) + 1)))%nat by lia.
      cbn [firstn]. now rewrite <- app_assoc.
    + replace (k - length (pool p))%nat with 0%nat by lia. reflexivity.
Qed.

End Pool.

Lemma pool_never_exceeds_its_limit_witness :
  (currentSize
     (fst (call counter doubling (ReleaseMany [7; 8; 9]%nat)
             (call counter doubling (Get nat)
                (ObjectPool.construct counter 5 2 0%nat)))) <= 2)%nat.
Proof.
  apply (pool_never_exceeds_its_limit nat nat counter doubling
           (call counter doubling (ReleaseMany [7; 8; 9]%nat)
              (call counter doubling (Get nat)
                 (ObjectPool.construct counter 5 2 0%nat)))).
  - apply reach_call, reach_call, reach_construct.
  - reflexivity.
Defined.

Lemma release_then_get_returns_the_object_witness :
  ObjectPool.get counter
    (ObjectPool.release doubling 21%nat (mkPool [3; 4]%nat 5)) 9%nat
  = Normal (42%nat, mkPool [3; 4]%nat 5, 9%nat).
Proof.
  apply (release_then_get_returns_the_object nat nat counter doubling
           21%nat 42%nat (mkPool [3; 4]%nat 5) 9%nat).
  - reflexivity.
  - reflexivity.
Defined.

Lemma constructor_prepopulates_witness :
  currentSize (fst (ObjectPool.construct counter (inject_Z (Z.of_nat 144))
                      (inject_Z (Z.of_nat 1000)) 0%nat))
  = 144%nat.
Proof.
  apply (constructor_prepopulates nat nat counter 144 1000 0%nat).
  intros w. exists w, (S w). reflexivity.
Defined.

Lemma releaseMany_keeps_what_fits_witness :
  pool (ObjectPool.releaseMany doubling [1; 2; 3]%nat (mkPool [9]%nat 3))
  = [9; 2; 4]%nat.
Proof.
  apply (releaseMany_keeps_what_fits nat doubling (fun o => 2 * o)%nat
           [1; 2; 3]%nat (mkPool [9]%nat 3) 3).
  - intros o. reflexivity.
  - reflexivity.
Defined.

End PoolFacts.

(** ** The scene that feeds the dialogue *)

Module SceneFacts.

Import Parser DialogueLineManager DialogueManager Reveal LineFacts TypingFacts.
Import MagicWordsScene.

Lemma advanceTyping_dialogue m : dialogue (advanceTyping m) = dialogue m.
Proof.
  unfold advanceTyping.
  destruct (isTypingComplete m); [reflexivity|].
  destruct (nth_error (linesData m) (currentLineIndex m)) as [l|];
    [|reflexivity].
  destruct (nth_error (parts l) (currentPartIndex m)) as [part|].
  - set (m1 := match type part with
               | text => _ | emoji => _ | _ => m end).
    assert (F : dialogue m1 = dialogue m).
    { subst m1. destruct (type part); [destruct (Nat.ltb _ _)| | |];
        reflexivity. }
    clearbody m1.
    destruct (showLine_lines (currentLineIndex m1) (currentPartIndex m1)
                (currentCharacterIndex m1) m1) as (S1 & _).
    set (m2 := showLine _ _ _ m1) in *. clearbody m2.
    destruct (Nat.leb _ _); [destruct (Nat.leb _ _)|]; cbn; congruence.
  - destruct (Nat.leb _ _); [reflexivity|].
    match goal with
    | |- context [showLine ?i ?p ?c ?x] =>
        destruct (showLine_lines i p c x) as (S1 & _)
    end.
    rewrite S1. reflexivity.
Qed.

Lemma typingLoop_dialogue crt fuel :
  forall m m', typingLoop fuel crt m = Some m' -> dialogue m' = dialogue m.
Proof.
  induction fuel as [|fuel IH]; intros m m'; cbn [typingLoop];
    destruct (Double.geb (lineRevealAccumulator m) crt);
    intros H; try discriminate H; try (inversion H; subst; reflexivity).
  apply IH in H. rewrite H, advanceTyping_dialogue. reflexivity.
Qed.

Lemma update_dialogue fuel d m m' :
  DialogueManager.update fuel d m = Some m' -> dialogue m' = dialogue m.
Proof.
  unfold DialogueManager.update. destruct (isTypingComplete m).
  { intros H. inversion H; subst. reflexivity. }
  set (m1 := set_accumulator (Double.add (lineRevealAccumulator m) d) m).
  destruct (typingLoop fuel (charRevealTime m1) m1) as [m2|] eqn:E;
    [|discriminate].
  assert (F : dialogue m2 = dialogue m)
    by exact (typingLoop_dialogue _ fuel m1 m2 E).
  intros H. inversion H; subst m'. clear H.
  destruct (negb _); cbn; exact F.
Qed.

Lemma firstn_snoc {A} (l : list A) n x :
  nth_error l n = Some x -> firstn (S n) l = firstn n l ++ [x].
Proof.
  revert n. induction l as [|a l IH]; intros [|n] H; cbn in *;
    try discriminate.
  - now inversion H.
  - f_equal. apply IH, H.
Qed.

Section WithPlatform.
Context {pf : Platform}.

(** The messages on show are the first ones of the payload, up to the
    current index. *)
Definition inOrder (s : Scene) : Prop :=
  dialogue (dialogueManager s)
  = firstn (S (currentMessageIndex s)) (dialogueData s)
  /\ (dialogueData s = []
      \/ (currentMessageIndex s < length (dialogueData s))%nat).

Lemma running_driven_inOrder s :
  Running s -> Driven (dialogueManager s) /\ inOrder s.
Proof.
  induction 1 as [screen data eT aT st s E
                 |fuel d s s' _ [D [O1 O2]] U
                 |w h s s' _ [D [O1 O2]] R].
  - unfold init in E.
    destruct (construct screen _ eT aT st) as [m|e] eqn:C; [|discriminate].
    inversion E; subst s. cbn [dialogueManager currentMessageIndex
                                dialogueData].
    split; [exact (@driven_construct pf _ _ _ _ _ _ C)|].
    destruct (construct_inv _ _ _ _ _ _ C) as (_ & Dg & _).
    unfold inOrder. cbn [dialogueManager currentMessageIndex dialogueData].
    rewrite Dg. destruct data as [|first rest]; cbn; split; auto. right. lia.
  - unfold update in U.
    destruct (DialogueManager.update fuel d (dialogueManager s))
      as [m|] eqn:Um; [|discriminate].
    pose proof (@driven_update pf _ _ _ _ D Um) as Dm.
    pose proof (update_dialogue _ _ _ _ Um) as Dg.
    destruct (isTypingComplete m) eqn:C; cbn [andb] in U.
    2:{ inversion U; subst s'. split; [exact Dm|].
        unfold inOrder. cbn. rewrite Dg. auto. }
    destruct (Z.ltb_spec (Z.of_nat (currentMessageIndex s))
                (Z.of_nat (length (dialogueData s)) - 1)) as [Lt|Ge].
    2:{ inversion U; subst s'. split; [exact Dm|].
        unfold inOrder. cbn. rewrite Dg. auto. }
    destruct (nth_error (dialogueData s) (S (currentMessageIndex s)))
      as [next|] eqn:N; [|apply nth_error_None in N; lia].
    destruct (appendMessage next m) as [m'|e] eqn:A; [|discriminate].
    inversion U; subst s'. cbn [dialogueManager currentMessageIndex
                                 dialogueData].
    split; [exact (@driven_append pf _ _ _ Dm C A)|].
    unfold inOrder. cbn [dialogueManager currentMessageIndex dialogueData].
    destruct (appendMessage_fields next m)
      as (m2 & nl & A2 & _ & _ & _ & F & _).
    rewrite A in A2. inversion A2; subst m2.
    rewrite F, Dg, O1, (firstn_snoc _ _ _ N). split; [reflexivity|].
    right. lia.
  - unfold resize in R.
    destruct (DialogueManager.resize w h (dialogueManager s))
      as [m|e] eqn:Rm; [|discriminate].
    inversion R; subst s'. cbn [dialogueManager currentMessageIndex
                                 dialogueData].
    split; [exact (@driven_resize pf _ _ _ _ D Rm)|].
    destruct (resize_inv w h (dialogueManager s) (Driven_inv _ D))
      as (m2 & R2 & _ & Dg & _).
    rewrite Rm in R2. inversion R2; subst m2.
    unfold inOrder. cbn. rewrite Dg. auto.
Qed.

(** X27.  The scene feeds the engine one message at a time, in order.
    In every state of the scene, after [init] and any number of ticks
    and resizes, the engine is in a state of the driven kind (a message
    is appended only when typing is complete), the messages it holds
    are exactly the first [currentMessageIndex + 1] entries of the
    payload, none skipped and none repeated, and the index stays inside
    the payload. *)
Theorem scene_feeds_messages_in_order (s : Scene) :
  Running s ->
  Driven (dialogueManager s)
  /\ dialogue (dialogueManager s)
     = firstn (S (currentMessageIndex s)) (dialogueData s)
  /\ (dialogueData s = []
      \/ (currentMessageIndex s < length (dialogueData s))%nat).
Proof.
  intros R. destruct (running_driven_inOrder s R) as [D [O1 O2]]. auto.
Qed.

(** *** Every message is shown *)

(** A run of ticks of the scene. *)
Fixpoint ticks (fuel : nat) (ds : list Double.number) (s : Scene)
  : option (Completion Scene) :=
  match ds with
  | [] => Some (Normal s)
  | d :: rest =>
      match update fuel d s with
      | Some (Normal s') => ticks fuel rest s'
      | other => other
      end
  end.

(** The typing steps that one message takes when it is the last one. *)
Definition messageCost (msg : DialogueLine) : nat :=
  lineCostAt (parseLine (or_default (line_text msg) [])) 0 0 + 1.

(** A tick of [d] whole milliseconds that is long enough to type any
    one message of the payload at [speed] characters a second. *)
Definition longEnough (speed : Z) (data : list DialogueLine) (d : Z) : Prop :=
  (0 <= d < 2 ^ 53)%Z
  /\ Forall (fun msg => (messageCost msg <= slices speed d)%nat) data.

(** The scene has just put message [j] up, nothing of it typed yet. *)
Definition Fresh (speed : Z) (j : nat) (s : Scene) : Prop :=
  Running s
  /\ currentMessageIndex s = j
  /\ (j < length (dialogueData s))%nat
  /\ isTypingComplete (dialogueManager s) = false
  /\ lineRevealAccumulator (dialogueManager s) = Double.zero
  /\ typingCursor (dialogueManager s) = (j, 0, 0)%nat
  /\ typingSpeed (styles (dialogueManager s)) = Double.ofZ speed.

(** The scene has typed the last message. *)
Definition Done (speed : Z) (s : Scene) : Prop :=
  Running s
  /\ S (currentMessageIndex s) = length (dialogueData s)
  /\ isTypingComplete (dialogueManager s) = true
  /\ typingSpeed (styles (dialogueManager s)) = Double.ofZ speed.

Lemma appendMessage_restart line m :
  isTypingComplete m = true ->
  exists m',
    appendMessage line m = Normal m'
    /\ lineRevealAccumulator m' = Double.zero
    /\ typingSpeed (styles m') = typingSpeed (styles m).
Proof.
  intros C. unfold appendMessage.
  destruct (created_line (styles m) (emojiTextures m) (avatarTextures m) line
              (fst (appScreen m) - dialoguePadding (styles m) * 2))
    as (ld & st' & E & K1 & K2 & K3 & K4).
  rewrite E.
  match goal with
  | |- context [set_container_y ?v ld] => set (y := v)
  end.
  match goal with
  | |- context [showLine ?i ?p ?c ?x] =>
      destruct (showLine_lines i p c x)
        as (_ & _ & _ & _ & _ & S6 & _);
      destruct (showLine_rest i p c x) as (_ & R2 & _);
      set (m3 := showLine i p c x) in *
  end.
  cbn [isTypingComplete styles set_dialogue set_lines] in S6, R2.
  eexists. split; [reflexivity|].
  unfold forceScrollToBottom.
  cbn [isTypingComplete set_scroll]. rewrite S6, C.
  cbn [lineRevealAccumulator styles set_cursor set_scroll set_accumulator
       set_complete].
  split; [reflexivity|]. rewrite R2. apply (look_speed _ _ K4).
Qed.

Lemma tick_done speed fuel d s :
  Done speed s ->
  exists s', update fuel d s = Some (Normal s') /\ Done speed s'.
Proof.
  intros (R & I & C & Sp). unfold update.
  assert (U : DialogueManager.update fuel d (dialogueManager s)
              = Some (tickScroll d (dialogueManager s)))
    by (unfold DialogueManager.update; now rewrite C).
  pose proof U as U'. unfold update in U'.
  assert (X : update fuel d s
              = Some (Normal (mkScene (dialogueData s)
                                (tickScroll d (dialogueManager s))
                                (currentMessageIndex s)))).
  { unfold update. rewrite U.
    change (isTypingComplete (tickScroll d (dialogueManager s)))
      with (isTypingComplete (dialogueManager s)).
    rewrite C. cbn [andb].
    destruct (Z.ltb_spec (Z.of_nat (currentMessageIndex s))
                (Z.of_nat (length (dialogueData s)) - 1)); [lia|].
    reflexivity. }
  fold (update fuel d s). rewrite X. eexists. split; [reflexivity|].
  split; [exact (@running_update pf _ _ _ _ R X)|].
  cbn. auto.
Qed.

Lemma fresh_pending speed j s :
  Fresh speed j s ->
  exists msg,
    nth_error (dialogueData s) j = Some msg
    /\ pending (dialogueManager s) = messageCost msg.
Proof.
  intros (R & I & Lt & C & A & Cu & Sp).
  destruct (running_driven_inOrder s R) as (D & O1 & _).
  destruct (Driven_inv _ D) as (I1 & _ & I3).
  set (m := dialogueManager s) in *.
  assert (Ld : length (dialogue m) = S j).
  { rewrite O1, I, length_firstn. lia. }
  assert (Ll : length (linesData m) = S j) by congruence.
  destruct (nth_error (linesData m) j) as [l|] eqn:N;
    [|apply nth_error_None in N; lia].
  destruct (I3 j l N) as (msg & Hm & P & _).
  exists msg. split.
  - rewrite O1, I in Hm. rewrite nth_error_firstn in Hm.
    destruct (Nat.ltb_spec j (S j)); [exact Hm|lia].
  - unfold typingCursor in Cu.
    pose proof (f_equal (fun x => fst (fst x)) Cu) as C1.
    pose proof (f_equal (fun x => snd (fst x)) Cu) as C2.
    pose proof (f_equal snd Cu) as C3. cbn [fst snd] in C1, C2, C3.
    unfold pending. rewrite C, C1, C2, C3, script_lookup, N.
    cbn [option_map]. rewrite skipn_all2 by (rewrite script_length; lia).
    unfold messageCost, laterCost. rewrite P.
    cbn [map list_sum fold_right]. lia.
Qed.

Lemma tick_fresh (speed : Z) fuel d j s :
  (0 < speed)%Z -> (1000 mod speed = 0)%Z ->
  Fresh speed j s ->
  longEnough speed (dialogueData s) d ->
  (slices speed d <= fuel)%nat ->
  exists s',
    update fuel (Double.ofZ d) s = Some (Normal s')
    /\ dialogueData s' = dialogueData s
    /\ (if Nat.ltb (S j) (length (dialogueData s))
        then Fresh speed (S j) s' else Done speed s').
Proof.
  intros Hs Hm F [[Hd Bd] Long] Hf.
  destruct (fresh_pending speed j s F) as (msg & Hmsg & Pend).
  destruct F as (R & I & Lt & C & A & Cu & Sp).
  destruct (running_driven_inOrder s R) as (D & O1 & _).
  pose proof (Driven_inv _ D) as Inv0.
  set (m := dialogueManager s) in *.
  destruct (slices_of_divisor speed d Hs Hm) as [Hc K].
  assert (Crt : charRevealTime m = Double.ofZ (1000 / speed)).
  { unfold charRevealTime. rewrite Sp.
    apply DoubleFacts.slice_of_divisor; assumption. }
  destruct (update_whole (1000 / speed) 0 d m fuel Hc Inv0 Crt C)
    as (m1 & U1 & U2 & _ & U4 & _ & U6 & _ & U8).
  { rewrite A. symmetry. apply DoubleFacts.ofZ_0. }
  { lia. }
  { exact Hd. }
  { rewrite Z.add_0_l. exact Bd. }
  { rewrite Z.add_0_l, <- K. exact Hf. }
  rewrite Z.add_0_l, <- K in U2.
  assert (C1 : isTypingComplete m1 = true).
  { rewrite (typingOf_complete _ _ U2).
    apply typing_ends; [apply Inv_script, Inv0|].
    rewrite Pend.
    apply (proj1 (Forall_forall _ _) Long msg), (nth_error_In _ _ Hmsg). }
  unfold update. fold m. rewrite U1, C1. cbn [andb].
  destruct (Nat.ltb_spec (S j) (length (dialogueData s))) as [More|Last].
  - destruct (Z.ltb_spec (Z.of_nat (currentMessageIndex s))
                (Z.of_nat (length (dialogueData s)) - 1)); [|lia].
    rewrite I.
    destruct (nth_error (dialogueData s) (S j)) as [next|] eqn:N;
      [|apply nth_error_None in N; lia].
    destruct (appendMessage_restart next m1 C1) as (m2 & A2 & Acc & Sp2).
    destruct (appendMessage_fields next m1)
      as (m3 & nl & A3 & _ & _ & F1 & _ & _ & F4 & F5 & F6 & F7).
    rewrite A2 in A3. inversion A3; subst m3. rewrite A2.
    eexists. split; [reflexivity|]. split; [reflexivity|].
    assert (X : update fuel (Double.ofZ d) s
                = Some (Normal (mkScene (dialogueData s) m2 (S j)))).
    { unfold update. fold m. rewrite U1, C1. cbn [andb].
      destruct (Z.ltb_spec (Z.of_nat (currentMessageIndex s))
                  (Z.of_nat (length (dialogueData s)) - 1)); [|lia].
      rewrite I, N, A2. reflexivity. }
    split; [exact (@running_update pf _ _ _ _ R X)|].
    cbn [currentMessageIndex dialogueManager dialogueData].
    split; [reflexivity|]. split; [exact More|]. split; [exact F7|].
    split; [exact Acc|]. split; [|rewrite Sp2, U8; exact Sp].
    unfold typingCursor. rewrite F4, F5, F6. f_equal. f_equal.
    destruct U4 as (L1 & _). rewrite <- L1, U6.
    fold m in O1. rewrite O1, I, length_firstn. lia.
  - destruct (Z.ltb_spec (Z.of_nat (currentMessageIndex s))
                (Z.of_nat (length (dialogueData s)) - 1)); [lia|].
    eexists. split; [reflexivity|]. split; [reflexivity|].
    assert (X : update fuel (Double.ofZ d) s
                = Some (Normal (mkScene (dialogueData s) m1
                                  (currentMessageIndex s)))).
    { unfold update. fold m. rewrite U1, C1. cbn [andb].
      destruct (Z.ltb_spec (Z.of_nat (currentMessageIndex s))
                  (Z.of_nat (length (dialogueData s)) - 1)); [lia|].
      reflexivity. }
    split; [exact (@running_update pf _ _ _ _ R X)|].
    cbn [currentMessageIndex dialogueManager dialogueData].
    split; [lia|]. split; [exact C1|]. rewrite U8. exact Sp.
Qed.

Lemma ticks_done speed fuel ds :
  forall s,
    Done speed s ->
    exists s', ticks fuel ds s = Some (Normal s')
               /\ dialogueData s' = dialogueData s /\ Done speed s'.
Proof.
  induction ds as [|d ds IH]; intros s Dn.
  - exists s. auto.
  - destruct (tick_done speed fuel d s Dn) as (s1 & U & D1).
    cbn [ticks]. rewrite U.
    assert (E : dialogueData s1 = dialogueData s).
    { unfold update in U.
      destruct (DialogueManager.update _ _ _); [|discriminate].
      destruct (_ && _);
        [destruct (nth_error _ _); [destruct (appendMessage _ _)|]|];
        inversion U; reflexivity. }
    destruct (IH s1 D1) as (s2 & T & E2 & D2).
    exists s2. split; [exact T|]. split; [congruence|exact D2].
Qed.

Lemma ticks_fresh (speed : Z) fuel :
  (0 < speed)%Z -> (1000 mod speed = 0)%Z ->
  forall ds j s,
    Fresh speed j s ->
    Forall (longEnough speed (dialogueData s)) ds ->
    Forall (fun d => (slices speed d <= fuel)%nat) ds ->
    (length (dialogueData s) - j <= length ds)%nat ->
    exists s', ticks fuel (map Double.ofZ ds) s = Some (Normal s')
               /\ dialogueData s' = dialogueData s /\ Done speed s'.
Proof.
  intros Hs Hm. induction ds as [|d ds IH]; intros j s F L Fu Len.
  - destruct F as (_ & _ & Lt & _). cbn [length] in Len. lia.
  - inversion L as [|? ? L1 L2]; subst. inversion Fu as [|? ? F1 F2]; subst.
    destruct (tick_fresh speed fuel d j s Hs Hm F L1 F1) as (s1 & U & E & Nx).
    cbn [ticks map]. rewrite U. cbn [length] in Len.
    destruct (Nat.ltb_spec (S j) (length (dialogueData s))) as [More|Last].
    + destruct (IH (S j) s1 Nx) as (s2 & T & E2 & D2);
        [now rewrite E|exact F2|rewrite E; lia|].
      exists s2. split; [exact T|]. split; [congruence|exact D2].
    + destruct (ticks_done speed fuel (map Double.ofZ ds) s1 Nx)
        as (s2 & T & E2 & D2).
      exists s2. split; [exact T|]. split; [congruence|exact D2].
Qed.

(** X28.  The scene shows the whole dialogue.  Start the scene on a
    payload that is not empty, with a typing speed that divides 1000,
    and tick it at least once per message with ticks of whole
    milliseconds, fewer than 2^53 each, that are each long enough to
    type any one message: every tick returns, and in the end the engine
    holds all the messages of the payload, in order, the index is on
    the last one, and typing is complete. *)
Theorem scene_shows_every_message
  (appScreen : Q * Q) (data : list DialogueLine) (eT aT : TextureMap)
  (st : DialogueStyles) (s0 : Scene) (speed : Z) (fuel : nat)
  (ds : list Z) :
  init appScreen data eT aT st = Normal s0 ->
  typingSpeed st = Double.ofZ speed ->
  (0 < speed)%Z -> (1000 mod speed = 0)%Z ->
  data <> [] ->
  Forall (longEnough speed data) ds ->
  Forall (fun d => (slices speed d <= fuel)%nat) ds ->
  (length data <= length ds)%nat ->
  exists s,
    ticks fuel (map Double.ofZ ds) s0 = Some (Normal s)
    /\ dialogue (dialogueManager s) = data
    /\ S (currentMessageIndex s) = length data
    /\ isTypingComplete (dialogueManager s) = true.
Proof.
  intros E Sp Hs Hm Hne L Fu Len.
  assert (R0 : Running s0) by exact (@running_init pf _ _ _ _ _ _ E).
  assert (F0 : Fresh speed 0 s0 /\ dialogueData s0 = data).
  { unfold init in E.
    destruct (construct appScreen _ eT aT st) as [m|e] eqn:C;
      [|discriminate].
    destruct (construct_inv _ _ _ _ _ _ C)
      as (_ & _ & _ & A3 & A4 & A5 & A6 & A7 & A8).
    inversion E; subst s0. split; [|reflexivity].
    split; [exact R0|]. cbn [currentMessageIndex dialogueData dialogueManager].
    split; [reflexivity|].
    split; [destruct data; [contradiction|cbn; lia]|].
    split; [exact A6|]. split; [exact A7|].
    split; [unfold typingCursor; now rewrite A3, A4, A5|].
    rewrite A8. exact Sp. }
  destruct F0 as [F0 E0].
  destruct (ticks_fresh speed fuel Hs Hm ds 0 s0 F0)
    as (s & T & Ed & (R & I & C & _));
    [now rewrite E0|exact Fu|rewrite E0; lia|].
  exists s. split; [exact T|].
  destruct (running_driven_inOrder s R) as (_ & O1 & _).
  rewrite Ed, E0 in *. split; [|split; [exact I|exact C]].
  rewrite O1, I. apply firstn_all.
Qed.

End WithPlatform.

Import Sample.

Lemma scene_feeds_messages_in_order_witness :
  exists s0 s1,
    twoLineScene = Normal s0
    /\ @update (fixedPitch 10) 10 (Double.ofZ 1000) s0 = Some (Normal s1)
    /\ currentMessageIndex s1 = 1%nat
    /\ dialogue (dialogueManager s1) = twoLines.
Proof.
  let c := eval vm_compute in twoLineScene in
  match c with
  | Normal ?s0 =>
      let r := eval vm_compute in
        (@update (fixedPitch 10) 10 (Double.ofZ 1000) s0) in
      match r with
      | Some (Normal ?s1) =>
          assert (E : twoLineScene = Normal s0) by (vm_compute; reflexivity);
          assert (U : @update (fixedPitch 10) 10 (Double.ofZ 1000) s0
                      = Some (Normal s1))
            by (vm_compute; reflexivity);
          exists s0, s1; split; [exact E|]; split; [exact U|];
          split; [vm_compute; reflexivity|];
          destruct (@scene_feeds_messages_in_order (fixedPitch 10) s1)
            as (_ & O & _);
          [ exact (@running_update (fixedPitch 10) 10 (Double.ofZ 1000) s0 s1
                     (@running_init (fixedPitch 10) (830, 600) twoLines
                        noTextures noTextures (sampleStyles 10) s0 E) U)
          | rewrite O; vm_compute; reflexivity ]
      end
  end.
Defined.

Lemma scene_shows_every_message_witness :
  exists s0 s,
    twoLineScene = Normal s0
    /\ @ticks (fixedPitch 10) 4 (map Double.ofZ [400; 400]%Z) s0
       = Some (Normal s)
    /\ dialogue (dialogueManager s) = twoLines
    /\ isTypingComplete (dialogueManager s) = true.
Proof.
  let c := eval vm_compute in twoLineScene in
  match c with
  | Normal ?s0 =>
      assert (E : twoLineScene = Normal s0) by (vm_compute; reflexivity);
      destruct (@scene_shows_every_message (fixedPitch 10) (830, 600)
                  twoLines noTextures noTextures (sampleStyles 10) s0
                  10%Z 4%nat [400; 400]%Z E)
        as (s & T & Dg & _ & C);
      [ vm_compute; reflexivity
      | reflexivity
      | reflexivity
      | discriminate
      | repeat constructor; try discriminate; try reflexivity;
        vm_compute; lia
      | repeat constructor; vm_compute; lia
      | cbn; lia
      | exists s0, s; auto ]
  end.
Defined.

End SceneFacts.
